(** * local_thr: a 0MQ throughput receiver that writes each message to disk

    Shallow embedding of [perf/local_thr.cpp].  The program has one
    orchestrator thread ([main]) and up to [MAX_THREADS] writer threads
    ([file_writer]).  The embedding has three layers:

    - machine arithmetic: C [int], [unsigned long] and [double] (binary64,
      through the Standard Library's [SpecFloat]);
    - the two source functions, [file_writer] and [main], written with
      explicit state and an explicit record of what the environment
      (libzmq, libc, pthreads, the stopwatch) answers;
    - a scheduler that interleaves the steps of [main] with those of the
      writer threads it creates, sharing the globals [thread_ctr] and
      [disk_name] and the file system.

    [main] never reads anything a writer thread has written: its
    actions are a function of its arguments and of what the environment
    answers, and the writer threads act on it only by making
    [pthread_join] wait.  So [main] is run first, as a function that
    records its actions in program order, and the scheduler then plays
    these actions against the steps of the writer threads.

    Signed overflow, a division by zero, an out-of-bounds array index and
    an out-of-range conversion are undefined behaviour in C++; the
    embedding stops with [Undefined] there instead of picking a result.
    The one exception is the module [Wrapped], which runs the loop of
    [main] as a build with wrap-around [int] arithmetic does. *)

From Stdlib Require Import ZArith Lia SpecFloat QArith Qabs Ascii String.
From Stdlib.Strings Require Import Byte.
From stdpp Require Import base list strings gmap.

Local Open Scope Z_scope.
Set Warnings "-clear-no-such-hyp".

(** ** Machine integers *)

Module MachInt.

Definition INT_MIN : Z := - 2 ^ 31.
Definition INT_MAX : Z := 2 ^ 31 - 1.
Definition ULONG_MOD : Z := 2 ^ 64.

Definition in_int (z : Z) : Prop := INT_MIN <= z <= INT_MAX.
Definition in_intb (z : Z) : bool := (INT_MIN <=? z) && (z <=? INT_MAX).
Definition in_ulong (z : Z) : Prop := 0 <= z < ULONG_MOD.

(** A signed operation is defined only when its mathematical result is an
    [int]. *)
Definition int_checked (z : Z) : option Z :=
  if in_intb z then Some z else None.

Definition int_add (a b : Z) : option Z := int_checked (a + b).
Definition int_sub (a b : Z) : option Z := int_checked (a - b).

(** [a % b] on [int]: truncating remainder; [b = 0] is undefined.  (The
    other undefined case, [INT_MIN % -1], has remainder 0 and is kept.) *)
Definition int_rem (a b : Z) : option Z :=
  if b =? 0 then None else Some (Z.rem a b).

(** Conversion of an [int] to [size_t] / [unsigned long] (LP64). *)
Definition to_ulong (z : Z) : Z := z mod ULONG_MOD.

(** Conversion of an [unsigned long] or [size_t] to [int], as the casts
    before [printf ("%d")] do it: reduction modulo 2^32 into the signed
    range. *)
Definition to_int (z : Z) : Z := (z + 2 ^ 31) mod 2 ^ 32 - 2 ^ 31.

End MachInt.
Export MachInt.

(** ** Text: [atoi] and the [%06d] conversion *)

Module Text.

Definition is_space (c : ascii) : bool :=
  let n := nat_of_ascii c in
  ((n =? 32) || ((9 <=? n) && (n <=? 13)))%nat.

Definition digit_of (c : ascii) : option Z :=
  let n := Z.of_nat (nat_of_ascii c) in
  if (48 <=? n) && (n <=? 57) then Some (n - 48) else None.

Fixpoint skip_spaces (s : string) : string :=
  match s with
  | String c r => if is_space c then skip_spaces r else s
  | EmptyString => s
  end.

Fixpoint digits_value (acc : Z) (s : string) : Z :=
  match s with
  | String c r =>
      match digit_of c with
      | Some d => digits_value (10 * acc + d) r
      | None => acc
      end
  | EmptyString => acc
  end.

(** [atoi]: optional white space, optional sign, then the longest run of
    decimal digits (0 when there is none).  The C standard leaves the
    result undefined when the value is not an [int]: [None]. *)
Definition atoi (s : string) : option Z :=
  let v :=
    match skip_spaces s with
    | String c r =>
        if Ascii.eqb c "-" then - digits_value 0 r
        else if Ascii.eqb c "+" then digits_value 0 r
        else digits_value 0 (String c r)
    | EmptyString => 0
    end in
  int_checked v.

Definition digit_char (d : Z) : ascii := ascii_of_nat (Z.to_nat (48 + d mod 10)).

Fixpoint dec_go (fuel : nat) (n : Z) (acc : string) : string :=
  match fuel with
  | O => acc
  | S fuel' =>
      let acc' := String (digit_char n) acc in
      if n / 10 =? 0 then acc' else dec_go fuel' (n / 10) acc'
  end.

(** Decimal digits of a non-negative number (an [int] has at most 10). *)
Definition dec (n : Z) : string := dec_go 20 n EmptyString.

Fixpoint zeros (n : nat) : string :=
  match n with
  | O => EmptyString
  | S n' => String "0" (zeros n')
  end.

(** [printf]'s [%06d]: minimum width 6, padded with zeros after the
    sign. *)
Definition fmt_06d (n : Z) : string :=
  if n <? 0 then
    let d := dec (- n) in
    String "-" (zeros (5 - String.length d) ++ d)
  else
    let d := dec n in
    zeros (6 - String.length d) ++ d.

End Text.
Export Text.

(** ** Configuration: the head of [main] *)

Definition MAX_THREADS : Z := 10.

Record Config := {
  bind_to : string;
  message_size : Z;        (* size_t *)
  message_count : Z;       (* int *)
  disk_name : string;      (* the global [disk_name] *)
  no_threads : Z;          (* int *)
}.

Inductive Parsed :=
| Usage                    (* argc < 5: usage text, return 1 *)
| BadNumber                (* atoi on a value that is not an int *)
| Configured (c : Config).

(** [argv] is the whole vector, [argv[0]] included, so [argc] is its
    length. *)
Definition parse_args (argv : list string) : Parsed :=
  match argv with
  | _ :: a1 :: a2 :: a3 :: a4 :: rest =>
      match atoi a2, atoi a3 with
      | Some size, Some count =>
          let mk n := Configured
            {| bind_to := a1; message_size := to_ulong size;
               message_count := count; disk_name := a4; no_threads := n |} in
          match rest with
          | [] => mk 1
          | a5 :: _ =>
              match atoi a5 with
              | Some n => mk (if n >? MAX_THREADS then MAX_THREADS else n)
              | None => BadNumber
              end
          end
      | _, _ => BadNumber
      end
  | _ => Usage
  end.

(** ** [double]: IEEE 754 binary64 *)

Module Double.

Definition prec : Z := 53.
Definition emax : Z := 1024.

(** [(double) z] for an [int] or an [unsigned long]: round to nearest,
    ties to even. *)
Definition of_Z (z : Z) : spec_float := binary_normalize prec emax z 0 false.

Definition div : spec_float -> spec_float -> spec_float := SFdiv prec emax.
Definition mul : spec_float -> spec_float -> spec_float := SFmul prec emax.

Definition is_zero (x : spec_float) : bool :=
  match x with S754_zero _ => true | _ => false end.

(** The integer part of a finite double (truncation toward zero). *)
Definition trunc (x : spec_float) : option Z :=
  match x with
  | S754_zero _ => Some 0
  | S754_finite s m e =>
      let a := Z.shiftl (Zpos m) e in
      Some (if s then - a else a)
  | S754_infinity _ | S754_nan => None
  end.

(** [(unsigned long) x]: the fractional part is discarded; undefined when
    the truncated value is not an [unsigned long]. *)
Definition to_unsigned_long (x : spec_float) : option Z :=
  match trunc x with
  | Some v => if (0 <=? v) && (v <? ULONG_MOD) then Some v else None
  | None => None
  end.

(** The exact value of a finite double, as a rational. *)
Definition to_Q (x : spec_float) : option Q :=
  match x with
  | S754_zero _ => Some 0%Q
  | S754_finite s m e =>
      let a := if 0 <=? e then inject_Z (Zpos m * 2 ^ e)
               else Qmake (Zpos m) (2 ^ Z.to_pos (- e)) in
      Some (if s then (- a)%Q else a)
  | S754_infinity _ | S754_nan => None
  end.

(** [printf]'s [%.3f] on a finite double: the exact value rounded to a
    whole number of thousandths, ties to even. *)
Definition thousandths (x : spec_float) : option Z :=
  match x with
  | S754_zero _ => Some 0
  | S754_finite s m e =>
      let n := Zpos m * 1000 in
      let q :=
        if 0 <=? e then n * 2 ^ e
        else
          let d := 2 ^ (- e) in
          let q0 := n / d in
          let r := n mod d in
          match 2 * r ?= d with
          | Lt => q0
          | Gt => q0 + 1
          | Eq => if Z.even q0 then q0 else q0 + 1
          end in
      Some (if s then - q else q)
  | S754_infinity _ | S754_nan => None
  end.

Definition fmt_3f (x : spec_float) : string :=
  match x, thousandths x with
  | S754_nan, _ => "nan"
  | S754_infinity s, _ => if s then "-inf" else "inf"
  | (S754_zero s | S754_finite s _ _), Some q =>
      let a := Z.abs q in
      let frac := dec (a mod 1000) in
      ((if s then "-" else "") ++ dec (a / 1000) ++ "." ++
       zeros (3 - String.length frac) ++ frac)%string
  | _, None => ""
  end.

End Double.

(** ** The figures of a report (lines 206-209 and 229-232) *)

(** [(unsigned long) ((double) count / (double) elapsed * 1000000)] *)
Definition throughput_of (count elapsed : Z) : option Z :=
  Double.to_unsigned_long
    (Double.mul (Double.div (Double.of_Z count) (Double.of_Z elapsed))
                (Double.of_Z 1000000)).

(** [(double) (throughput * message_size) / 1000000]; the product is an
    [unsigned long] product. *)
Definition megabytes_of (throughput message_size : Z) : spec_float :=
  Double.div (Double.of_Z (to_ulong (throughput * message_size)))
             (Double.of_Z 1000000).

(** [(double) (throughput * message_size * 8) / 1000000] *)
Definition megabits_of (throughput message_size : Z) : spec_float :=
  Double.div (Double.of_Z (to_ulong (throughput * message_size * 8)))
             (Double.of_Z 1000000).

(** Lines 220-221: [if (elapsed == 0) elapsed = 1;] *)
Definition clamp_elapsed (elapsed : Z) : Z :=
  if elapsed =? 0 then 1 else elapsed.

(** What the spec writes for the throughput, in exact arithmetic:
    [round (count / elapsed_microseconds * 1_000_000)], the nearest whole
    number (halves upward). *)
Definition spec_throughput (count elapsed : Z) : Z :=
  (2 * count * 1000000 + elapsed) / (2 * elapsed).

(** ** Messages *)

(** The payload of a [zmq_msg_t]. *)
Abbreviation bytes := (list Byte.byte).

Definition byte_val (b : Byte.byte) : Z := Z.of_N (Byte.to_N b).

(** [*(int* ) zmq_msg_data (&msg)]: the first four bytes as a native
    (little-endian, two's complement) [int]; reading past a shorter
    payload is undefined. *)
Definition read_int (data : bytes) : option Z :=
  match data with
  | b0 :: b1 :: b2 :: b3 :: _ =>
      Some (to_int (byte_val b0 + 2 ^ 8 * byte_val b1 +
                    2 ^ 16 * byte_val b2 + 2 ^ 24 * byte_val b3))
  | _ => None
  end.

Definition byte_of (z : Z) : Byte.byte :=
  match Byte.of_N (Z.to_N (z mod 256)) with
  | Some b => b
  | None => Byte.x00
  end.

(** What the sender puts in front of a payload: the four bytes of an
    [int], least significant first. *)
Definition int_bytes (z : Z) : bytes :=
  [byte_of z; byte_of (z / 2 ^ 8); byte_of (z / 2 ^ 16); byte_of (z / 2 ^ 24)].

(** ** [file_writer] (lines 61-79) *)

Module Writer.

(** The files of the disk: name to contents. *)
Abbreviation files := (gmap string bytes).

(** What a writer thread does that others can see. *)
Inductive Effect :=
| Fopen (fn : string)                 (* fopen (fn, "wc") succeeded *)
| FopenFailed (fn : string)           (* fopen returned NULL, message printed *)
| Fwrite (fn : string) (data : bytes) (* fwrite of the whole payload *)
| Fclose (fn : string)
| MsgClose                            (* zmq_msg_close (msg) *)
| Free.                               (* free (msg) *)

(** Where a writer thread stands. *)
Inductive Pc :=
| AtEntry                     (* created, nothing executed yet *)
| Opened (fn : string)        (* line 73: the file is open *)
| Releasing                   (* line 76: about to close and free msg *)
| Finished (released : bool)  (* returned; [released]: msg was closed and freed *)
| Overrun.                    (* sprintf wrote past fn[1024] *)

(** Line 67: [sprintf (fn, "%s/data/test%06d.dat", disk_name, thread_ctr)]
    with the value the global [thread_ctr] has when the line runs. *)
Definition file_name (disk_name : string) (thread_ctr : Z) : string :=
  (disk_name ++ "/data/test" ++ fmt_06d thread_ctr ++ ".dat")%string.

Definition is_filesystem_effect (e : Effect) : bool :=
  match e with
  | Fopen _ | FopenFailed _ | Fwrite _ _ | Fclose _ => true
  | MsgClose | Free => false
  end.

(** [fwrite] then [fclose] through a stream of one's own: the payload
    goes to the file from offset 0 on, over what is there; the file is
    not emptied, so what it holds beyond the payload stays. *)
Definition write_at_start (msg old : bytes) : bytes :=
  msg ++ drop (length msg) old.

Section Step.
(** The globals, and whether the disk lets a file be opened. *)
Variable disk_name : string.
Variable can_open : string -> bool.

(** One scheduling step of a writer thread.  [thread_ctr] is the
    current value of the global; only the first step reads it.
    [fopen] with mode "w" creates or empties the file; the payload is
    buffered by [fwrite] and reaches the file, in one piece, at
    [fclose]. *)
Definition step (thread_ctr : Z) (msg : bytes) (pc : Pc) (fs : files)
  : option (Pc * files * list Effect) :=
  match pc with
  | AtEntry =>
      if negb (String.eqb disk_name "/network") then
        let fn := file_name disk_name thread_ctr in
        if (1024 <=? String.length fn)%nat then Some (Overrun, fs, [])
        else if can_open fn then Some (Opened fn, <[fn := []]> fs, [Fopen fn])
        else Some (Finished false, fs, [FopenFailed fn])
      else Some (Releasing, fs, [])
  | Opened fn =>
      Some (Releasing, <[fn := write_at_start msg (default [] (fs !! fn))]> fs,
            [Fwrite fn msg; Fclose fn])
  | Releasing => Some (Finished true, fs, [MsgClose; Free])
  | Finished _ | Overrun => None
  end.

(** A writer thread run from entry to return with nothing else
    scheduled in between: the function [file_writer] itself. *)
Fixpoint run (fuel : nat) (thread_ctr : Z) (msg : bytes) (pc : Pc) (fs : files)
  : Pc * files * list Effect :=
  match fuel with
  | O => (pc, fs, [])
  | S fuel' =>
      match step thread_ctr msg pc fs with
      | None => (pc, fs, [])
      | Some (pc', fs', out) =>
          let '(pc'', fs'', out') := run fuel' thread_ctr msg pc' fs' in
          (pc'', fs'', out ++ out')
      end
  end.

Definition file_writer (thread_ctr : Z) (msg : bytes) (fs : files)
  : Pc * files * list Effect :=
  run 3 thread_ctr msg AtEntry fs.
End Step.

End Writer.

(** ** [main] (lines 89-253) *)

Module Orchestrator.

(** The answers of the environment.  Calls made inside the loop are
    indexed by the loop variable [i] of the iteration that makes them.
    [pthread_create] is taken to succeed; the thread id it stores is the
    environment's choice. *)
Record Env := {
  hostname : string;
  zmq_init_ok : bool;
  zmq_socket_ok : bool;
  zmq_bind_rc : Z;
  zmq_msg_init_rc : Z;
  first_msg : option bytes;        (* line 153; [None]: rc < 0 *)
  loop_msg : Z -> option bytes;    (* line 176; [None]: rc < 0 *)
  new_thread : Z -> Z;             (* the pthread_t stored at line 201 *)
  lap_1000 : Z -> Z;               (* zmq_stopwatch_stop (watch_1000) *)
  lap_total : Z;                   (* zmq_stopwatch_stop (watch) *)
  zmq_msg_close_rc : Z;
  zmq_close_rc : Z;
  zmq_term_rc : Z;
}.

(** Lines written to standard output. *)
Inductive Output :=
| PUsage
| PHeader (host disk bind size count : string) (threads : Z)
| PError (call : string)
| PBadSize (size : Z)
| PHeading
| PCorrupt (previous current : Z)
| PInterval (throughput : Z) (megabytes megabits : spec_float)
| PSummary (size count throughput : Z) (megabytes megabits : spec_float).

(** What [main] does that the rest of the system can see, in program
    order. *)
Inductive Action :=
| Print (o : Output)
| Join (slot : nat) (tid : Z)                  (* pthread_join *)
| Create (slot : nat) (tid : Z) (msg : bytes)  (* pthread_create *)
| SetCtr (v : Z).                              (* thread_ctr++ stored v *)

Record Main := {
  i : Z;
  msg_counter : Z;
  thread_ctr : Z;
  file_writer_thread : list Z;
  trace : list Action;
}.

Inductive Result (A : Type) :=
| Next (a : A) (s : Main)
| Return (rc : Z) (s : Main)     (* a return statement of main *)
| Undefined (s : Main).          (* undefined behaviour *)
Arguments Next {A}.
Arguments Return {A}.
Arguments Undefined {A}.

Definition M (A : Type) : Type := Main -> Result A.

Definition ret {A} (a : A) : M A := fun s => Next a s.

Definition bind {A B} (m : M A) (k : A -> M B) : M B :=
  fun s =>
    match m s with
    | Next a s' => k a s'
    | Return rc s' => Return rc s'
    | Undefined s' => Undefined s'
    end.

Declare Scope main_scope.
Delimit Scope main_scope with main.
Bind Scope main_scope with M.
Notation "x <- m ;; k" := (bind m (fun x => k))
  (at level 100, m at next level, k at level 200, right associativity)
  : main_scope.
Notation "m ;; k" := (bind m (fun _ => k))
  (at level 100, k at level 200, right associativity) : main_scope.
Local Open Scope main_scope.

Definition get : M Main := fun s => Next s s.
Definition emit (a : Action) : M unit :=
  fun s => Next tt {| i := i s; msg_counter := msg_counter s;
                      thread_ctr := thread_ctr s;
                      file_writer_thread := file_writer_thread s;
                      trace := trace s ++ [a] |}.
Definition print (o : Output) : M unit := emit (Print o).
Definition return_ {A} (rc : Z) : M A := fun s => Return rc s.
Definition undefined {A} : M A := fun s => Undefined s.

(** The state a computation stops in, however it stops. *)
Definition state_of {A} (r : Result A) : Main :=
  match r with Next _ s | Return _ s | Undefined s => s end.

(** An operation whose result may be undefined. *)
Definition defined {A} (o : option A) : M A :=
  match o with Some a => ret a | None => undefined end.
Definition when (b : bool) (m : M unit) : M unit := if b then m else ret tt.

Definition set_i (v : Z) : M unit :=
  fun s => Next tt {| i := v; msg_counter := msg_counter s;
                      thread_ctr := thread_ctr s;
                      file_writer_thread := file_writer_thread s;
                      trace := trace s |}.
Definition set_msg_counter (v : Z) : M unit :=
  fun s => Next tt {| i := i s; msg_counter := v;
                      thread_ctr := thread_ctr s;
                      file_writer_thread := file_writer_thread s;
                      trace := trace s |}.
Definition set_thread_ctr (v : Z) : M unit :=
  fun s => Next tt {| i := i s; msg_counter := msg_counter s;
                      thread_ctr := v;
                      file_writer_thread := file_writer_thread s;
                      trace := trace s |}.
Definition set_slot (slot : nat) (tid : Z) : M unit :=
  fun s => Next tt {| i := i s; msg_counter := msg_counter s;
                      thread_ctr := thread_ctr s;
                      file_writer_thread := <[slot := tid]> (file_writer_thread s);
                      trace := trace s |}.

(** [rc = zmq_recvmsg (s, &msg, 0); if (rc < 0) { printf; return -1; }]
    then the size test, whose [return -1] is commented out. *)
Definition recvmsg (cfg : Config) (answer : option bytes) : M bytes :=
  match answer with
  | None => print (PError "zmq_recvmsg") ;; return_ (-1)
  | Some msg =>
      let size := Z.of_nat (length msg) in
      when (negb (size =? message_size cfg)) (print (PBadSize (to_int size))) ;;
      ret msg
  end.

(** [file_writer_thread[i % no_threads]]: the index must be defined and
    inside the array of [MAX_THREADS] elements. *)
Definition slot_of (cfg : Config) (i : Z) : option nat :=
  match int_rem i (no_threads cfg) with
  | Some r => if (0 <=? r) && (r <? MAX_THREADS) then Some (Z.to_nat r) else None
  | None => None
  end.

(** Line 188, the integrity check: are the two counters consecutive?
    The subtraction is an [int] subtraction. *)
Definition check (previous_counter current_counter : Z) : option bool :=
  match int_sub current_counter previous_counter with
  | Some diff => Some (diff =? 1)
  | None => None
  end.

(** Lines 204-215. *)
Definition interval_report (cfg : Config) (env : Env) (i : Z) : M unit :=
  when ((i >? 0) && (Z.rem i 1000 =? 0))
    (let elapsed := lap_1000 env i in
     throughput <- defined (throughput_of 1000 elapsed) ;;
     print (PInterval (to_int throughput)
                      (megabytes_of throughput (message_size cfg))
                      (megabits_of throughput (message_size cfg)))).

(** Lines 176-192: the next message, the size test and the integrity
    check. *)
Definition receive (cfg : Config) (env : Env) : M bytes :=
  s <- get ;;
  msg <- recvmsg cfg (loop_msg env (i s)) ;;
  new_msg_counter <- defined (read_int msg) ;;
  ok <- defined (check (msg_counter s) new_msg_counter) ;;
  when (negb ok) (print (PCorrupt (msg_counter s) new_msg_counter)) ;;
  set_msg_counter new_msg_counter ;;
  ret msg.

(** Lines 193-202: the message is moved to [msg_copy] and handed to a new
    writer thread in slot [i % no_threads], after a join on the thread
    whose id the slot holds, when it holds one. *)
Definition dispatch (cfg : Config) (env : Env) (msg : bytes) : M unit :=
  s <- get ;;
  slot <- defined (slot_of cfg (i s)) ;;
  tid <- defined (file_writer_thread s !! slot) ;;
  when (negb (tid =? 0)) (emit (Join slot tid)) ;;
  emit (Create slot (new_thread env (i s)) msg) ;;
  set_slot slot (new_thread env (i s)).

(** Line 203: [thread_ctr++]. *)
Definition count_thread : M unit :=
  s <- get ;;
  ctr <- defined (int_add (thread_ctr s) 1) ;;
  set_thread_ctr ctr ;;
  emit (SetCtr ctr).

(** The body of the [for] loop, lines 175-215. *)
Definition iteration (cfg : Config) (env : Env) : M unit :=
  msg <- receive cfg env ;;
  dispatch cfg env msg ;;
  count_thread ;;
  s <- get ;;
  interval_report cfg env (i s).

(** The [i++] of the loop header. *)
Definition next_i : M unit :=
  s <- get ;;
  i' <- defined (int_add (i s) 1) ;;
  set_i i'.

(** How a run of the loop ends. *)
Inductive Loop :=
| Exited (s : Main)               (* the loop condition was false *)
| Returned (rc : Z) (s : Main)    (* return from inside the loop *)
| Undef (s : Main)                (* undefined behaviour *)
| Running (s : Main).             (* still looping when the fuel ran out *)

(** [for (i = 0; i != message_count - 1; i++)], from the state [s]
    reached just before the condition is tested. *)
Fixpoint recv_loop (fuel : nat) (cfg : Config) (env : Env) (s : Main) : Loop :=
  match int_sub (message_count cfg) 1 with
  | None => Undef s
  | Some last =>
      if i s =? last then Exited s
      else
        match fuel with
        | O => Running s
        | S fuel' =>
            match (iteration cfg env ;; next_i) s with
            | Next _ s' => recv_loop fuel' cfg env s'
            | Return rc s' => Returned rc s'
            | Undefined s' => Undef s'
            end
        end
  end.

(** Lines 122-171: header, socket set-up, first message, timers, the
    thread array set to zero. *)
Definition setup (argv : list string) (cfg : Config) (env : Env) : M unit :=
  print (PHeader (hostname env) (disk_name cfg) (bind_to cfg)
                 (nth 2 argv "") (nth 3 argv "") (no_threads cfg)) ;;
  when (negb (zmq_init_ok env)) (print (PError "zmq_init") ;; return_ (-1)) ;;
  when (negb (zmq_socket_ok env)) (print (PError "zmq_socket") ;; return_ (-1)) ;;
  when (negb (zmq_bind_rc env =? 0)) (print (PError "zmq_bind") ;; return_ (-1)) ;;
  when (negb (zmq_msg_init_rc env =? 0))
       (print (PError "zmq_msg_init") ;; return_ (-1)) ;;
  msg <- recvmsg cfg (first_msg env) ;;
  counter <- defined (read_int msg) ;;
  set_msg_counter counter ;;
  print PHeading.

(** Lines 219-252. *)
Definition finish (cfg : Config) (env : Env) : M unit :=
  let elapsed := clamp_elapsed (lap_total env) in
  when (negb (zmq_msg_close_rc env =? 0))
       (print (PError "zmq_msg_close") ;; return_ (-1)) ;;
  throughput <- defined (throughput_of (message_count cfg) elapsed) ;;
  print (PSummary (to_int (message_size cfg)) (message_count cfg)
                  (to_int throughput)
                  (megabytes_of throughput (message_size cfg))
                  (megabits_of throughput (message_size cfg))) ;;
  when (negb (zmq_close_rc env =? 0)) (print (PError "zmq_close") ;; return_ (-1)) ;;
  when (negb (zmq_term_rc env =? 0)) (print (PError "zmq_term") ;; return_ (-1)) ;;
  return_ 0.

(** The same environment with another reading of the stopwatch of the
    whole run. *)
Definition with_lap_total (env : Env) (elapsed : Z) : Env :=
  {| hostname := hostname env;
     zmq_init_ok := zmq_init_ok env; zmq_socket_ok := zmq_socket_ok env;
     zmq_bind_rc := zmq_bind_rc env; zmq_msg_init_rc := zmq_msg_init_rc env;
     first_msg := first_msg env; loop_msg := loop_msg env;
     new_thread := new_thread env; lap_1000 := lap_1000 env;
     lap_total := elapsed;
     zmq_msg_close_rc := zmq_msg_close_rc env; zmq_close_rc := zmq_close_rc env;
     zmq_term_rc := zmq_term_rc env |}.

Definition start : Main :=
  {| i := 0; msg_counter := 0; thread_ctr := 0;
     file_writer_thread := replicate (Z.to_nat MAX_THREADS) 0; trace := [] |}.

(** How [main] ends. *)
Inductive Outcome :=
| Exit (rc : Z) (s : Main)
| Crash (s : Main)
| Unfinished (s : Main).

Definition main (fuel : nat) (env : Env) (argv : list string) : Outcome :=
  match parse_args argv with
  | Usage =>
      match print PUsage start with
      | Next _ s | Return _ s | Undefined s => Exit 1 s
      end
  | BadNumber => Crash start
  | Configured cfg =>
      match setup argv cfg env start with
      | Next _ s =>
          match recv_loop fuel cfg env s with
          | Exited s' =>
              match finish cfg env s' with
              | Return rc s'' => Exit rc s''
              | Next _ s'' | Undefined s'' => Crash s''
              end
          | Returned rc s' => Exit rc s'
          | Undef s' => Crash s'
          | Running s' => Unfinished s'
          end
      | Return rc s => Exit rc s
      | Undefined s => Crash s
      end
  end.

End Orchestrator.

(** ** The loop where [int] arithmetic wraps around *)

(** The C++ standard leaves the overflow of [thread_ctr++], [i++] and
    of the subtractions undefined, and [Orchestrator] stops there.  A
    build in which [int] arithmetic wraps around (two's complement, as
    with [-fwrapv] or without optimisation) goes on: this module is the
    same loop with the sums and differences reduced into the [int]
    range.  Everything else is [Orchestrator]'s. *)
Module Wrapped.

Import Orchestrator.
Local Open Scope main_scope.

Definition wrapping_add (a b : Z) : Z := to_int (a + b).
Definition wrapping_sub (a b : Z) : Z := to_int (a - b).

(** Lines 176-192. *)
Definition receive (cfg : Config) (env : Env) : M bytes :=
  s <- get ;;
  msg <- recvmsg cfg (loop_msg env (i s)) ;;
  new_msg_counter <- defined (read_int msg) ;;
  when (negb (wrapping_sub new_msg_counter (msg_counter s) =? 1))
       (print (PCorrupt (msg_counter s) new_msg_counter)) ;;
  set_msg_counter new_msg_counter ;;
  ret msg.

(** Line 203: [thread_ctr++]. *)
Definition count_thread : M unit :=
  s <- get ;;
  set_thread_ctr (wrapping_add (thread_ctr s) 1) ;;
  emit (SetCtr (wrapping_add (thread_ctr s) 1)).

(** The body of the [for] loop, lines 175-215. *)
Definition iteration (cfg : Config) (env : Env) : M unit :=
  msg <- receive cfg env ;;
  dispatch cfg env msg ;;
  count_thread ;;
  s <- get ;;
  interval_report cfg env (i s).

(** The [i++] of the loop header. *)
Definition next_i : M unit :=
  s <- get ;;
  set_i (wrapping_add (i s) 1).

(** [for (i = 0; i != message_count - 1; i++)] *)
Fixpoint recv_loop (fuel : nat) (cfg : Config) (env : Env) (s : Main) : Loop :=
  if i s =? wrapping_sub (message_count cfg) 1 then Exited s
  else
    match fuel with
    | O => Running s
    | S fuel' =>
        match (iteration cfg env ;; next_i) s with
        | Next _ s' => recv_loop fuel' cfg env s'
        | Return rc s' => Returned rc s'
        | Undefined s' => Undef s'
        end
    end.

Definition main (fuel : nat) (env : Env) (argv : list string) : Outcome :=
  match parse_args argv with
  | Usage =>
      match print PUsage start with
      | Next _ s | Return _ s | Undefined s => Exit 1 s
      end
  | BadNumber => Crash start
  | Configured cfg =>
      match setup argv cfg env start with
      | Next _ s =>
          match recv_loop fuel cfg env s with
          | Exited s' =>
              match finish cfg env s' with
              | Return rc s'' => Exit rc s''
              | Next _ s'' | Undefined s'' => Crash s''
              end
          | Returned rc s' => Exit rc s'
          | Undef s' => Crash s'
          | Running s' => Unfinished s'
          end
      | Return rc s => Exit rc s
      | Undefined s => Crash s
      end
  end.

End Wrapped.

(** ** The threads together *)

Module System.

Import Orchestrator.

(** The scheduler.  A step of [main] is one recorded action; a step of
    a writer thread is one step of [Writer.step].  The id a slot holds
    stands for the thread last created into that slot. *)

(** A writer thread: the slot of [file_writer_thread] it was created
    into, the message it owns, where it stands, and whether
    [pthread_join] has returned for it. *)
Record Thread := {
  t_slot : nat;
  t_msg : bytes;
  t_pc : Writer.Pc;
  t_joined : bool;
}.

(** What happened, in the order it happened.  Threads are numbered in
    the order of their creation (the dispatch order), from 0. *)
Inductive Event :=
| Said (o : Output)
| Dispatched (k : nat) (slot : nat)
| Joined (k : nat)
| Counted (v : Z)
| Did (k : nat) (e : Writer.Effect).

Record Sys := {
  todo : list Action;        (* what main has still to do *)
  g_thread_ctr : Z;          (* the global thread_ctr *)
  threads : list Thread;
  occupant : gmap nat nat;   (* the thread whose id a slot holds *)
  disk : Writer.files;
  log : list Event;
}.

Inductive Choice :=
| RunMain
| RunWriter (k : nat).

Definition finished (pc : Writer.Pc) : bool :=
  match pc with Writer.Finished _ => true | _ => false end.

Definition boot (program : list Action) : Sys :=
  {| todo := program; g_thread_ctr := 0; threads := []; occupant := ∅;
     disk := ∅; log := [] |}.

Definition join_thread (t : Thread) : Thread :=
  {| t_slot := t_slot t; t_msg := t_msg t; t_pc := t_pc t; t_joined := true |}.

Definition move_thread (pc : Writer.Pc) (t : Thread) : Thread :=
  {| t_slot := t_slot t; t_msg := t_msg t; t_pc := pc; t_joined := t_joined t |}.

(** The next action of [main].  [pthread_join] returns only once the
    thread has returned from [file_writer]; until then [main] cannot
    move. *)
Definition main_step (s : Sys) : option Sys :=
  match todo s with
  | [] => None
  | Print o :: rest =>
      Some {| todo := rest; g_thread_ctr := g_thread_ctr s;
              threads := threads s; occupant := occupant s;
              disk := disk s; log := log s ++ [Said o] |}
  | SetCtr v :: rest =>
      Some {| todo := rest; g_thread_ctr := v;
              threads := threads s; occupant := occupant s;
              disk := disk s; log := log s ++ [Counted v] |}
  | Create slot _ msg :: rest =>
      let k := length (threads s) in
      Some {| todo := rest; g_thread_ctr := g_thread_ctr s;
              threads := threads s ++
                [{| t_slot := slot; t_msg := msg; t_pc := Writer.AtEntry;
                    t_joined := false |}];
              occupant := <[slot := k]> (occupant s);
              disk := disk s; log := log s ++ [Dispatched k slot] |}
  | Join slot _ :: rest =>
      match occupant s !! slot with
      | Some k =>
          match threads s !! k with
          | Some t =>
              if finished (t_pc t) && negb (t_joined t) then
                Some {| todo := rest; g_thread_ctr := g_thread_ctr s;
                        threads := <[k := join_thread t]> (threads s);
                        occupant := occupant s;
                        disk := disk s; log := log s ++ [Joined k] |}
              else None
          | None => None
          end
      | None => None
      end
  end.

Section Run.
Variable disk_name : string.
Variable can_open : string -> bool.

Definition writer_step (k : nat) (s : Sys) : option Sys :=
  match threads s !! k with
  | Some t =>
      match Writer.step disk_name can_open (g_thread_ctr s) (t_msg t)
                        (t_pc t) (disk s) with
      | Some (pc', disk', effects) =>
          Some {| todo := todo s; g_thread_ctr := g_thread_ctr s;
                  threads := <[k := move_thread pc' t]> (threads s);
                  occupant := occupant s;
                  disk := disk'; log := log s ++ (Did k <$> effects) |}
      | None => None
      end
  | None => None
  end.

Definition step (c : Choice) (s : Sys) : option Sys :=
  match c with
  | RunMain => main_step s
  | RunWriter k => writer_step k s
  end.

(** Run a schedule; a choice that cannot move is skipped. *)
Fixpoint run (schedule : list Choice) (s : Sys) : Sys :=
  match schedule with
  | [] => s
  | c :: rest =>
      match step c s with
      | Some s' => run rest s'
      | None => run rest s
      end
  end.
End Run.

(** The exit code of a run of [main] that returned. *)
Definition exit_code (o : Outcome) : option Z :=
  match o with
  | Exit rc _ => Some rc
  | Crash _ | Unfinished _ => None
  end.

(** The actions of a run of [main], whatever its end. *)
Definition actions_of (o : Outcome) : list Action :=
  match o with
  | Exit _ s | Crash s | Unfinished s => trace s
  end.

(** The value of the global [disk_name] in a run started with [argv]. *)
Definition disk_of (argv : list string) : string :=
  match parse_args argv with
  | Configured cfg => disk_name cfg
  | _ => ""
  end.

(** The whole program: [main] on [argv] in the environment [env], with
    the writer threads it creates, under a schedule. *)
Definition execute (fuel : nat) (env : Env) (can_open : string -> bool)
    (argv : list string) (schedule : list Choice) : Sys :=
  run (disk_of argv) can_open schedule (boot (actions_of (main fuel env argv))).

End System.

(** ** Sample runs *)

Module Sample.

Import Orchestrator System.

(** An environment in which every call succeeds: the messages carry the
    given counters (the first one is the message of line 153), thread
    ids are 100, 101, ..., a lap of 1000 messages takes half a second,
    and the stopwatch of the whole run reads [total]. *)
Definition env_of (counters : list Z) (total : Z) : Env :=
  {| hostname := "host";
     zmq_init_ok := true; zmq_socket_ok := true;
     zmq_bind_rc := 0; zmq_msg_init_rc := 0;
     first_msg := int_bytes <$> (counters !! 0%nat);
     loop_msg := fun i => int_bytes <$> (counters !! Z.to_nat (i + 1));
     new_thread := fun i => 100 + Z.abs i;
     lap_1000 := fun _ => 500000;
     lap_total := total;
     zmq_msg_close_rc := 0; zmq_close_rc := 0; zmq_term_rc := 0 |}.

(** [local_thr tcp://*:5555 4 <count> <disk> [threads]] *)
Definition argv_of (count disk : string) (threads : list string) : list string :=
  ["local_thr"; "tcp://*:5555"; "4"; count; disk] ++ threads.

(** Five messages with the counters 0 to 4, two writer threads. *)
Definition argv5 : list string := argv_of "5" "/mnt" ["2"].
Definition env5 : Env := env_of [0; 1; 2; 3; 4] 7.
Definition cfg5 : Config :=
  {| bind_to := "tcp://*:5555"; message_size := 4; message_count := 5;
     disk_name := "/mnt"; no_threads := 2 |}.

(** The state in which that run enters the loop. *)
Definition entry5 : Main := state_of (setup argv5 cfg5 env5 start).

(** A long run: messages of 100 bytes with consecutive counters, as
    many as are asked for; every lap of 1000 messages takes half a
    second and the whole run 500500 microseconds. *)
Definition payload (counter : Z) : bytes := int_bytes counter ++ replicate 96 Byte.x00.

Definition env_lap : Env :=
  {| hostname := "host";
     zmq_init_ok := true; zmq_socket_ok := true;
     zmq_bind_rc := 0; zmq_msg_init_rc := 0;
     first_msg := Some (payload 0);
     loop_msg := fun i => Some (payload (i + 1));
     new_thread := fun i => 100 + Z.abs i;
     lap_1000 := fun _ => 500000;
     lap_total := 500500;
     zmq_msg_close_rc := 0; zmq_close_rc := 0; zmq_term_rc := 0 |}.

Definition argv_lap : list string :=
  ["local_thr"; "tcp://*:5555"; "100"; "1002"; "/network"].

(** The sender of [env_lap] never stops, and the program is asked for
    0 messages, of 100 bytes, with the one writer thread there is by
    default. *)
Definition argv0 : list string :=
  ["local_thr"; "tcp://*:5555"; "100"; "0"; "/network"].
Definition cfg0 : Config :=
  {| bind_to := "tcp://*:5555"; message_size := 100; message_count := 0;
     disk_name := "/network"; no_threads := 1 |}.

(** The state in which that run enters the loop. *)
Definition entry0 : Main := state_of (setup argv0 cfg0 env_lap start).

(** As [env_lap], with a stopwatch of the intervals that reads 0. *)
Definition env_still : Env :=
  {| hostname := "host";
     zmq_init_ok := true; zmq_socket_ok := true;
     zmq_bind_rc := 0; zmq_msg_init_rc := 0;
     first_msg := Some (payload 0);
     loop_msg := fun i => Some (payload (i + 1));
     new_thread := fun i => 100 + Z.abs i;
     lap_1000 := fun _ => 0;
     lap_total := 500500;
     zmq_msg_close_rc := 0; zmq_close_rc := 0; zmq_term_rc := 0 |}.

(** The state in which turn 1000 of a run with ten writer threads
    begins. *)
Definition turn_1000 : Main :=
  {| i := 1000; msg_counter := 1000; thread_ctr := 1000;
     file_writer_thread := replicate (Z.to_nat MAX_THREADS) 7; trace := [] |}.

(** The figures of the reports among some actions, as printed:
    throughput with [%d], megabytes and megabits with [%.3f]. *)
Definition figures (actions : list Action) : list (Z * string * string) :=
  flat_map (fun a =>
    match a with
    | Print (PInterval t mb mbit) | Print (PSummary _ _ t mb mbit) =>
        [(t, Double.fmt_3f mb, Double.fmt_3f mbit)]
    | _ => []
    end) actions.

(** A schedule for a run with two dispatches into one slot: the first
    writer thread runs only after [main] has moved past [thread_ctr++],
    the second as soon as it is created. *)
Definition late_writers : list Choice :=
  [RunMain; RunMain; RunMain; RunMain;
   RunWriter 0%nat; RunWriter 0%nat; RunWriter 0%nat;
   RunMain; RunMain;
   RunWriter 1%nat; RunWriter 1%nat; RunWriter 1%nat;
   RunMain; RunMain].

End Sample.

(** ** Predicates used in the statements *)

Module Pred.

Import Orchestrator System.

(** A log entry that is not a file operation. *)
Definition off_disk (ev : Event) : bool :=
  match ev with
  | Did _ e => negb (Writer.is_filesystem_effect e)
  | _ => true
  end.

(** A writer thread that has not opened a file and, if it has returned,
    has released its message. *)
Definition never_opened (t : Thread) : bool :=
  match t_pc t with
  | Writer.AtEntry | Writer.Releasing | Writer.Finished true => true
  | _ => false
  end.

(** Nothing has touched the disk. *)
Definition network_quiet (s : Sys) : Prop :=
  disk s = ∅ /\
  Forall (fun ev => off_disk ev = true) (log s) /\
  Forall (fun t => never_opened t = true) (threads s).

End Pred.

(** ** The join-before-reuse protocol on the actions of [main] *)

Module Protocol.

Import Orchestrator.

(** [held] is the set of slots whose thread has been created and not
    joined.  A [Join] needs its slot held and frees it; a [Create] needs
    its slot free and takes it. *)
Definition protocol_step (held : gset nat) (a : Action) : option (gset nat) :=
  match a with
  | Join slot _ => if decide (slot ∈ held) then Some (held ∖ {[slot]}) else None
  | Create slot _ _ => if decide (slot ∈ held) then None else Some (held ∪ {[slot]})
  | Print _ | SetCtr _ => Some held
  end.

Fixpoint protocol (held : gset nat) (actions : list Action) : option (gset nat) :=
  match actions with
  | [] => Some held
  | a :: rest =>
      match protocol_step held a with
      | Some held' => protocol held' rest
      | None => None
      end
  end.

Definition quiet (a : Action) : bool :=
  match a with Print _ | SetCtr _ => true | Join _ _ | Create _ _ _ => false end.

(** The array [file_writer_thread] agrees with the actions so far: a
    slot holds a non-zero id exactly when its thread is not joined. *)
Definition tidy (s : Main) : Prop :=
  length (file_writer_thread s) = Z.to_nat MAX_THREADS /\
  exists held,
    protocol ∅ (trace s) = Some held /\
    forall slot tid, file_writer_thread s !! slot = Some tid ->
                     (tid <> 0 <-> slot ∈ held).

(** [m] keeps [P], however it stops. *)
Definition preserves {A} (P : Main -> Prop) (m : M A) : Prop :=
  forall s, P s -> P (state_of (m s)).

(** The state a run of the loop stops in. *)
Definition loop_state (l : Loop) : Main :=
  match l with Exited s | Returned _ s | Undef s | Running s => s end.

Definition outcome_state (o : Outcome) : Main :=
  match o with Exit _ s | Crash s | Unfinished s => s end.

(** The number of [pthread_create] calls among some actions. *)
Definition is_create (a : Action) : bool :=
  match a with Create _ _ _ => true | _ => false end.

Definition dispatches (actions : list Action) : nat :=
  length (List.filter is_create actions).

End Protocol.

(** ** What holds of every state the threads can reach *)

Module Coherence.

Import Orchestrator System Protocol.

(** Positions in the log are moments in time. *)

(** Between two dispatches into one slot, the thread of the first has
    been joined. *)
Definition ordered (l : list Event) : Prop :=
  forall a b k k' slot,
    (a < b)%nat ->
    l !! a = Some (Dispatched k slot) ->
    l !! b = Some (Dispatched k' slot) ->
    exists j, (a < j < b)%nat /\ l !! j = Some (Joined k).

(** A thread is joined after it was dispatched. *)
Definition joined_later (l : list Event) : Prop :=
  forall a j k slot,
    l !! a = Some (Dispatched k slot) -> l !! j = Some (Joined k) -> (a < j)%nat.

(** A joined thread does nothing any more. *)
Definition silent_after_join (l : list Event) : Prop :=
  forall j n k e,
    l !! j = Some (Joined k) -> l !! n = Some (Did k e) -> (n < j)%nat.

Definition log_ok (l : list Event) : Prop :=
  ordered l /\ joined_later l /\ silent_after_join l.

(** [held] is the set of slots whose current thread is not joined. *)
Definition unjoined (s : Sys) (held : gset nat) : Prop :=
  forall slot,
    slot ∈ held <->
    exists k t, occupant s !! slot = Some k /\ threads s !! k = Some t /\
                t_joined t = false.

Record coherent (s : Sys) : Prop := {
  co_protocol : exists held, unjoined s held /\ is_Some (protocol held (todo s));
  co_occupant : forall slot k, occupant s !! slot = Some k ->
                  exists t, threads s !! k = Some t /\ t_slot t = slot;
  co_slot : forall k t, threads s !! k = Some t ->
              occupant s !! t_slot t = Some k \/ t_joined t = true;
  co_joined : forall k t, threads s !! k = Some t -> t_joined t = true ->
                finished (t_pc t) = true;
  co_dispatched : forall n k slot, log s !! n = Some (Dispatched k slot) ->
                    exists t, threads s !! k = Some t /\ t_slot t = slot;
  co_joined_log : forall k, (exists n, log s !! n = Some (Joined k)) <->
                    (exists t, threads s !! k = Some t /\ t_joined t = true);
  co_log : log_ok (log s);
}.

End Coherence.

(** ** One turn of the loop, spelled out *)

Module Turn.

Import Orchestrator.

Definition size_report (cfg : Config) (msg : bytes) : list Action :=
  if negb (Z.of_nat (length msg) =? message_size cfg)
  then [Print (PBadSize (to_int (Z.of_nat (length msg))))] else [].

Definition corrupt_report (ok : bool) (previous current : Z) : list Action :=
  if negb ok then [Print (PCorrupt previous current)] else [].

Definition join_action (slot : nat) (tid : Z) : list Action :=
  if negb (tid =? 0) then [Join slot tid] else [].

(** Line 204: [i > 0 && i % 1000 == 0]. *)
Definition is_lap (i : Z) : bool := (i >? 0) && (Z.rem i 1000 =? 0).

Definition lap_report (cfg : Config) (env : Env) (i : Z) : list Action :=
  if is_lap i then
    match throughput_of 1000 (lap_1000 env i) with
    | Some t => [Print (PInterval (to_int t) (megabytes_of t (message_size cfg))
                                  (megabits_of t (message_size cfg)))]
    | None => []
    end
  else [].

(** Nothing in the turn that starts in [s] is undefined and the message
    arrives. *)
Definition smooth (cfg : Config) (env : Env) (s : Main) : Prop :=
  exists msg c,
    loop_msg env (i s) = Some msg /\
    read_int msg = Some c /\
    in_int (c - msg_counter s) /\
    is_Some (slot_of cfg (i s)) /\
    length (file_writer_thread s) = Z.to_nat MAX_THREADS /\
    in_int (thread_ctr s + 1) /\
    in_int (i s + 1) /\
    (is_lap (i s) = true -> is_Some (throughput_of 1000 (lap_1000 env (i s)))).


End Turn.

(** ** A run in which every message arrives and nothing is undefined *)

Module Steady.

Import Orchestrator Turn.

(** The counter [msg_counter] holds when turn [i] starts: that of the
    first message ([first]) or of the message of the turn before. *)
Definition counter_before (env : Env) (first : Z) (i : Z) : Z :=
  if i =? 0 then first
  else match loop_msg env (i - 1) with
       | Some msg => default 0 (read_int msg)
       | None => 0
       end.

(** Every message of the loop arrives with at least four bytes, the
    difference of consecutive counters is an [int], and no lap of 1000
    messages has its throughput undefined (a lap of 0 microseconds
    does). *)
Definition steady (cfg : Config) (env : Env) (first : Z) : Prop :=
  forall i, 0 <= i < message_count cfg - 1 ->
    exists msg c,
      loop_msg env i = Some msg /\
      read_int msg = Some c /\
      in_int (c - counter_before env first i) /\
      (is_lap i = true -> is_Some (throughput_of 1000 (lap_1000 env i))).

(** The same of the turns below [bound], whatever [message_count]
    is. *)
Definition steady_below (bound : Z) (env : Env) (first : Z) : Prop :=
  forall i, 0 <= i < bound ->
    exists msg c,
      loop_msg env i = Some msg /\
      read_int msg = Some c /\
      in_int (c - counter_before env first i) /\
      (is_lap i = true -> is_Some (throughput_of 1000 (lap_1000 env i))).

(** The state [main] enters the loop in, as far as the loop depends on
    it. *)
Definition at_loop_entry (s : Main) : Prop :=
  i s = 0 /\ thread_ctr s = 0 /\
  length (file_writer_thread s) = Z.to_nat MAX_THREADS.

(** What holds each time the loop condition is tested, in a steady
    run. *)
Definition at_turn (env : Env) (first : Z) (s : Main) : Prop :=
  0 <= i s /\ thread_ctr s = i s /\
  msg_counter s = counter_before env first (i s) /\
  length (file_writer_thread s) = Z.to_nat MAX_THREADS.

Definition is_summary (a : Action) : bool :=
  match a with Print (PSummary _ _ _ _ _) => true | _ => false end.

(** The aggregate report has not been printed. *)
Definition no_summary (s : Main) : Prop :=
  Forall (fun a => is_summary a = false) (trace s).

(** Before the loop: nothing dispatched, nothing summed up. *)
Definition fresh (s : Main) : Prop :=
  at_loop_entry s /\ Protocol.dispatches (trace s) = 0%nat /\ no_summary s.

End Steady.

(** ** Counting and reading the actions of [main] *)

Module Tally.

Import Orchestrator System Protocol Coherence Steady.

Definition is_join (a : Action) : bool :=
  match a with Join _ _ => true | _ => false end.

(** The number of [pthread_join] calls among some actions. *)
Definition joins (actions : list Action) : nat :=
  length (List.filter is_join actions).

Definition is_lap_line (a : Action) : bool :=
  match a with Print (PInterval _ _ _) => true | _ => false end.

(** The number of interval lines among some actions. *)
Definition lap_lines (actions : list Action) : nat :=
  length (List.filter is_lap_line actions).

(** The slot and the message of every [pthread_create], in order. *)
Definition creations (actions : list Action) : list (nat * bytes) :=
  flat_map (fun a => match a with Create slot _ msg => [(slot, msg)] | _ => [] end)
           actions.

(** The threads created so far are those of the turns 0, 1, ... *)
Definition in_turn_order (cfg : Config) (env : Env) (tr : list Action) : Prop :=
  forall k slot msg,
    creations tr !! k = Some (slot, msg) ->
    slot_of cfg (Z.of_nat k) = Some slot /\ loop_msg env (Z.of_nat k) = Some msg.

(** What holds of the thread array and of the joins each time the loop
    condition is tested: the slots below [min (i, no_threads)] hold a
    thread id, the others 0, and every turn from turn [no_threads] on
    has joined one thread. *)
Definition at_tally (cfg : Config) (s : Main) : Prop :=
  0 <= i s /\
  (forall j v, file_writer_thread s !! j = Some v ->
               (v <> 0 <-> Z.of_nat j < i s /\ Z.of_nat j < no_threads cfg)) /\
  Z.of_nat (joins (trace s)) = Z.max 0 (i s - no_threads cfg).

(** The interval lines printed when the loop condition is tested: one
    for every turn so far whose index is a positive multiple of 1000. *)
Definition at_laps (s : Main) : Prop :=
  0 <= i s /\
  Z.of_nat (lap_lines (trace s)) = (if i s =? 0 then 0 else (i s - 1) / 1000).

(** Before the loop: the array is all zero, nothing joined, no interval
    line printed. *)
Definition pristine (s : Main) : Prop :=
  i s = 0 /\
  file_writer_thread s = replicate (Z.to_nat MAX_THREADS) 0 /\
  joins (trace s) = 0%nat /\ lap_lines (trace s) = 0%nat.




(** The threads created so far and those still to be created are the
    creations of the program, in its order. *)
Definition follows (program : list Action) (s : Sys) : Prop :=
  ((fun t => (t_slot t, t_msg t)) <$> threads s) ++ creations (todo s)
    = creations program.










(** The last thing [main] did was to print an error message. *)
Definition ended_with_error (s : Main) : Prop :=
  exists call, last (trace s) = Some (Print (PError call)).

(** What holds of the state of every [return] that [m] can make. *)
Definition returns {A} (Q : Z -> Main -> Prop) (m : M A) : Prop :=
  forall s rc s', m s = Return rc s' -> Q rc s'.

(** A [return -1] right after an error message. *)
Definition fails (rc : Z) (s : Main) : Prop := rc = -1 /\ ended_with_error s.

(** Threads created and not yet joined. *)
Definition unjoined_threads (s : Sys) : list Thread :=
  filter (fun t => t_joined t = false) (threads s).

(** Threads that have not returned from [file_writer]. *)
Definition running_threads (s : Sys) : list Thread :=
  filter (fun t => finished (t_pc t) = false) (threads s).

End Tally.

(** * Properties *)

Import Orchestrator System.

(** ** Machine integers *)

Lemma in_intb_spec z : in_intb z = true <-> in_int z.
Proof.
  unfold in_intb, in_int. rewrite andb_true_iff, !Z.leb_le. tauto.
Qed.

Lemma int_checked_Some z r : int_checked z = Some r <-> r = z /\ in_int z.
Proof.
  unfold int_checked. destruct (in_intb z) eqn:E.
  - apply in_intb_spec in E. split; [intros [= <-]; auto | intros [-> _]; auto].
  - split; [discriminate |]. intros [_ H]. apply in_intb_spec in H. congruence.
Qed.

Lemma int_checked_in z : in_int z -> int_checked z = Some z.
Proof. intros H. apply int_checked_Some. auto. Qed.

Lemma to_int_id z : in_int z -> to_int z = z.
Proof.
  unfold in_int, INT_MIN, INT_MAX, to_int. intros H.
  rewrite Z.mod_small; lia.
Qed.

(** ** Configuration *)

Lemma clamp_is_min n :
  (if n >? MAX_THREADS then MAX_THREADS else n) = Z.min n MAX_THREADS.
Proof. destruct (Z.gtb_spec n MAX_THREADS); lia. Qed.




(** ** The writer thread alone *)

(** C4, the failing path: when [fopen] fails, [file_writer] prints its
    message and returns at line 71; lines 76-77 are not reached and the
    message is neither closed nor freed. *)
Theorem failed_open_returns_without_release :
  Writer.file_writer "/mnt" (fun _ => false) 0 (int_bytes 1) ∅ =
    (Writer.Finished false, ∅, [Writer.FopenFailed "/mnt/data/test000000.dat"]).
Proof. reflexivity. Qed.

Lemma file_writer_network can_open ctr msg fs :
  Writer.file_writer "/network" can_open ctr msg fs =
    (Writer.Finished true, fs, [Writer.MsgClose; Writer.Free]).
Proof. reflexivity. Qed.

(** ** Schedules *)

Lemma run_invariant (P : Sys -> Prop) dn can_open :
  (forall c s s', P s -> step dn can_open c s = Some s' -> P s') ->
  forall schedule s, P s -> P (run dn can_open schedule s).
Proof.
  intros Hstep schedule. induction schedule as [| c rest IH]; intros s Hs; [exact Hs |].
  simpl. destruct (step dn can_open c s) as [s' |] eqn:E; eauto.
Qed.

Lemma main_step_cases s s' :
  main_step s = Some s' ->
  (exists o rest, todo s = Print o :: rest /\
     s' = {| todo := rest; g_thread_ctr := g_thread_ctr s; threads := threads s;
             occupant := occupant s; disk := disk s; log := log s ++ [Said o] |}) \/
  (exists v rest, todo s = SetCtr v :: rest /\
     s' = {| todo := rest; g_thread_ctr := v; threads := threads s;
             occupant := occupant s; disk := disk s; log := log s ++ [Counted v] |}) \/
  (exists slot tid msg rest, todo s = Create slot tid msg :: rest /\
     s' = {| todo := rest; g_thread_ctr := g_thread_ctr s;
             threads := threads s ++
               [{| t_slot := slot; t_msg := msg; t_pc := Writer.AtEntry;
                   t_joined := false |}];
             occupant := <[slot := length (threads s)]> (occupant s);
             disk := disk s;
             log := log s ++ [Dispatched (length (threads s)) slot] |}) \/
  (exists slot tid rest k t, todo s = Join slot tid :: rest /\
     occupant s !! slot = Some k /\ threads s !! k = Some t /\
     finished (t_pc t) = true /\ t_joined t = false /\
     s' = {| todo := rest; g_thread_ctr := g_thread_ctr s;
             threads := <[k := join_thread t]> (threads s);
             occupant := occupant s; disk := disk s;
             log := log s ++ [Joined k] |}).
Proof.
  unfold main_step. intros H.
  destruct (todo s) as [| [o | slot tid | slot tid msg | v] rest] eqn:Et; [discriminate | ..].
  - left. injection H as <-. eauto.
  - right; right; right.
    destruct (occupant s !! slot) as [k |] eqn:Eo; [| discriminate].
    destruct (threads s !! k) as [t |] eqn:Ek; [| discriminate].
    destruct (finished (t_pc t)) eqn:Ef; [| discriminate].
    destruct (t_joined t) eqn:Ej; [discriminate |].
    simpl in H. injection H as <-. exists slot, tid, rest, k, t. auto 10.
  - right; right; left. injection H as <-. eauto 10.
  - right; left. injection H as <-. eauto.
Qed.

Lemma writer_step_cases dn can_open k s s' :
  writer_step dn can_open k s = Some s' ->
  exists t pc' disk' effects,
    threads s !! k = Some t /\
    Writer.step dn can_open (g_thread_ctr s) (t_msg t) (t_pc t) (disk s)
      = Some (pc', disk', effects) /\
    s' = {| todo := todo s; g_thread_ctr := g_thread_ctr s;
            threads := <[k := move_thread pc' t]> (threads s);
            occupant := occupant s; disk := disk';
            log := log s ++ (Did k <$> effects) |}.
Proof.
  unfold writer_step. intros H.
  destruct (threads s !! k) as [t |] eqn:Ek; [| discriminate].
  destruct (Writer.step _ _ _ _ _ _) as [[[pc' disk'] effects] |] eqn:Es; [| discriminate].
  injection H as <-. eauto 10.
Qed.

(** ** Network-only mode *)

Lemma network_quiet_step can_open c s s' :
  Pred.network_quiet s -> step "/network" can_open c s = Some s' -> Pred.network_quiet s'.
Proof.
  intros (Hd & Hl & Ht) Hstep. destruct c as [| k]; simpl in Hstep.
  - apply main_step_cases in Hstep
      as [(o & rest & _ & ->) | [(v & rest & _ & ->) |
          [(slot & tid & msg & rest & _ & ->) |
           (slot & tid & rest & k & t & _ & _ & Hk & _ & _ & ->)]]];
      (split; [exact Hd |]); (split; [apply Forall_app; split; [exact Hl | repeat constructor] |]);
      simpl; try exact Ht.
    + apply Forall_app. split; [exact Ht | repeat constructor].
    + apply Forall_insert; [exact Ht |].
      apply (Forall_lookup_1 _ _ _ _ Ht) in Hk. exact Hk.
  - apply writer_step_cases in Hstep as (t & pc' & disk' & effects & Hk & Hw & ->).
    pose proof (Forall_lookup_1 _ _ _ _ Ht Hk) as Hclean.
    unfold Pred.never_opened in Hclean.
    destruct (t_pc t) as [| fn | | [] |] eqn:Epc; try discriminate;
      simpl in Hw; injection Hw as <- <- <-;
      (split; [exact Hd |]);
      (split; [apply Forall_app; split; [exact Hl | repeat constructor] |]);
      simpl; apply Forall_insert; auto.
Qed.

(** C9: in a run whose disk argument is "/network", whatever the
    schedule and however many messages arrive, no file is opened,
    written or created: the disk stays empty, no writer thread logs a
    file operation, and no writer thread is past [fopen]; a writer
    thread that has returned has closed and freed its message, and
    [file_writer] run on its own does exactly that. *)
Theorem network_mode_no_filesystem_operation fuel env can_open argv schedule :
  disk_of argv = "/network" ->
  let s := execute fuel env can_open argv schedule in
  disk s = ∅ /\
  (forall k e, Did k e ∈ log s -> Writer.is_filesystem_effect e = false) /\
  (forall k t, threads s !! k = Some t ->
     t_pc t = Writer.AtEntry \/ t_pc t = Writer.Releasing \/
     t_pc t = Writer.Finished true) /\
  (forall ctr msg fs,
     Writer.file_writer (disk_of argv) can_open ctr msg fs =
       (Writer.Finished true, fs, [Writer.MsgClose; Writer.Free])).
Proof.
  intros Hd s. subst s. unfold execute. rewrite Hd.
  assert (Pred.network_quiet
            (run "/network" can_open schedule (boot (actions_of (main fuel env argv)))))
    as (H1 & H2 & H3).
  { apply run_invariant.
    - intros c s s'. apply network_quiet_step.
    - repeat split; constructor. }
  split; [exact H1 |]. split; [| split].
  - intros k e Hin. rewrite Forall_forall in H2. specialize (H2 _ Hin).
    simpl in H2. destruct (Writer.is_filesystem_effect e); [discriminate | reflexivity].
  - intros k t Hk. pose proof (Forall_lookup_1 _ _ _ _ H3 Hk) as Hc.
    unfold Pred.never_opened in Hc.
    destruct (t_pc t) as [| fn | | [] |]; try discriminate; auto.
  - intros. apply file_writer_network.
Qed.

(** ** The orchestrator alone *)

Import Protocol.

Section Preservation.
Context {P : Main -> Prop}.

Lemma preserves_bind {A B} (m : M A) (k : A -> M B) :
  preserves P m -> (forall a, preserves P (k a)) -> preserves P (bind m k).
Proof.
  intros Hm Hk s Hs. unfold bind. specialize (Hm s Hs).
  destruct (m s) as [a s' | rc s' | s']; simpl in *; auto. apply Hk, Hm.
Qed.

Lemma preserves_ret {A} (a : A) : preserves P (ret a).
Proof. intros s Hs. exact Hs. Qed.

Lemma preserves_get : preserves P get.
Proof. intros s Hs. exact Hs. Qed.

Lemma preserves_return {A} rc : preserves P (@return_ A rc).
Proof. intros s Hs. exact Hs. Qed.

Lemma preserves_undefined {A} : preserves P (@undefined A).
Proof. intros s Hs. exact Hs. Qed.

Lemma preserves_defined {A} (o : option A) : preserves P (defined o).
Proof. destruct o; [apply preserves_ret | apply preserves_undefined]. Qed.

Lemma preserves_when b m : preserves P m -> preserves P (when b m).
Proof. destruct b; [auto | intros _; apply preserves_ret]. Qed.
End Preservation.

Ltac preserve :=
  repeat first
    [ apply preserves_ret | apply preserves_get | apply preserves_return
    | apply preserves_undefined | apply preserves_defined
    | apply preserves_when
    | apply preserves_bind; [| intros ? ]
    | assumption ].

Lemma protocol_app held a b :
  protocol held (a ++ b) =
    match protocol held a with Some held' => protocol held' b | None => None end.
Proof.
  revert held. induction a as [| x a IH]; intros held; simpl; [reflexivity |].
  destruct (protocol_step held x); [apply IH | reflexivity].
Qed.

Lemma protocol_quiet held a : quiet a = true -> protocol held [a] = Some held.
Proof. destruct a; simpl; intros; try discriminate; reflexivity. Qed.

Lemma tidy_quiet s s' a :
  quiet a = true ->
  file_writer_thread s' = file_writer_thread s ->
  trace s' = trace s ++ [a] ->
  tidy s -> tidy s'.
Proof.
  intros Hq Hf Ht (Hlen & held & Hp & Hslots). unfold tidy. rewrite Hf, Ht.
  split; [exact Hlen |]. exists held. split; [| exact Hslots].
  rewrite protocol_app, Hp. apply protocol_quiet, Hq.
Qed.

Lemma tidy_fields s s' :
  file_writer_thread s' = file_writer_thread s ->
  trace s' = trace s ->
  tidy s -> tidy s'.
Proof. unfold tidy. intros -> ->. auto. Qed.

Lemma tidy_print o : preserves tidy (print o).
Proof. intros s. apply (tidy_quiet s _ (Print o)); reflexivity. Qed.

Lemma tidy_set_msg_counter v : preserves tidy (set_msg_counter v).
Proof. intros s. apply tidy_fields; reflexivity. Qed.

Lemma tidy_set_thread_ctr v : preserves tidy (set_thread_ctr v).
Proof. intros s. apply tidy_fields; reflexivity. Qed.

Lemma tidy_set_i v : preserves tidy (set_i v).
Proof. intros s. apply tidy_fields; reflexivity. Qed.

Lemma tidy_count v : preserves tidy (emit (SetCtr v)).
Proof. intros s. apply (tidy_quiet s _ (SetCtr v)); reflexivity. Qed.

Ltac tidy_steps :=
  repeat first
    [ apply tidy_print | apply tidy_set_msg_counter | apply tidy_set_thread_ctr
    | apply tidy_set_i | apply tidy_count
    | apply preserves_ret | apply preserves_get | apply preserves_return
    | apply preserves_undefined | apply preserves_defined
    | apply preserves_when
    | apply preserves_bind; [| intros ? ] ].

Lemma tidy_recvmsg cfg answer : preserves tidy (recvmsg cfg answer).
Proof. unfold recvmsg. destruct answer; tidy_steps. Qed.

Lemma tidy_receive cfg env : preserves tidy (receive cfg env).
Proof. unfold receive. tidy_steps. apply tidy_recvmsg. Qed.

Lemma tidy_count_thread : preserves tidy count_thread.
Proof. unfold count_thread. tidy_steps. Qed.

Lemma tidy_interval_report cfg env i : preserves tidy (interval_report cfg env i).
Proof. unfold interval_report. tidy_steps. Qed.

Lemma tidy_next_i : preserves tidy next_i.
Proof. unfold next_i. tidy_steps. Qed.

Lemma slot_of_bound cfg i slot :
  slot_of cfg i = Some slot -> (slot < Z.to_nat MAX_THREADS)%nat.
Proof.
  unfold slot_of. destruct (int_rem i (no_threads cfg)) as [r |]; [| discriminate].
  destruct (0 <=? r) eqn:E1; [| discriminate].
  destruct (r <? MAX_THREADS) eqn:E2; [| discriminate].
  simpl. intros [= <-]. apply Z.leb_le in E1. apply Z.ltb_lt in E2. lia.
Qed.

Lemma tidy_dispatch cfg env msg :
  (forall i, new_thread env i <> 0) -> preserves tidy (dispatch cfg env msg).
Proof.
  intros Hid s Htidy. unfold dispatch, bind, get.
  destruct (slot_of cfg (i s)) as [slot |] eqn:Eslot; simpl; [| exact Htidy].
  destruct (file_writer_thread s !! slot) as [tid |] eqn:Etid; simpl; [| exact Htidy].
  destruct Htidy as (Hlen & held & Hp & Hslots).
  pose proof (Hslots _ _ Etid) as Hheld.
  pose proof (lookup_lt_Some _ _ _ Etid) as Hlt.
  destruct (Z.eqb_spec tid 0) as [-> | Hne]; simpl;
    (split; [simpl; rewrite length_insert; exact Hlen |]); simpl.
  - exists (held ∪ {[slot]}). split.
    + rewrite protocol_app, Hp. simpl.
      destruct (decide (slot ∈ held)) as [Hin | _]; [| reflexivity].
      apply Hheld in Hin. congruence.
    + intros slot' tid' Hl. destruct (decide (slot' = slot)) as [-> | Hs].
      * rewrite list_lookup_insert_eq in Hl by exact Hlt. injection Hl as <-.
        split; [set_solver | intros _; apply Hid].
      * rewrite list_lookup_insert_ne in Hl by congruence.
        rewrite (Hslots _ _ Hl). set_solver.
  - exists (held ∖ {[slot]} ∪ {[slot]}). split.
    + rewrite !protocol_app, Hp. simpl.
      destruct (decide (slot ∈ held)) as [_ | Hout]; [| tauto].
      destruct (decide (slot ∈ held ∖ {[slot]})) as [Hin | _]; [set_solver | reflexivity].
    + intros slot' tid' Hl. destruct (decide (slot' = slot)) as [-> | Hs].
      * rewrite list_lookup_insert_eq in Hl by exact Hlt. injection Hl as <-.
        split; [set_solver | intros _; apply Hid].
      * rewrite list_lookup_insert_ne in Hl by congruence.
        rewrite (Hslots _ _ Hl). set_solver.
Qed.

Lemma tidy_iteration cfg env :
  (forall i, new_thread env i <> 0) -> preserves tidy (iteration cfg env).
Proof.
  intros Hid. unfold iteration.
  apply preserves_bind; [apply tidy_receive | intros msg].
  apply preserves_bind; [apply tidy_dispatch, Hid | intros _].
  apply preserves_bind; [apply tidy_count_thread | intros _].
  apply preserves_bind; [apply preserves_get | intros s].
  apply tidy_interval_report.
Qed.

Lemma tidy_recv_loop cfg env :
  (forall i, new_thread env i <> 0) ->
  forall fuel s, tidy s -> tidy (loop_state (recv_loop fuel cfg env s)).
Proof.
  intros Hid fuel. induction fuel as [| fuel IH]; intros s Hs; simpl.
  - destruct (int_sub (message_count cfg) 1); [| exact Hs].
    destruct (i s =? z); exact Hs.
  - destruct (int_sub (message_count cfg) 1); [| exact Hs].
    destruct (i s =? z); [exact Hs |].
    assert (preserves tidy (bind (iteration cfg env) (fun _ => next_i))) as Hstep.
    { apply preserves_bind; [apply tidy_iteration, Hid | intros _; apply tidy_next_i]. }
    specialize (Hstep s Hs).
    destruct (bind _ _ s) as [u s' | rc s' | s']; simpl in *; auto.
Qed.

Lemma tidy_start : tidy start.
Proof.
  split; [reflexivity |]. exists ∅. split; [reflexivity |].
  intros slot tid Hl. apply lookup_replicate in Hl as [-> _]. set_solver.
Qed.

Lemma tidy_setup argv cfg env : preserves tidy (setup argv cfg env).
Proof. unfold setup. tidy_steps. apply tidy_recvmsg. Qed.

Lemma tidy_finish cfg env : preserves tidy (finish cfg env).
Proof. unfold finish. tidy_steps. Qed.

Lemma tidy_main fuel env argv :
  (forall i, new_thread env i <> 0) -> tidy (outcome_state (main fuel env argv)).
Proof.
  intros Hid. unfold main. destruct (parse_args argv) as [| | cfg].
  - exact (tidy_print PUsage start tidy_start).
  - apply tidy_start.
  - pose proof (tidy_setup argv cfg env start tidy_start) as H0.
    destruct (setup argv cfg env start) as [u s | rc s | s]; simpl in *; auto.
    pose proof (tidy_recv_loop cfg env Hid fuel s H0) as H1.
    destruct (recv_loop fuel cfg env s) as [s' | rc s' | s' | s']; simpl in *; auto.
    pose proof (tidy_finish cfg env s' H1) as H2.
    destruct (finish cfg env s') as [u' s'' | rc s'' | s'']; simpl in *; auto.
Qed.

Lemma main_follows_protocol fuel env argv :
  (forall i, new_thread env i <> 0) ->
  is_Some (protocol ∅ (actions_of (main fuel env argv))).
Proof.
  intros Hid. destruct (tidy_main fuel env argv Hid) as (_ & held & Hp & _).
  exists held. destruct (main fuel env argv); exact Hp.
Qed.
(** ** Every reachable state is coherent *)

Import Coherence.

Lemma log_ok_nil : log_ok [].
Proof. repeat split; intros ? **; discriminate. Qed.

(** Events that are neither a dispatch nor a join, and that belong to
    no joined thread, can be appended. *)
Lemma log_ok_extend l extra :
  log_ok l ->
  (forall n ev, extra !! n = Some ev ->
     match ev with
     | Said _ | Counted _ => True
     | Did k _ => forall j, l !! j <> Some (Joined k)
     | Dispatched _ _ | Joined _ => False
     end) ->
  log_ok (l ++ extra).
Proof.
  intros (Ho & Hj & Hs) Hextra.
  assert (forall n k slot, (l ++ extra) !! n = Some (Dispatched k slot) ->
                           l !! n = Some (Dispatched k slot)) as Hd.
  { intros n k slot H. apply lookup_app_Some in H as [H | [_ H]]; [exact H |].
    destruct (Hextra _ _ H). }
  assert (forall n k, (l ++ extra) !! n = Some (Joined k) ->
                      l !! n = Some (Joined k)) as Hjn.
  { intros n k H. apply lookup_app_Some in H as [H | [_ H]]; [exact H |].
    destruct (Hextra _ _ H). }
  repeat split.
  - intros a b k k' slot Hab Ha Hb. apply Hd in Ha, Hb.
    destruct (Ho _ _ _ _ _ Hab Ha Hb) as (j & Hlt & Hjj).
    exists j. split; [exact Hlt |]. apply lookup_app_l_Some, Hjj.
  - intros a j k slot Ha Hjj. apply Hd in Ha. apply Hjn in Hjj. eauto.
  - intros j n k e Hjj Hn. apply Hjn in Hjj.
    apply lookup_app_Some in Hn as [Hn | [_ Hn]]; [eauto |].
    apply Hextra in Hn. destruct (Hn _ Hjj).
Qed.

Lemma log_ok_join l k : log_ok l -> log_ok (l ++ [Joined k]).
Proof.
  intros (Ho & Hj & Hs). repeat split.
  - intros a b k1 k2 slot Hab Ha Hb.
    apply lookup_snoc_Some in Hb as [[Hlt Hb] | [_ [=]]].
    rewrite lookup_app_l in Ha by lia.
    destruct (Ho _ _ _ _ _ Hab Ha Hb) as (j & Hjlt & Hjj).
    exists j. split; [exact Hjlt |]. apply lookup_app_l_Some, Hjj.
  - intros a j k1 slot Ha Hjj.
    apply lookup_snoc_Some in Ha as [[Hlt Ha] | [_ [=]]].
    apply lookup_snoc_Some in Hjj as [[_ Hjj] | [-> _]]; [eauto | exact Hlt].
  - intros j n k1 e Hjj Hn.
    apply lookup_snoc_Some in Hn as [[Hlt Hn] | [_ [=]]].
    apply lookup_snoc_Some in Hjj as [[_ Hjj] | [-> _]]; [eauto | exact Hlt].
Qed.

Lemma log_ok_dispatch l k slot :
  log_ok l ->
  (forall a k0, l !! a = Some (Dispatched k0 slot) ->
                exists j, l !! j = Some (Joined k0)) ->
  (forall j, l !! j <> Some (Joined k)) ->
  log_ok (l ++ [Dispatched k slot]).
Proof.
  intros (Ho & Hj & Hs) Hprev Hfresh. repeat split.
  - intros a b k1 k2 slot' Hab Ha Hb.
    apply lookup_snoc_Some in Hb as [[Hlt Hb] | [-> [= <- <-]]].
    + rewrite lookup_app_l in Ha by lia.
      destruct (Ho _ _ _ _ _ Hab Ha Hb) as (j & Hjlt & Hjj).
      exists j. split; [exact Hjlt |]. apply lookup_app_l_Some, Hjj.
    + rewrite lookup_app_l in Ha by lia.
      destruct (Hprev _ _ Ha) as (j & Hjj).
      pose proof (Hj _ _ _ _ Ha Hjj). pose proof (lookup_lt_Some _ _ _ Hjj).
      exists j. split; [lia |]. apply lookup_app_l_Some, Hjj.
  - intros a j k1 slot' Ha Hjj.
    apply lookup_snoc_Some in Hjj as [[Hlt Hjj] | [_ [=]]].
    apply lookup_snoc_Some in Ha as [[_ Ha] | [-> [= <- <-]]]; [eauto |].
    destruct (Hfresh _ Hjj).
  - intros j n k1 e Hjj Hn.
    apply lookup_snoc_Some in Hjj as [[Hlt Hjj] | [_ [=]]].
    apply lookup_snoc_Some in Hn as [[_ Hn] | [_ [=]]]. eauto.
Qed.

Lemma lookup_update (l : list Thread) k t f k2 x :
  l !! k = Some t ->
  <[k := f t]> l !! k2 = Some x <->
  exists t0, l !! k2 = Some t0 /\ x = (if decide (k2 = k) then f t0 else t0).
Proof.
  intros Hk. pose proof (lookup_lt_Some _ _ _ Hk) as Hlt.
  rewrite list_lookup_insert_Some. split.
  - intros [(-> & <- & _) | (Hne & Hl)].
    + exists t. rewrite decide_True by reflexivity. auto.
    + exists x. rewrite decide_False by congruence. auto.
  - intros (t0 & Hl & ->). destruct (decide (k2 = k)) as [-> | Hne].
    + left. rewrite Hk in Hl. injection Hl as <-. auto.
    + right. split; [congruence | exact Hl].
Qed.

Lemma boot_coherent program :
  is_Some (protocol ∅ program) -> coherent (boot program).
Proof.
  intros Hp. split; cbn [boot occupant threads todo log].
  - exists ∅. split; [| exact Hp]. intros slot. split; [set_solver |].
    unfold boot; cbn [occupant].
    intros (k & t & H & _). rewrite lookup_empty in H. discriminate.
  - intros slot k H. rewrite lookup_empty in H. discriminate.
  - intros k t H. discriminate.
  - intros k t H. discriminate.
  - intros n k slot H. discriminate.
  - intros k. split; [intros (n & H) | intros (t & H & _)]; discriminate.
  - apply log_ok_nil.
Qed.

(** [main] prints or stores the counter. *)
Lemma coherent_quiet s s' a ev :
  coherent s ->
  quiet a = true ->
  todo s = a :: todo s' ->
  threads s' = threads s ->
  occupant s' = occupant s ->
  log s' = log s ++ [ev] ->
  match ev with Said _ | Counted _ => True | _ => False end ->
  coherent s'.
Proof.
  intros [(held & Hun & Hp) Hocc Hslot Hjoin Hdis Hjl Hlog] Hq Htodo Hth Hoc Hl Hev.
  assert (forall n e, (log s ++ [ev]) !! n = Some e ->
            (log s !! n = Some e) \/ e = ev) as Hold.
  { intros n e H. apply lookup_snoc_Some in H as [[_ H] | [_ <-]]; auto. }
  split; rewrite ?Hth, ?Hoc, ?Hl.
  - exists held. split.
    + intros slot. rewrite (Hun slot), Hth, Hoc. reflexivity.
    + rewrite Htodo in Hp. simpl in Hp. destruct a; try discriminate; exact Hp.
  - exact Hocc.
  - exact Hslot.
  - exact Hjoin.
  - intros n k slot H. apply Hold in H as [H | <-]; [eauto | destruct Hev].
  - intros k. rewrite <- Hjl. split; intros (n & H).
    + apply Hold in H as [H | <-]; [eauto | destruct Hev].
    + exists n. apply lookup_app_l_Some, H.
  - apply log_ok_extend; [exact Hlog |].
    intros [| n] e H; [| discriminate]. injection H as <-.
    destruct ev; try exact I; destruct Hev.
Qed.

(** A writer thread moves. *)
Lemma coherent_writer dn can_open k s s' :
  coherent s -> writer_step dn can_open k s = Some s' -> coherent s'.
Proof.
  intros [(held & Hun & Hp) Hocc Hslot Hjoin Hdis Hjl Hlog] Hstep.
  apply writer_step_cases in Hstep as (t & pc' & disk' & effects & Hk & Hw & ->).
  assert (t_joined t = false) as Hnj.
  { destruct (t_joined t) eqn:E; [| reflexivity].
    apply (Hjoin _ _ Hk) in E. destruct (t_pc t); try discriminate E.
    simpl in Hw. discriminate Hw. }
  assert (forall k2 x, <[k := move_thread pc' t]> (threads s) !! k2 = Some x <->
            exists t0, threads s !! k2 = Some t0 /\
              x = if decide (k2 = k) then move_thread pc' t0 else t0) as Hup.
  { intros k2 x. apply (lookup_update _ _ _ (move_thread pc')), Hk. }
  assert (forall n e, (log s ++ (Did k <$> effects)) !! n = Some e ->
            (log s !! n = Some e) \/ exists w, e = Did k w) as Hold.
  { intros n e H. apply lookup_app_Some in H as [H | [_ H]]; [auto |].
    apply list_lookup_fmap_Some in H as (w & -> & _). eauto. }
  split; simpl.
  - exists held. split; [| exact Hp].
    intros slot. rewrite (Hun slot). split.
    + intros (k2 & t0 & Ho & Ht & Hj).
      exists k2, (if decide (k2 = k) then move_thread pc' t0 else t0).
      split; [exact Ho |]. split; [apply Hup; eauto |].
      destruct (decide (k2 = k)); exact Hj.
    + intros (k2 & x & Ho & Ht & Hj). apply Hup in Ht as (t0 & Ht & ->).
      exists k2, t0. split; [exact Ho |]. split; [exact Ht |].
      destruct (decide (k2 = k)); exact Hj.
  - intros slot k2 Ho. destruct (Hocc _ _ Ho) as (t0 & Ht & Hs).
    exists (if decide (k2 = k) then move_thread pc' t0 else t0).
    split; [apply Hup; eauto |]. destruct (decide (k2 = k)); exact Hs.
  - intros k2 x Hx. apply Hup in Hx as (t0 & Ht & ->).
    destruct (Hslot _ _ Ht) as [H | H];
      [left | right]; destruct (decide (k2 = k)); exact H.
  - intros k2 x Hx Hj. apply Hup in Hx as (t0 & Ht & ->).
    destruct (decide (k2 = k)) as [-> | Hne].
    + rewrite Hk in Ht. injection Ht as <-. simpl in Hj. congruence.
    + eauto.
  - intros n k2 slot H. apply Hold in H as [H | (w & [=])].
    destruct (Hdis _ _ _ H) as (t0 & Ht & Hs).
    exists (if decide (k2 = k) then move_thread pc' t0 else t0).
    split; [apply Hup; eauto |]. destruct (decide (k2 = k)); exact Hs.
  - intros k2. split.
    + intros (n & H). apply Hold in H as [H | (w & [=])].
      destruct (proj1 (Hjl k2) (ex_intro _ n H)) as (t0 & Ht & Hj).
      exists (if decide (k2 = k) then move_thread pc' t0 else t0).
      split; [apply Hup; eauto |]. destruct (decide (k2 = k)); exact Hj.
    + intros (x & Hx & Hj). apply Hup in Hx as (t0 & Ht & ->).
      destruct (proj2 (Hjl k2)) as (n & Hn).
      { exists t0. split; [exact Ht |]. destruct (decide (k2 = k)); exact Hj. }
      exists n. apply lookup_app_l_Some, Hn.
  - apply log_ok_extend; [exact Hlog |].
    intros n e H. apply list_lookup_fmap_Some in H as (w & -> & _).
    intros j Hj. destruct (proj1 (Hjl k) (ex_intro _ j Hj)) as (t0 & Ht & Hj0).
    congruence.
Qed.

(** [main] joins the thread of a slot. *)
Lemma coherent_join s slot tid rest k t :
  coherent s ->
  todo s = Join slot tid :: rest ->
  occupant s !! slot = Some k ->
  threads s !! k = Some t ->
  finished (t_pc t) = true ->
  coherent {| todo := rest; g_thread_ctr := g_thread_ctr s;
              threads := <[k := join_thread t]> (threads s);
              occupant := occupant s; disk := disk s;
              log := log s ++ [Joined k] |}.
Proof.
  intros [(held & Hun & Hp) Hocc Hslot Hjoin Hdis Hjl Hlog] Htodo Ho Hk Hfin.
  assert (forall k2 x, <[k := join_thread t]> (threads s) !! k2 = Some x <->
            exists t0, threads s !! k2 = Some t0 /\
              x = if decide (k2 = k) then join_thread t0 else t0) as Hup.
  { intros k2 x. apply (lookup_update _ _ _ join_thread), Hk. }
  destruct (Hocc _ _ Ho) as (t' & Ht' & Hts). rewrite Hk in Ht'. injection Ht' as <-.
  split; cbn [todo threads occupant log].
  - rewrite Htodo in Hp. simpl in Hp.
    destruct (decide (slot ∈ held)) as [Hin | Hout]; [| destruct Hp; discriminate].
    exists (held ∖ {[slot]}). split; [| exact Hp].
    intros slot'. unfold unjoined in *. cbn [threads occupant]. split.
    + intros Hin'. apply elem_of_difference in Hin' as [Hin' Hne].
      apply Hun in Hin' as (k2 & t0 & Ho2 & Ht2 & Hj2).
      assert (k2 <> k) as Hkk.
      { intros ->. rewrite Hk in Ht2. injection Ht2 as <-.
        destruct (Hocc _ _ Ho2) as (t1 & Ht1 & Hs1). rewrite Hk in Ht1.
        injection Ht1 as <-. set_solver. }
      exists k2, t0. split; [exact Ho2 |]. split; [| exact Hj2].
      apply Hup. exists t0. rewrite decide_False by exact Hkk. auto.
    + intros (k2 & x & Ho2 & Hx & Hj2). apply Hup in Hx as (t0 & Ht0 & ->).
      destruct (decide (k2 = k)) as [-> | Hkk]; [discriminate Hj2 |].
      apply elem_of_difference. split.
      * apply Hun. eauto.
      * intros Heq. apply elem_of_singleton in Heq as ->. congruence.
  - intros slot' k2 Ho2. destruct (Hocc _ _ Ho2) as (t0 & Ht0 & Hs0).
    exists (if decide (k2 = k) then join_thread t0 else t0).
    split; [apply Hup; eauto |]. destruct (decide (k2 = k)); exact Hs0.
  - intros k2 x Hx. apply Hup in Hx as (t0 & Ht0 & ->).
    destruct (decide (k2 = k)) as [-> | Hkk]; [right; reflexivity |].
    apply Hslot, Ht0.
  - intros k2 x Hx Hj. apply Hup in Hx as (t0 & Ht0 & ->).
    destruct (decide (k2 = k)) as [-> | Hkk].
    + rewrite Hk in Ht0. injection Ht0 as <-. exact Hfin.
    + eauto.
  - intros n k2 slot' H. apply lookup_snoc_Some in H as [[_ H] | [_ [=]]].
    destruct (Hdis _ _ _ H) as (t0 & Ht0 & Hs0).
    exists (if decide (k2 = k) then join_thread t0 else t0).
    split; [apply Hup; eauto |]. destruct (decide (k2 = k)); exact Hs0.
  - intros k2. split.
    + intros (n & H). apply lookup_snoc_Some in H as [[_ H] | [_ [= <-]]].
      * destruct (proj1 (Hjl k2) (ex_intro _ n H)) as (t0 & Ht0 & Hj0).
        exists (if decide (k2 = k) then join_thread t0 else t0).
        split; [apply Hup; eauto |]. destruct (decide (k2 = k)); auto.
      * exists (join_thread t). split; [| reflexivity].
        apply Hup. exists t. rewrite decide_True by reflexivity. auto.
    + intros (x & Hx & Hj). apply Hup in Hx as (t0 & Ht0 & ->).
      destruct (decide (k2 = k)) as [-> | Hkk].
      * exists (length (log s)). apply lookup_snoc_Some. right. auto.
      * destruct (proj2 (Hjl k2)) as (n & Hn); [eauto |].
        exists n. apply lookup_app_l_Some, Hn.
  - apply log_ok_join, Hlog.
Qed.

(** [main] creates a thread in a slot. *)
Lemma coherent_create s slot tid msg rest :
  coherent s ->
  todo s = Create slot tid msg :: rest ->
  coherent {| todo := rest; g_thread_ctr := g_thread_ctr s;
              threads := threads s ++
                [{| t_slot := slot; t_msg := msg; t_pc := Writer.AtEntry;
                    t_joined := false |}];
              occupant := <[slot := length (threads s)]> (occupant s);
              disk := disk s;
              log := log s ++ [Dispatched (length (threads s)) slot] |}.
Proof.
  intros [(held & Hun & Hp) Hocc Hslot Hjoin Hdis Hjl Hlog] Htodo.
  set (new := {| t_slot := slot; t_msg := msg; t_pc := Writer.AtEntry;
                 t_joined := false |}).
  rewrite Htodo in Hp. simpl in Hp.
  destruct (decide (slot ∈ held)) as [Hin | Hout]; [destruct Hp; discriminate |].
  assert (forall k t, threads s !! k = Some t -> (threads s ++ [new]) !! k = Some t)
    as Hkeep by (intros; apply lookup_app_l_Some; assumption).
  assert (forall k x, (threads s ++ [new]) !! k = Some x ->
            threads s !! k = Some x \/ (k = length (threads s) /\ x = new)) as Hold.
  { intros k x H. apply lookup_snoc_Some in H as [[_ H] | [-> <-]]; auto. }
  assert (forall k t, threads s !! k = Some t -> t_slot t = slot ->
                      t_joined t = true) as Hfree.
  { intros k t Ht Hs. destruct (t_joined t) eqn:Ej; [reflexivity |].
    destruct (Hslot _ _ Ht) as [Ho | Hj]; [| congruence].
    rewrite Hs in Ho. destruct Hout. apply Hun. eauto. }
  split; cbn [todo threads occupant log].
  - exists (held ∪ {[slot]}). split; [| exact Hp].
    intros slot'. unfold unjoined in *. cbn [threads occupant].
    destruct (decide (slot' = slot)) as [-> | Hne].
    + rewrite lookup_insert_eq. split; [intros _ | set_solver].
      exists (length (threads s)), new. split; [reflexivity |].
      split; [| reflexivity]. apply lookup_snoc_Some. right. auto.
    + rewrite lookup_insert_ne by congruence. split.
      * intros Hin. assert (slot' ∈ held) as Hin' by set_solver.
        apply Hun in Hin' as (k & t & Ho & Ht & Hj). eauto 6.
      * intros (k & x & Ho & Hx & Hj). apply elem_of_union. left. apply Hun.
        destruct (Hocc _ _ Ho) as (t0 & Ht0 & _).
        rewrite (Hkeep _ _ Ht0) in Hx. injection Hx as <-. eauto.
  - intros slot' k. destruct (decide (slot' = slot)) as [-> | Hne].
    + rewrite lookup_insert_eq. intros [= <-]. exists new. split; [| reflexivity].
      apply lookup_snoc_Some. right. auto.
    + rewrite lookup_insert_ne by congruence. intros Ho.
      destruct (Hocc _ _ Ho) as (t0 & Ht0 & Hs0). eauto.
  - intros k x Hx. apply Hold in Hx as [Hx | [-> ->]].
    + destruct (decide (t_slot x = slot)) as [Hs | Hne].
      * right. eauto.
      * rewrite lookup_insert_ne by congruence. apply Hslot, Hx.
    + left. simpl. apply lookup_insert_eq.
  - intros k x Hx Hj. apply Hold in Hx as [Hx | [-> ->]]; [eauto | discriminate].
  - intros n k slot' H. apply lookup_snoc_Some in H as [[_ H] | [_ [= <- <-]]].
    + destruct (Hdis _ _ _ H) as (t0 & Ht0 & Hs0). eauto.
    + exists new. split; [| reflexivity]. apply lookup_snoc_Some. right. auto.
  - intros k. split.
    + intros (n & H). apply lookup_snoc_Some in H as [[_ H] | [_ [=]]].
      destruct (proj1 (Hjl k) (ex_intro _ n H)) as (t0 & Ht0 & Hj0). eauto.
    + intros (x & Hx & Hj). apply Hold in Hx as [Hx | [-> ->]]; [| discriminate].
      destruct (proj2 (Hjl k)) as (n & Hn); [eauto |].
      exists n. apply lookup_app_l_Some, Hn.
  - apply log_ok_dispatch; [exact Hlog | |].
    + intros a k0 Ha. destruct (Hdis _ _ _ Ha) as (t0 & Ht0 & Hs0).
      apply Hjl. eauto.
    + intros j Hj. destruct (proj1 (Hjl _) (ex_intro _ j Hj)) as (t0 & Ht0 & _).
      apply lookup_lt_Some in Ht0. lia.
Qed.

Lemma coherent_step dn can_open c s s' :
  coherent s -> step dn can_open c s = Some s' -> coherent s'.
Proof.
  intros Hs Hstep. destruct c as [| k]; simpl in Hstep.
  - apply main_step_cases in Hstep
      as [(o & rest & Ht & ->) | [(v & rest & Ht & ->) |
          [(slot & tid & msg & rest & Ht & ->) |
           (slot & tid & rest & k & t & Ht & Ho & Hk & Hf & _ & ->)]]].
    + apply (coherent_quiet s _ (Print o) (Said o)); auto.
    + apply (coherent_quiet s _ (SetCtr v) (Counted v)); auto.
    + eapply coherent_create; eauto.
    + eapply coherent_join; eauto.
  - eapply coherent_writer; eauto.
Qed.

Lemma execute_coherent fuel env can_open argv schedule :
  (forall i, new_thread env i <> 0) ->
  coherent (execute fuel env can_open argv schedule).
Proof.
  intros Hid. unfold execute. apply run_invariant.
  - intros c s s'. apply coherent_step.
  - apply boot_coherent, main_follows_protocol, Hid.
Qed.

Lemma join_waits s slot tid rest k t :
  todo s = Join slot tid :: rest ->
  occupant s !! slot = Some k ->
  threads s !! k = Some t ->
  finished (t_pc t) = false ->
  main_step s = None.
Proof.
  intros Ht Ho Hk Hf. unfold main_step. rewrite Ht, Ho, Hk, Hf. reflexivity.
Qed.

(** C1: in every run and under every schedule, when two messages are
    dispatched into the same slot, the writer thread of the earlier one
    has been joined strictly between the two dispatches; by then it has
    returned from [file_writer], and none of its file operations comes
    after the join.  (Thread ids are taken to be non-zero, 0 being the
    program's mark for an empty slot.) *)
Theorem join_before_slot_reuse fuel env can_open argv schedule :
  (forall i, new_thread env i <> 0) ->
  let s := execute fuel env can_open argv schedule in
  forall a b k k' slot,
    (a < b)%nat ->
    log s !! a = Some (Dispatched k slot) ->
    log s !! b = Some (Dispatched k' slot) ->
    exists j t,
      (a < j < b)%nat /\
      log s !! j = Some (Joined k) /\
      threads s !! k = Some t /\ finished (t_pc t) = true /\
      (forall n e, log s !! n = Some (Did k e) -> (n < j)%nat).
Proof.
  intros Hid s a b k k' slot Hab Ha Hb.
  destruct (execute_coherent fuel env can_open argv schedule Hid)
    as [_ _ _ Hjoin _ Hjl (Ho & _ & Hs)].
  fold s in Hjoin, Hjl, Ho, Hs.
  destruct (Ho _ _ _ _ _ Hab Ha Hb) as (j & Hj & Hjj).
  destruct (proj1 (Hjl k) (ex_intro _ j Hjj)) as (t & Ht & Htj).
  exists j, t. repeat split; try lia; eauto.
Qed.

Lemma join_before_slot_reuse_witness :
  let s := execute 10 (Sample.env_of [0; 1; 2] 7) (fun _ => true)
                   (Sample.argv_of "3" "/mnt" []) Sample.late_writers in
  exists j t,
    (2 < j < 10)%nat /\
    log s !! j = Some (Joined 0) /\
    threads s !! 0%nat = Some t /\ finished (t_pc t) = true /\
    (forall n e, log s !! n = Some (Did 0%nat e) -> (n < j)%nat).
Proof.
  apply (join_before_slot_reuse 10 (Sample.env_of [0; 1; 2] 7) (fun _ => true)
           (Sample.argv_of "3" "/mnt" []) Sample.late_writers
           ltac:(intros i; simpl; lia) 2%nat 10%nat 0%nat 1%nat 0%nat);
    [lia | reflexivity | reflexivity].
Defined.

Lemma network_mode_no_filesystem_operation_witness :
  disk (execute 10 (Sample.env_of [0; 1; 2] 7) (fun _ => true)
                (Sample.argv_of "3" "/network" []) Sample.late_writers) = ∅.
Proof.
  exact (proj1 (network_mode_no_filesystem_operation 10 (Sample.env_of [0; 1; 2] 7)
                  (fun _ => true) (Sample.argv_of "3" "/network" [])
                  Sample.late_writers eq_refl)).
Defined.

(** C3, the failing run: the first writer thread is scheduled after
    [main] has executed [thread_ctr++], the second as soon as it is
    created.  The thread dispatched when the counter was 0 reads 1 and
    writes test000001.dat; the thread dispatched when the counter was 1
    reads 1 as well and overwrites the same file.  No test000000.dat
    exists, and the first payload is lost. *)
Theorem file_name_reads_shared_counter :
  let s := execute 10 (Sample.env_of [0; 1; 2] 7) (fun _ => true)
                   (Sample.argv_of "3" "/mnt" []) Sample.late_writers in
  log s !! 2%nat = Some (Dispatched 0 0) /\
  log s !! 3%nat = Some (Counted 1) /\
  log s !! 4%nat = Some (Did 0 (Writer.Fopen "/mnt/data/test000001.dat")) /\
  log s !! 10%nat = Some (Dispatched 1 0) /\
  log s !! 11%nat = Some (Did 1 (Writer.Fopen "/mnt/data/test000001.dat")) /\
  todo s = [] /\
  disk s !! "/mnt/data/test000000.dat" = None /\
  disk s !! "/mnt/data/test000001.dat" = Some (int_bytes 2) /\
  size (disk s) = 1%nat.
Proof. repeat split; vm_compute; reflexivity. Qed.
(** ** The receive loop *)

Import Turn.

Ltac unfold_main :=
  unfold iteration, next_i, receive, dispatch, count_thread, interval_report,
    recvmsg;
  unfold bind, get, defined, when, print, emit, set_i, set_msg_counter,
    set_thread_ctr, set_slot, return_, undefined;
  unfold ret.

Lemma check_defined p c : in_int (c - p) -> check p c = Some (c - p =? 1).
Proof. intros H. unfold check, int_sub. rewrite int_checked_in by exact H. reflexivity. Qed.


Lemma int_add_defined a b : in_int (a + b) -> int_add a b = Some (a + b).
Proof. apply int_checked_in. Qed.

(** What one turn of the loop does, case by case. *)
Lemma turn_cases cfg env s :
  match (iteration cfg env ;; next_i)%main s with
  | Next _ s' =>
      exists msg c ok slot tid,
        loop_msg env (i s) = Some msg /\
        read_int msg = Some c /\
        check (msg_counter s) c = Some ok /\
        slot_of cfg (i s) = Some slot /\
        file_writer_thread s !! slot = Some tid /\
        i s' = i s + 1 /\ in_int (i s + 1) /\
        msg_counter s' = c /\
        thread_ctr s' = thread_ctr s + 1 /\ in_int (thread_ctr s + 1) /\
        file_writer_thread s' = <[slot := new_thread env (i s)]> (file_writer_thread s) /\
        trace s' = trace s ++ size_report cfg msg ++
                   corrupt_report ok (msg_counter s) c ++
                   join_action slot tid ++
                   [Create slot (new_thread env (i s)) msg;
                    SetCtr (thread_ctr s + 1)] ++
                   lap_report cfg env (i s)
  | Return rc s' => loop_msg env (i s) = None /\ rc = -1
  | Undefined s' => ~ smooth cfg env s
  end.
Proof.
  unfold_main. cbn.
  repeat (match goal with
          | |- context [match ?x with _ => _ end] =>
              lazymatch x with
              | context [match _ with _ => _ end] => fail
              | _ => destruct x eqn:?
              end
          end; cbn).
  all: repeat match goal with
       | E : int_add _ _ = Some _ |- _ =>
           apply int_checked_Some in E as [-> ?]
       end.
  all: try solve [ split; reflexivity ].
  all: try solve [
    do 5 eexists; repeat (split; [first [reflexivity | eassumption] |]);
    unfold size_report, corrupt_report, join_action, lap_report, is_lap;
    repeat match goal with E : _ = _ |- _ => rewrite E end;
    cbn; rewrite <- ?app_assoc; reflexivity ].
  all: intros (msg' & c' & H1 & H2 & H3 & H4 & H5 & H6 & H7 & H8).
  all: match goal with
       | E : loop_msg _ _ = Some _ |- _ => rewrite E in H1; injection H1 as <-
       end.
  all: try congruence.
  all: try match goal with
       | E : read_int _ = Some _ |- _ => rewrite E in H2; injection H2 as <-
       end.
  all: try (rewrite check_defined in * by assumption; discriminate).
  all: try (rewrite int_add_defined in * by assumption; discriminate).
  all: try match goal with
       | E : slot_of _ _ = None |- _ => rewrite E in H4; destruct H4; discriminate
       end.
  all: try match goal with
       | E : _ !! _ = None, E' : slot_of _ _ = Some _ |- _ =>
           apply lookup_ge_None in E; apply slot_of_bound in E'; lia
       end.
  all: try match goal with
       | E : throughput_of _ _ = None, E' : _ && _ = true |- _ =>
           apply H8 in E'; rewrite E in E'; destruct E'; discriminate
       end.
Qed.

Import Steady.

Lemma dispatches_app a b : dispatches (a ++ b) = (dispatches a + dispatches b)%nat.
Proof. unfold dispatches. rewrite List.filter_app, length_app. reflexivity. Qed.

Lemma turn_dispatches cfg env s msg ok c slot tid :
  dispatches (size_report cfg msg ++ corrupt_report ok (msg_counter s) c ++
              join_action slot tid ++
              [Create slot (new_thread env (i s)) msg; SetCtr (thread_ctr s + 1)] ++
              lap_report cfg env (i s)) = 1%nat.
Proof.
  rewrite !dispatches_app.
  unfold size_report, corrupt_report, join_action, lap_report.
  destruct (negb (Z.of_nat (length msg) =? message_size cfg)), (negb ok),
    (negb (tid =? 0)), (is_lap (i s));
    try destruct (throughput_of 1000 (lap_1000 env (i s))); reflexivity.
Qed.

(** Whenever a turn completes, it has dispatched one thread and counted
    it. *)
Lemma turn_Next cfg env s u s' :
  (iteration cfg env ;; next_i)%main s = Next u s' ->
  i s' = i s + 1 /\ in_int (i s + 1) /\
  thread_ctr s' = thread_ctr s + 1 /\
  dispatches (trace s') = S (dispatches (trace s)) /\
  length (file_writer_thread s') = length (file_writer_thread s).
Proof.
  intros H. pose proof (turn_cases cfg env s) as Hc. rewrite H in Hc.
  destruct Hc as (msg & c & ok & slot & tid & _ & _ & _ & _ & _ & Hi & Hin & _ &
                  Ht & _ & Hf & Htr).
  split; [exact Hi |]. split; [exact Hin |]. split; [exact Ht |]. split.
  - rewrite Htr, dispatches_app, turn_dispatches. lia.
  - rewrite Hf. apply length_insert.
Qed.

Lemma turn_smooth cfg env s :
  smooth cfg env s ->
  exists s' c msg,
    (iteration cfg env ;; next_i)%main s = Next tt s' /\
    loop_msg env (i s) = Some msg /\ read_int msg = Some c /\
    msg_counter s' = c.
Proof.
  intros Hs. pose proof (turn_cases cfg env s) as Hc.
  destruct ((iteration cfg env ;; next_i)%main s) as [[] s' | rc s' | s'].
  - destruct Hc as (msg & c & ok & slot & tid & H1 & H2 & _ & _ & _ & _ & _ & H3 & _).
    exists s', c, msg. auto.
  - destruct Hs as (msg & c & H1 & _). destruct Hc as [Hc _]. congruence.
  - contradiction.
Qed.

Lemma slot_of_valid cfg i :
  1 <= no_threads cfg <= MAX_THREADS -> 0 <= i -> is_Some (slot_of cfg i).
Proof.
  unfold slot_of, int_rem, MAX_THREADS. intros HN Hi.
  destruct (Z.eqb_spec (no_threads cfg) 0); [lia |].
  pose proof (Z.rem_bound_pos i (no_threads cfg) Hi ltac:(lia)) as Hb.
  destruct (Z.leb_spec 0 (Z.rem i (no_threads cfg))); [| lia].
  destruct (Z.ltb_spec (Z.rem i (no_threads cfg)) 10); [| lia].
  simpl. eauto.
Qed.

Section Loop.
Variables (cfg : Config) (env : Env) (first : Z).

Hypothesis Hcount : 1 <= message_count cfg <= INT_MAX.
Hypothesis Hthreads : 1 <= no_threads cfg <= MAX_THREADS.
Hypothesis Hsteady : steady cfg env first.

Lemma last_defined : int_sub (message_count cfg) 1 = Some (message_count cfg - 1).
Proof.
  apply int_checked_in. unfold in_int, INT_MIN, INT_MAX in *. lia.
Qed.

Lemma at_turn_smooth s :
  at_turn env first s -> i s < message_count cfg - 1 -> smooth cfg env s.
Proof.
  intros (Hi & Hctr & Hmsg & Hlen) Hlt.
  destruct (Hsteady (i s) ltac:(lia)) as (msg & c & H1 & H2 & H3 & H4).
  exists msg, c. rewrite Hmsg, Hctr.
  split; [exact H1 |]. split; [exact H2 |]. split; [exact H3 |].
  split; [apply slot_of_valid; assumption |]. split; [exact Hlen |].
  unfold in_int, INT_MIN, INT_MAX in *. repeat split; try lia. exact H4.
Qed.

Lemma at_turn_next s :
  at_turn env first s -> i s < message_count cfg - 1 ->
  exists s', (iteration cfg env ;; next_i)%main s = Next tt s' /\ at_turn env first s' /\
             i s' = i s + 1 /\
             dispatches (trace s') = S (dispatches (trace s)).
Proof.
  intros Hs Hlt. pose proof Hs as (Hi & Hctr & Hmsg & Hlen).
  destruct (turn_smooth cfg env s (at_turn_smooth s Hs Hlt))
    as (s' & c & msg & Hrun & Hm & Hc & Hmc).
  destruct (turn_Next _ _ _ _ _ Hrun) as (Hi' & _ & Hctr' & Hd & Hlen').
  exists s'. split; [exact Hrun |]. split; [| auto].
  split; [lia |]. split; [lia |]. split; [| congruence].
  rewrite Hmc, Hi'. unfold counter_before.
  destruct (Z.eqb_spec (i s + 1) 0); [lia |].
  replace (i s + 1 - 1) with (i s) by lia. rewrite Hm, Hc. reflexivity.
Qed.

(** From a turn with [n] messages to go, the loop runs exactly [n]
    more turns and then leaves. *)
Lemma loop_runs n : forall s,
  at_turn env first s -> Z.of_nat n = message_count cfg - 1 - i s ->
  (exists s', recv_loop n cfg env s = Exited s' /\
              i s' = message_count cfg - 1 /\
              thread_ctr s' = message_count cfg - 1 /\
              dispatches (trace s') = (dispatches (trace s) + n)%nat) /\
  (forall fuel, (fuel < n)%nat -> exists s', recv_loop fuel cfg env s = Running s').
Proof.
  induction n as [| n IH]; intros s Hs Hn.
  - split; [| intros fuel Hf; lia].
    exists s. simpl. rewrite last_defined.
    destruct (Z.eqb_spec (i s) (message_count cfg - 1)); [| lia].
    destruct Hs as (_ & Hctr & _). repeat split; try lia.
  - destruct (at_turn_next s Hs ltac:(lia)) as (s' & Hrun & Hs' & Hi' & Hd).
    destruct (IH s' Hs' ltac:(lia)) as ((s'' & Hex & H1 & H2 & H3) & Hless).
    split.
    + exists s''. simpl. rewrite last_defined.
      destruct (Z.eqb_spec (i s) (message_count cfg - 1)); [lia |].
      rewrite Hrun. split; [exact Hex |]. repeat split; try assumption. lia.
    + intros [| fuel] Hf; simpl; rewrite last_defined;
        (destruct (Z.eqb_spec (i s) (message_count cfg - 1)); [lia |]).
      * eauto.
      * rewrite Hrun. apply Hless. lia.
Qed.
End Loop.

(** Whenever the loop is left through its condition, the index stands
    at [message_count - 1] and one thread was dispatched and counted per
    turn. *)
Lemma loop_exit cfg env fuel : forall s s',
  recv_loop fuel cfg env s = Exited s' ->
  i s' = message_count cfg - 1 /\ i s <= i s' /\
  thread_ctr s' - thread_ctr s = i s' - i s /\
  Z.of_nat (dispatches (trace s')) - Z.of_nat (dispatches (trace s)) = i s' - i s.
Proof.
  induction fuel as [| fuel IH]; intros s s' H; simpl in H;
    destruct (int_sub (message_count cfg) 1) as [last |] eqn:El; try discriminate;
    apply int_checked_Some in El as [-> _];
    destruct (Z.eqb_spec (i s) (message_count cfg - 1)) as [Heq | Hne];
    try discriminate.
  - injection H as <-. lia.
  - injection H as <-. lia.
  - destruct ((iteration cfg env ;; next_i)%main s) as [u s1 | rc s1 | s1] eqn:Hrun;
      try discriminate.
    destruct (turn_Next _ _ _ _ _ Hrun) as (Hi & _ & Hctr & Hd & _).
    destruct (IH _ _ H) as (H1 & H2 & H3 & H4). lia.
Qed.

(** With [message_count <= 0] the loop is never left through its
    condition. *)
Lemma loop_never_exits cfg env fuel s s' :
  message_count cfg <= 0 -> 0 <= i s ->
  recv_loop fuel cfg env s <> Exited s'.
Proof.
  intros Hmc Hi H. apply loop_exit in H as (H1 & H2 & _). lia.
Qed.

(** *** Before and after the loop *)

Lemma no_summary_emit a : is_summary a = false -> preserves no_summary (emit a).
Proof.
  intros Ha s Hs. unfold no_summary in *. simpl.
  apply Forall_app. split; [exact Hs | repeat constructor; exact Ha].
Qed.

Lemma no_summary_trace {A} (m : M A) :
  (forall s, trace (state_of (m s)) = trace s) -> preserves no_summary m.
Proof. intros H s Hs. unfold no_summary. rewrite H. exact Hs. Qed.

Ltac no_summary_steps :=
  repeat first
    [ apply no_summary_emit; reflexivity
    | apply no_summary_trace; reflexivity
    | apply preserves_ret | apply preserves_get | apply preserves_return
    | apply preserves_undefined | apply preserves_defined
    | apply preserves_when
    | apply preserves_bind; [| intros ? ] ].

Lemma no_summary_recvmsg cfg answer : preserves no_summary (recvmsg cfg answer).
Proof. unfold recvmsg. destruct answer; no_summary_steps. Qed.

Lemma no_summary_turn cfg env :
  preserves no_summary (iteration cfg env ;; next_i)%main.
Proof.
  unfold iteration, next_i, receive, dispatch, count_thread, interval_report.
  no_summary_steps. apply no_summary_recvmsg.
Qed.

Lemma no_summary_setup argv cfg env : preserves no_summary (setup argv cfg env).
Proof. unfold setup. no_summary_steps. apply no_summary_recvmsg. Qed.

Lemma no_summary_recv_loop cfg env fuel : forall s,
  no_summary s -> no_summary (loop_state (recv_loop fuel cfg env s)).
Proof.
  induction fuel as [| fuel IH]; intros s Hs; simpl;
    (destruct (int_sub (message_count cfg) 1); [| exact Hs]);
    (destruct (i s =? z); [exact Hs |]); [exact Hs |].
  pose proof (no_summary_turn cfg env s Hs) as Hstep.
  destruct ((iteration cfg env ;; next_i)%main s) as [u s' | rc s' | s'];
    simpl in *; auto.
Qed.

Lemma fresh_emit a :
  is_create a = false -> is_summary a = false -> preserves fresh (emit a).
Proof.
  intros Hc Ha s (He & Hd & Hs). split; [exact He |]. split.
  - simpl. rewrite dispatches_app, Hd. unfold dispatches. simpl. rewrite Hc. reflexivity.
  - apply (no_summary_emit a Ha s Hs).
Qed.

Lemma fresh_set_msg_counter v : preserves fresh (set_msg_counter v).
Proof. intros s Hs. exact Hs. Qed.

Ltac fresh_steps :=
  repeat first
    [ apply fresh_emit; reflexivity
    | apply fresh_set_msg_counter
    | apply preserves_ret | apply preserves_get | apply preserves_return
    | apply preserves_undefined | apply preserves_defined
    | apply preserves_when
    | apply preserves_bind; [| intros ? ] ].

Lemma fresh_start : fresh start.
Proof. repeat split; constructor. Qed.

Lemma fresh_setup argv cfg env : preserves fresh (setup argv cfg env).
Proof.
  unfold setup. fresh_steps. unfold recvmsg. destruct (first_msg env); fresh_steps.
Qed.

Lemma setup_entry argv cfg env u s :
  setup argv cfg env start = Next u s -> fresh s.
Proof.
  intros H. pose proof (fresh_setup argv cfg env start fresh_start) as Hf.
  rewrite H in Hf. exact Hf.
Qed.

Lemma atoi_in_int s v : atoi s = Some v -> in_int v.
Proof. unfold atoi. intros H. apply int_checked_Some in H as [-> H]. exact H. Qed.

Lemma parse_args_ranges argv cfg :
  parse_args argv = Configured cfg ->
  in_int (message_count cfg) /\ no_threads cfg <= MAX_THREADS.
Proof.
  unfold parse_args.
  destruct argv as [| a0 [| a1 [| a2 [| a3 [| a4 rest]]]]]; try discriminate.
  destruct (atoi a2) as [size |]; [| discriminate].
  destruct (atoi a3) as [count |] eqn:E3; [| discriminate].
  apply atoi_in_int in E3.
  destruct rest as [| a5 rest].
  - intros [= <-]. simpl. unfold MAX_THREADS. split; [exact E3 | lia].
  - destruct (atoi a5) as [n |]; [| discriminate].
    intros [= <-]. simpl. rewrite clamp_is_min. split; [exact E3 | lia].
Qed.

Lemma main_loop fuel env argv cfg s0 :
  parse_args argv = Configured cfg ->
  setup argv cfg env start = Next tt s0 ->
  outcome_state (main fuel env argv) =
    match recv_loop fuel cfg env s0 with
    | Exited s' => state_of (finish cfg env s')
    | l => loop_state l
    end.
Proof.
  intros Hp Hs. unfold main. rewrite Hp, Hs.
  destruct (recv_loop fuel cfg env s0) as [s' | rc s' | s' | s']; try reflexivity.
  destruct (finish cfg env s'); reflexivity.
Qed.

(** C2: in a run that is configured with [message_count >= 1] and at
    least one writer thread and in which every message arrives, the
    loop is left with [thread_ctr = message_count - 1], and that many
    threads were created in the whole run: the message received before
    the loop only sets [msg_counter]. *)
Theorem dispatched_workers_count argv cfg env s0 :
  parse_args argv = Configured cfg ->
  setup argv cfg env start = Next tt s0 ->
  1 <= message_count cfg ->
  1 <= no_threads cfg ->
  steady cfg env (msg_counter s0) ->
  (exists s',
     recv_loop (Z.to_nat (message_count cfg - 1)) cfg env s0 = Exited s' /\
     thread_ctr s' = message_count cfg - 1 /\
     Z.of_nat (dispatches (trace s')) = message_count cfg - 1) /\
  (forall fuel s',
     recv_loop fuel cfg env s0 = Exited s' ->
     thread_ctr s' = message_count cfg - 1 /\
     Z.of_nat (dispatches (trace s')) = message_count cfg - 1).
Proof.
  intros Hp Hs Hmc HN Hsteady.
  destruct (parse_args_ranges _ _ Hp) as [[_ Hmax] HN'].
  destruct (setup_entry _ _ _ _ _ Hs) as ((Hi & Hctr & Hlen) & Hd & _).
  split.
  - destruct (loop_runs cfg env (msg_counter s0) ltac:(lia) ltac:(lia) Hsteady
                (Z.to_nat (message_count cfg - 1)) s0) as ((s' & He & _ & H2 & H3) & _).
    + split; [lia |]. split; [lia |]. split; [| exact Hlen].
      unfold counter_before. rewrite Hi. reflexivity.
    + lia.
    + exists s'. split; [exact He |]. split; [exact H2 |]. rewrite H3, Hd. lia.
  - intros fuel s' He. apply loop_exit in He as (H1 & _ & H2 & H3).
    rewrite Hd in H3. lia.
Qed.

(** *** The loop that is asked for no message *)

Section Endless.
Variables (cfg : Config) (env : Env) (first : Z).

Hypothesis Hcount : INT_MIN < message_count cfg <= 0.
Hypothesis Hthreads : 1 <= no_threads cfg <= MAX_THREADS.
Hypothesis Hsteady : steady_below INT_MAX env first.

Lemma endless_last : int_sub (message_count cfg) 1 = Some (message_count cfg - 1).
Proof.
  apply int_checked_in. unfold in_int, INT_MIN, INT_MAX in *. lia.
Qed.

Lemma endless_next s :
  at_turn env first s -> i s < INT_MAX ->
  exists s', (iteration cfg env ;; next_i)%main s = Next tt s' /\
             at_turn env first s' /\ i s' = i s + 1.
Proof.
  intros (Hi & Hctr & Hmsg & Hlen) Hlt.
  destruct (Hsteady (i s) ltac:(lia)) as (msg & c & H1 & H2 & H3 & H4).
  assert (smooth cfg env s) as Hsm.
  { exists msg, c. rewrite Hmsg, Hctr.
    split; [exact H1 |]. split; [exact H2 |]. split; [exact H3 |].
    split; [apply slot_of_valid; assumption |]. split; [exact Hlen |].
    unfold in_int, INT_MIN, INT_MAX in *.
    split; [lia |]. split; [lia |]. exact H4. }
  destruct (turn_smooth cfg env s Hsm) as (s' & c' & msg' & Hrun & Hm & Hc & Hmc).
  destruct (turn_Next _ _ _ _ _ Hrun) as (Hi' & _ & Hctr' & _ & Hlen').
  exists s'. split; [exact Hrun |]. split; [| exact Hi'].
  split; [lia |]. split; [lia |]. split; [| congruence].
  rewrite Hmc, Hi'. unfold counter_before.
  destruct (Z.eqb_spec (i s + 1) 0); [lia |].
  replace (i s + 1 - 1) with (i s) by lia. rewrite Hm, Hc. reflexivity.
Qed.

(** The loop runs [INT_MAX] turns without leaving. *)
Lemma endless_runs n : forall s,
  at_turn env first s -> i s + Z.of_nat n <= INT_MAX ->
  exists s', recv_loop n cfg env s = Running s' /\
             at_turn env first s' /\ i s' = i s + Z.of_nat n.
Proof.
  induction n as [| n IH]; intros s Hs Hn; pose proof Hs as (Hi & _);
    simpl recv_loop; rewrite endless_last;
    (destruct (Z.eqb_spec (i s) (message_count cfg - 1)); [lia |]).
  - exists s. split; [reflexivity |]. split; [exact Hs | lia].
  - destruct (endless_next s Hs ltac:(lia)) as (s1 & Hrun & Hs1 & Hi1).
    rewrite Hrun. destruct (IH s1 Hs1 ltac:(lia)) as (s' & Hl & Hs' & Hi').
    exists s'. split; [exact Hl |]. split; [exact Hs' | lia].
Qed.

(** In the turn after these, [thread_ctr++] overflows. *)
Lemma overflow_turn s :
  at_turn env first s -> i s = INT_MAX -> loop_msg env INT_MAX <> None ->
  exists s', (iteration cfg env ;; next_i)%main s = Undefined s'.
Proof.
  intros (_ & Hctr & _) Hi Hmsg. pose proof (turn_cases cfg env s) as Hc.
  destruct ((iteration cfg env ;; next_i)%main s) as [u s' | rc s' | s'].
  - destruct Hc as (msg & c & ok & slot & tid & _ & _ & _ & _ & _ & _ & _ & _ & _ &
                    Hin & _).
    unfold in_int, INT_MAX in *. lia.
  - destruct Hc as [Hc _]. rewrite Hi in Hc. contradiction.
  - eauto.
Qed.

Lemma endless_overflows n : forall s,
  at_turn env first s -> i s <= INT_MAX -> INT_MAX < i s + Z.of_nat n ->
  loop_msg env INT_MAX <> None ->
  exists s', recv_loop n cfg env s = Undef s'.
Proof.
  induction n as [| n IH]; intros s Hs Hle Hn Hmsg; [lia |].
  pose proof Hs as (Hi & _).
  simpl recv_loop. rewrite endless_last.
  destruct (Z.eqb_spec (i s) (message_count cfg - 1)); [lia |].
  destruct (Z.eq_dec (i s) INT_MAX) as [E | E].
  - destruct (overflow_turn s Hs E Hmsg) as (s' & ->). eauto.
  - destruct (endless_next s Hs ltac:(lia)) as (s1 & Hrun & Hs1 & Hi1).
    rewrite Hrun. apply IH; [exact Hs1 | lia | lia | exact Hmsg].
Qed.
End Endless.

(** With [message_count = INT_MIN] the loop condition itself
    overflows. *)
Lemma loop_condition_overflows cfg env fuel s :
  message_count cfg = INT_MIN -> recv_loop fuel cfg env s = Undef s.
Proof.
  intros E. destruct fuel; simpl; rewrite E; reflexivity.
Qed.

(** *** The sender that never stops *)

Lemma byte_val_byte_of z : byte_val (byte_of z) = z mod 256.
Proof.
  unfold byte_val, byte_of.
  pose proof (Z.mod_pos_bound z 256 ltac:(lia)) as Hb.
  destruct (Byte.of_N (Z.to_N (z mod 256))) as [b |] eqn:E.
  - apply Byte.to_of_N in E. rewrite E. apply Z2N.id. lia.
  - apply Byte.of_N_None_iff, N2Z.inj_lt in E. rewrite Z2N.id in E by lia.
    change (Z.of_N 255) with 255 in E. lia.
Qed.

Lemma four_bytes_value c :
  c mod 256 + 2 ^ 8 * ((c / 2 ^ 8) mod 256) + 2 ^ 16 * ((c / 2 ^ 16) mod 256) +
  2 ^ 24 * ((c / 2 ^ 24) mod 256) = c mod 2 ^ 32.
Proof.
  change (2 ^ 8) with 256. change (2 ^ 16) with 65536.
  change (2 ^ 24) with 16777216. change (2 ^ 32) with 4294967296.
  Z.div_mod_to_equations. lia.
Qed.

(** The counter the sender puts in front of a payload is the one
    [main] reads. *)
Lemma read_int_payload c : in_int c -> read_int (Sample.payload c) = Some c.
Proof.
  intros Hc. unfold Sample.payload, int_bytes, read_int. cbn [app].
  rewrite !byte_val_byte_of, four_bytes_value. f_equal.
  unfold to_int. unfold in_int, INT_MIN, INT_MAX in Hc.
  change (2 ^ 31) with 2147483648 in *. change (2 ^ 32) with 4294967296.
  Z.div_mod_to_equations. lia.
Qed.

Lemma env_lap_steady : steady_below INT_MAX Sample.env_lap 0.
Proof.
  intros i Hi. exists (Sample.payload (i + 1)), (i + 1).
  assert (forall c, 0 <= c <= INT_MAX -> in_int c) as Hin
    by (unfold in_int, INT_MIN, INT_MAX; intros; lia).
  split; [reflexivity |]. split; [apply read_int_payload, Hin; lia |]. split.
  - unfold counter_before. destruct (Z.eqb_spec i 0) as [-> | Hne]; [apply Hin; unfold INT_MAX; lia |].
    cbn [loop_msg Sample.env_lap]. replace (i - 1 + 1) with i by lia.
    rewrite read_int_payload by (apply Hin; lia). simpl default.
    replace (i + 1 - i) with 1 by lia. apply Hin. unfold INT_MAX. lia.
  - intros _. eexists. vm_compute. reflexivity.
Qed.

Lemma entry0_at_turn : at_turn Sample.env_lap 0 Sample.entry0.
Proof. repeat split; vm_compute; congruence. Qed.

(** *** The same loop with wrap-around *)

Lemma to_int_in_int z : in_int (to_int z).
Proof.
  unfold in_int, INT_MIN, INT_MAX, to_int.
  pose proof (Z.mod_pos_bound (z + 2 ^ 31) (2 ^ 32) ltac:(lia)). lia.
Qed.

Lemma to_int_add_l a b : to_int (to_int a + b) = to_int (a + b).
Proof.
  unfold to_int. f_equal.
  replace ((a + 2 ^ 31) mod 2 ^ 32 - 2 ^ 31 + b + 2 ^ 31)
    with ((a + 2 ^ 31) mod 2 ^ 32 + b) by lia.
  rewrite Z.add_mod_idemp_l by lia. f_equal. lia.
Qed.

(** With one writer thread every index has slot 0. *)
Lemma slot_of_one cfg i : no_threads cfg = 1 -> slot_of cfg i = Some 0%nat.
Proof.
  intros E. unfold slot_of, int_rem. rewrite E, Z.rem_1_r. reflexivity.
Qed.

(** A turn whose message arrives with its counter completes, whatever
    the counters are. *)
Lemma wrapped_turn cfg env s msg c tid :
  no_threads cfg = 1 ->
  loop_msg env (i s) = Some msg ->
  read_int msg = Some c ->
  file_writer_thread s !! 0%nat = Some tid ->
  (is_lap (i s) = true -> is_Some (throughput_of 1000 (lap_1000 env (i s)))) ->
  exists s',
    (Wrapped.iteration cfg env ;; Wrapped.next_i)%main s = Next tt s' /\
    i s' = to_int (i s + 1) /\
    length (file_writer_thread s') = length (file_writer_thread s).
Proof.
  intros HN Hm Hr Htid Hlap.
  unfold Wrapped.iteration, Wrapped.next_i, Wrapped.receive, Wrapped.count_thread,
    dispatch, interval_report, recvmsg, Wrapped.wrapping_add.
  unfold bind, get, defined, when, print, emit, set_i, set_msg_counter,
    set_thread_ctr, set_slot, return_, undefined, ret.
  rewrite Hm.
  destruct (negb (Z.of_nat (length msg) =? message_size cfg)); cbn;
    rewrite Hr; cbn;
    (destruct (negb (Wrapped.wrapping_sub c (msg_counter s) =? 1)); cbn);
    rewrite (slot_of_one cfg (i s) HN); cbn; rewrite Htid; cbn;
    (destruct (negb (tid =? 0)); cbn);
    fold (is_lap (i s)); (destruct (is_lap (i s)) eqn:El; cbn;
      [destruct (Hlap eq_refl) as (t & ->); cbn |]);
    eexists; (split; [reflexivity |]); cbn; rewrite length_insert; auto.
Qed.

Section WrappedLoop.
Variables (cfg : Config) (env : Env).

Hypothesis Hone : no_threads cfg = 1.
Hypothesis Hsender : forall i, exists msg c,
  loop_msg env i = Some msg /\ read_int msg = Some c /\
  (is_lap i = true -> is_Some (throughput_of 1000 (lap_1000 env i))).

(** The loop is left when the wrapped index first equals the wrapped
    [message_count - 1]. *)
Lemma wrapped_loop_exits n : forall s,
  in_int (i s) ->
  (0 < length (file_writer_thread s))%nat ->
  (forall j, 0 <= j < Z.of_nat n ->
             to_int (i s + j) <> Wrapped.wrapping_sub (message_count cfg) 1) ->
  to_int (i s + Z.of_nat n) = Wrapped.wrapping_sub (message_count cfg) 1 ->
  exists s', Wrapped.recv_loop n cfg env s = Exited s' /\
             i s' = Wrapped.wrapping_sub (message_count cfg) 1.
Proof.
  induction n as [| n IH]; intros s Hi Hlen Hbefore Hat.
  - rewrite Z.add_0_r, to_int_id in Hat by exact Hi.
    exists s. simpl. apply Z.eqb_eq in Hat. rewrite Hat.
    split; [reflexivity |]. apply Z.eqb_eq, Hat.
  - assert (i s <> Wrapped.wrapping_sub (message_count cfg) 1) as Hne.
    { specialize (Hbefore 0 ltac:(lia)).
      rewrite Z.add_0_r, to_int_id in Hbefore by exact Hi. exact Hbefore. }
    cbn [Wrapped.recv_loop]. apply Z.eqb_neq in Hne. rewrite Hne.
    destruct (Hsender (i s)) as (msg & c & Hm & Hr & Hlap).
    destruct (lookup_lt_is_Some_2 (file_writer_thread s) 0 Hlen) as (tid & Htid).
    destruct (wrapped_turn cfg env s msg c tid Hone Hm Hr Htid Hlap)
      as (s1 & Hrun & Hi1 & Hlen1).
    rewrite Hrun. apply IH.
    + rewrite Hi1. apply to_int_in_int.
    + rewrite Hlen1. exact Hlen.
    + intros j Hj. rewrite Hi1, to_int_add_l.
      replace (i s + 1 + j) with (i s + (j + 1)) by lia. apply Hbefore. lia.
    + rewrite Hi1, to_int_add_l, <- Hat. f_equal. lia.
Qed.
End WrappedLoop.

Lemma parse_argv0 : parse_args Sample.argv0 = Configured Sample.cfg0.
Proof. reflexivity. Qed.

Lemma setup_argv0 :
  setup Sample.argv0 Sample.cfg0 Sample.env_lap start = Next tt Sample.entry0.
Proof. vm_compute. reflexivity. Qed.

Lemma env_lap_sender i :
  exists msg c,
    loop_msg Sample.env_lap i = Some msg /\ read_int msg = Some c /\
    (is_lap i = true -> is_Some (throughput_of 1000 (lap_1000 Sample.env_lap i))).
Proof.
  eexists _, _. split; [reflexivity |]. split; [reflexivity |].
  intros _. eexists. vm_compute. reflexivity.
Qed.

Lemma finish_argv0 s :
  finish Sample.cfg0 Sample.env_lap s =
    Return 0 {| i := i s; msg_counter := msg_counter s; thread_ctr := thread_ctr s;
                file_writer_thread := file_writer_thread s;
                trace := trace s ++
                  [Print (PSummary 100 0 0 (megabytes_of 0 100) (megabits_of 0 100))] |}.
Proof. vm_compute. reflexivity. Qed.

Lemma wrapped_main_argv0 n s :
  Wrapped.recv_loop n Sample.cfg0 Sample.env_lap Sample.entry0 = Exited s ->
  exists s',
    Wrapped.main n Sample.env_lap Sample.argv0 = Exit 0 s' /\
    last (trace s') =
      Some (Print (PSummary 100 0 0 (megabytes_of 0 100) (megabits_of 0 100))).
Proof.
  intros Hl. unfold Wrapped.main. rewrite parse_argv0, setup_argv0, Hl, finish_argv0.
  eexists. split; [reflexivity |]. cbn [trace]. apply last_snoc.
Qed.

(** C10, against the claim: asked for 0 messages, with the one writer
    thread there is by default and a sender that never stops, the loop
    does not go on for ever.  It runs 2^31 - 1 turns without its
    condition becoming false; in the next turn [thread_ctr++]
    overflows, which is undefined behaviour.  Where [int] arithmetic
    wraps around, the index then climbs from -2^31 to -1, which is
    [message_count - 1]: the loop is left after 2^32 - 1 turns, the
    summary is printed and [main] returns 0. *)
Lemma loop_for_no_message_is_left :
  (exists s,
     recv_loop (Z.to_nat INT_MAX) Sample.cfg0 Sample.env_lap Sample.entry0 = Running s /\
     i s = INT_MAX) /\
  (exists s,
     recv_loop (Z.to_nat (INT_MAX + 1)) Sample.cfg0 Sample.env_lap Sample.entry0
       = Undef s) /\
  (exists s,
     Wrapped.recv_loop (Z.to_nat (2 ^ 32 - 1)) Sample.cfg0 Sample.env_lap Sample.entry0
       = Exited s /\
     i s = -1) /\
  (exists s,
     Wrapped.main (Z.to_nat (2 ^ 32 - 1)) Sample.env_lap Sample.argv0 = Exit 0 s /\
     last (trace s) =
       Some (Print (PSummary 100 0 0 (megabytes_of 0 100) (megabits_of 0 100)))).
Proof.
  assert (INT_MIN < message_count Sample.cfg0 <= 0) as Hc
    by (unfold INT_MIN; simpl; lia).
  assert (1 <= no_threads Sample.cfg0 <= MAX_THREADS) as Ht
    by (unfold MAX_THREADS; simpl; lia).
  assert (i Sample.entry0 = 0) as Hi0 by reflexivity.
  assert (0 <= INT_MAX) as Hmax by (unfold INT_MAX; lia).
  assert (exists s,
            Wrapped.recv_loop (Z.to_nat (2 ^ 32 - 1)) Sample.cfg0 Sample.env_lap
              Sample.entry0 = Exited s /\ i s = -1) as (s & Hl & Hs).
  { apply (wrapped_loop_exits Sample.cfg0 Sample.env_lap eq_refl env_lap_sender).
    - rewrite Hi0. unfold in_int, INT_MIN, INT_MAX. lia.
    - apply Nat.lt_0_succ.
    - intros j Hj. rewrite Hi0, Z2Nat.id in * by lia.
      change (Wrapped.wrapping_sub (message_count Sample.cfg0) 1) with (-1).
      unfold to_int. intros E. revert E.
      change (2 ^ 31) with 2147483648. change (2 ^ 32) with 4294967296 in *.
      Z.div_mod_to_equations. lia.
    - rewrite Hi0, Z2Nat.id by lia. reflexivity. }
  split; [| split; [| split]].
  - destruct (endless_runs Sample.cfg0 Sample.env_lap 0 Hc Ht env_lap_steady
                (Z.to_nat INT_MAX) Sample.entry0 entry0_at_turn)
      as (s1 & H1 & _ & H2).
    + rewrite Hi0, Z2Nat.id by exact Hmax. lia.
    + exists s1. split; [exact H1 |]. rewrite H2, Hi0, Z2Nat.id by exact Hmax. lia.
  - apply (endless_overflows Sample.cfg0 Sample.env_lap 0 Hc Ht env_lap_steady
             (Z.to_nat (INT_MAX + 1)) Sample.entry0 entry0_at_turn).
    + rewrite Hi0. exact Hmax.
    + rewrite Hi0, Z2Nat.id by lia. lia.
    + discriminate.
  - exists s. auto.
  - apply (wrapped_main_argv0 _ s Hl).
Qed.

(** C10, as amended: the loop is left through its condition exactly
    when [message_count >= 1], and then after [message_count - 1]
    turns, no fewer.  With [message_count <= 0] the index, which starts
    at 0 and goes up by one, does not equal [message_count - 1] in any
    turn the semantics of the source defines, and the aggregate report
    is not printed in them: as long as the messages arrive, the loop
    runs 2^31 - 1 turns and the turn after these overflows
    [thread_ctr], which is undefined behaviour; with
    [message_count = -2^31] the loop condition itself overflows. *)
Theorem loop_terminates_iff argv cfg env s0 :
  parse_args argv = Configured cfg ->
  setup argv cfg env start = Next tt s0 ->
  1 <= no_threads cfg ->
  steady cfg env (msg_counter s0) ->
  ((exists fuel s', recv_loop fuel cfg env s0 = Exited s') <->
   1 <= message_count cfg) /\
  (1 <= message_count cfg ->
   exists s',
     recv_loop (Z.to_nat (message_count cfg - 1)) cfg env s0 = Exited s' /\
     i s' = message_count cfg - 1 /\
     forall fuel, (fuel < Z.to_nat (message_count cfg - 1))%nat ->
                  exists s'', recv_loop fuel cfg env s0 = Running s'') /\
  (message_count cfg <= 0 ->
   forall fuel,
     (forall s', recv_loop fuel cfg env s0 <> Exited s') /\
     no_summary (outcome_state (main fuel env argv))) /\
  (INT_MIN < message_count cfg <= 0 ->
   steady_below INT_MAX env (msg_counter s0) ->
   loop_msg env INT_MAX <> None ->
   forall fuel,
     (Z.of_nat fuel <= INT_MAX ->
      exists s', recv_loop fuel cfg env s0 = Running s' /\
                 i s' = Z.of_nat fuel /\ thread_ctr s' = Z.of_nat fuel) /\
     (INT_MAX < Z.of_nat fuel ->
      exists s', recv_loop fuel cfg env s0 = Undef s')) /\
  (message_count cfg = INT_MIN ->
   forall fuel, recv_loop fuel cfg env s0 = Undef s0).
Proof.
  intros Hp Hs HN Hsteady.
  destruct (parse_args_ranges _ _ Hp) as [[_ Hmax] HN'].
  destruct (setup_entry _ _ _ _ _ Hs) as ((Hi & Hctr & Hlen) & Hd & Hns).
  assert (at_turn env (msg_counter s0) s0) as Hat.
  { split; [lia |]. split; [lia |]. split; [| exact Hlen].
    unfold counter_before. rewrite Hi. reflexivity. }
  assert (1 <= message_count cfg ->
          exists s',
            recv_loop (Z.to_nat (message_count cfg - 1)) cfg env s0 = Exited s' /\
            i s' = message_count cfg - 1 /\
            forall fuel, (fuel < Z.to_nat (message_count cfg - 1))%nat ->
                         exists s'', recv_loop fuel cfg env s0 = Running s'') as Hrun.
  { intros Hmc.
    destruct (loop_runs cfg env (msg_counter s0) ltac:(lia) ltac:(lia) Hsteady
                (Z.to_nat (message_count cfg - 1)) s0 Hat) as ((s' & He & H1 & _) & Hless).
    - lia.
    - exists s'. auto. }
  assert (message_count cfg <= 0 ->
          forall fuel s', recv_loop fuel cfg env s0 <> Exited s') as Hnever.
  { intros Hmc fuel s'. apply loop_never_exits; lia. }
  split; [| split; [| split; [| split]]].
  - split.
    + intros (fuel & s' & He).
      destruct (Z.le_gt_cases 1 (message_count cfg)) as [H | H]; [exact H |].
      destruct (Hnever ltac:(lia) fuel s' He).
    + intros Hmc. destruct (Hrun Hmc) as (s' & He & _). eauto.
  - exact Hrun.
  - intros Hmc fuel. split; [apply Hnever, Hmc |].
    rewrite (main_loop fuel env argv cfg s0 Hp Hs).
    pose proof (no_summary_recv_loop cfg env fuel s0 Hns) as Hl.
    destruct (recv_loop fuel cfg env s0) as [s' | rc s' | s' | s'] eqn:He;
      try exact Hl.
    destruct (Hnever Hmc fuel s' He).
  - intros Hmc Hbelow Hmsg fuel. split; intros Hfuel.
    + destruct (endless_runs cfg env (msg_counter s0) Hmc ltac:(lia) Hbelow fuel s0 Hat)
        as (s' & Hl & (_ & Hc' & _) & Hi'); [lia |].
      exists s'. split; [exact Hl |]. lia.
    + apply (endless_overflows cfg env (msg_counter s0) Hmc ltac:(lia) Hbelow fuel s0 Hat);
        [unfold INT_MAX; lia | lia | exact Hmsg].
  - intros Hmc fuel. apply loop_condition_overflows, Hmc.
Qed.

Lemma dispatched_workers_count_witness :
  exists s',
    recv_loop 4 Sample.cfg5 Sample.env5 Sample.entry5 = Exited s' /\
    thread_ctr s' = 4 /\
    Z.of_nat (dispatches (trace s')) = 4.
Proof.
  refine (proj1 (dispatched_workers_count Sample.argv5 Sample.cfg5 Sample.env5
                   Sample.entry5 eq_refl eq_refl _ _ _)).
  - simpl. lia.
  - simpl. lia.
  - intros i Hi. simpl in Hi.
    assert (i = 0 \/ i = 1 \/ i = 2 \/ i = 3) as [-> | [-> | [-> | ->]]] by lia;
      (eexists; eexists; split; [reflexivity |]; split; [reflexivity |];
       split; [vm_compute; split; discriminate | intros H; discriminate H]).
Defined.

Lemma loop_terminates_iff_witness :
  ((exists fuel s', recv_loop fuel Sample.cfg5 Sample.env5 Sample.entry5 = Exited s') <->
   1 <= 5) /\
  (exists s',
     recv_loop 3 Sample.cfg0 Sample.env_lap Sample.entry0 = Running s' /\
     i s' = 3 /\ thread_ctr s' = 3).
Proof.
  split.
  - refine (proj1 (loop_terminates_iff Sample.argv5 Sample.cfg5 Sample.env5
                     Sample.entry5 eq_refl eq_refl _ _)).
    + simpl. lia.
    + intros i Hi. simpl in Hi.
      assert (i = 0 \/ i = 1 \/ i = 2 \/ i = 3) as [-> | [-> | [-> | ->]]] by lia;
        (eexists; eexists; split; [reflexivity |]; split; [reflexivity |];
         split; [vm_compute; split; discriminate | intros H; discriminate H]).
  - refine (proj1 (proj1 (proj2 (proj2 (proj2
              (loop_terminates_iff Sample.argv0 Sample.cfg0 Sample.env_lap
                 Sample.entry0 eq_refl eq_refl _ _)))) _ _ _ 3%nat) _).
    + simpl. lia.
    + intros i Hi. simpl in Hi. lia.
    + unfold INT_MIN. simpl. lia.
    + exact env_lap_steady.
    + discriminate.
    + unfold INT_MAX. simpl. lia.
Defined.

(** ** The integrity check *)





(** ** Doubles *)

Lemma shr_1_m r : 0 <= shr_m r -> shr_m (shr_1 r) = shr_m r / 2.
Proof.
  destruct r as [m rb sb]. simpl. intros Hm.
  destruct m as [| [p | p |] | p]; simpl; try reflexivity; try lia.
  - rewrite (Pos2Z.inj_xI p). apply Z.div_unique with (r := 1); lia.
  - rewrite (Pos2Z.inj_xO p). apply Z.div_unique with (r := 0); lia.
Qed.

Lemma shr_1_nonneg r : 0 <= shr_m r -> 0 <= shr_m (shr_1 r).
Proof. intros H. rewrite shr_1_m by exact H. apply Z.div_pos; lia. Qed.

Lemma iter_shr_1_m k : forall r,
  0 <= shr_m r ->
  shr_m (SpecFloat.iter_pos shr_1 k r) = shr_m r / 2 ^ Zpos k /\
  0 <= shr_m (SpecFloat.iter_pos shr_1 k r).
Proof.
  induction k as [k IH | k IH |]; intros r Hr; simpl.
  - pose proof (shr_1_nonneg r Hr) as H1.
    destruct (IH (shr_1 r) H1) as [E2 H2].
    destruct (IH _ H2) as [E3 H3]. split; [| exact H3].
    rewrite E3, E2, shr_1_m by exact Hr.
    assert (0 < 2 ^ Zpos k) as HP by (apply Z.pow_pos_nonneg; lia).
    replace (2 ^ Zpos k~1) with (2 * 2 ^ Zpos k * 2 ^ Zpos k).
    + rewrite !Z.div_div by lia. f_equal. lia.
    + rewrite (Pos2Z.inj_xI k). replace (2 * Zpos k + 1) with (Zpos k + Zpos k + 1) by lia.
      rewrite !Z.pow_add_r by lia. lia.
  - destruct (IH r Hr) as [E2 H2].
    destruct (IH _ H2) as [E3 H3]. split; [| exact H3].
    rewrite E3, E2.
    assert (0 < 2 ^ Zpos k) as HP by (apply Z.pow_pos_nonneg; lia).
    replace (2 ^ Zpos k~0) with (2 ^ Zpos k * 2 ^ Zpos k).
    + rewrite !Z.div_div by lia. reflexivity.
    + rewrite (Pos2Z.inj_xO k). replace (2 * Zpos k) with (Zpos k + Zpos k) by lia.
      rewrite !Z.pow_add_r by lia. lia.
  - split; [| apply shr_1_nonneg, Hr]. rewrite shr_1_m by exact Hr. reflexivity.
Qed.

Lemma digits2_pos_lower p : 2 ^ (Zpos (digits2_pos p) - 1) <= Zpos p.
Proof.
  induction p as [p IH | p IH |]; simpl digits2_pos; [| | simpl; lia].
  - rewrite Pos2Z.inj_succ, (Pos2Z.inj_xI p).
    replace (Z.succ (Zpos (digits2_pos p)) - 1) with (Z.succ (Zpos (digits2_pos p) - 1)) by lia.
    rewrite Z.pow_succ_r by lia. lia.
  - rewrite Pos2Z.inj_succ, (Pos2Z.inj_xO p).
    replace (Z.succ (Zpos (digits2_pos p)) - 1) with (Z.succ (Zpos (digits2_pos p) - 1)) by lia.
    rewrite Z.pow_succ_r by lia. lia.
Qed.

(** Rounding a positive significand to 53 bits never gives 0 (as long
    as the exponent is no smaller than that of the subnormals). *)
Lemma shr_fexp_positive m e l :
  0 < m -> Double.prec - 3 - Double.emax <= e ->
  0 < shr_m (fst (shr_fexp Double.prec Double.emax m e l)) /\
  e <= snd (shr_fexp Double.prec Double.emax m e l).
Proof.
  intros Hm He. unfold shr_fexp, shr, fexp, emin, Double.prec, Double.emax in *.
  destruct m as [| p | p]; try lia. simpl Zdigits2.
  pose proof (digits2_pos_lower p) as Hd.
  set (d := Zpos (digits2_pos p)) in *.
  assert (shr_m (shr_record_of_loc (Zpos p) l) = Zpos p) as Hrec
    by (destruct l as [| []]; reflexivity).
  destruct (Z.max (d + e - 53) (3 - 1024 - 53) - e) as [| n | n] eqn:En; simpl.
  - rewrite Hrec. lia.
  - destruct (iter_shr_1_m n (shr_record_of_loc (Zpos p) l)) as [E _];
      [rewrite Hrec; lia |].
    rewrite E, Hrec. split; [| lia].
    assert (Zpos n <= d - 53) by lia.
    apply Z.div_str_pos. split; [apply Z.pow_pos_nonneg; lia |].
    etransitivity; [| exact Hd]. apply Z.pow_le_mono_r; lia.
  - rewrite Hrec. lia.
Qed.

Lemma round_nearest_even_ge m l : m <= round_nearest_even m l.
Proof. destruct l as [| []]; simpl; try lia. destruct (Z.even m); lia. Qed.

Lemma binary_round_aux_not_zero s m e l :
  0 < m -> Double.prec - 3 - Double.emax <= e ->
  Double.is_zero (binary_round_aux Double.prec Double.emax s m e l) = false.
Proof.
  intros Hm He. unfold binary_round_aux.
  destruct (shr_fexp_positive m e l Hm He) as [H1 H2].
  destruct (shr_fexp Double.prec Double.emax m e l) as [mrs' e'].
  simpl in H1, H2.
  pose proof (round_nearest_even_ge (shr_m mrs') (loc_of_shr_record mrs')) as Hr.
  destruct (shr_fexp_positive (round_nearest_even (shr_m mrs') (loc_of_shr_record mrs'))
              e' loc_Exact ltac:(lia) ltac:(lia)) as [H3 _].
  destruct (shr_fexp Double.prec Double.emax _ e' loc_Exact) as [mrs'' e''].
  simpl in H3. destruct (shr_m mrs'') as [| q | q]; try lia.
  destruct (e'' <=? Double.emax - Double.prec); reflexivity.
Qed.

(** The conversion of a non-zero integer to [double] is not zero. *)
Lemma of_Z_not_zero z : z <> 0 -> Double.is_zero (Double.of_Z z) = false.
Proof.
  intros Hz. unfold Double.of_Z, binary_normalize.
  destruct z as [| p | p]; [contradiction | |];
    unfold binary_round, shl_align;
    set (f := fexp Double.prec Double.emax (Zpos (digits2_pos p) + 0));
    (assert (Double.prec - 3 - Double.emax <= f)
       by (unfold f, fexp, emin, Double.prec, Double.emax; lia));
    (destruct (f - 0) as [| n | n] eqn:En;
       apply binary_round_aux_not_zero;
       unfold Double.prec, Double.emax in *; lia).
Qed.

(** [(unsigned long) x] is the integer part of [x]. *)
Lemma to_unsigned_long_integer_part x t :
  Double.to_unsigned_long x = Some t ->
  exists q, Double.to_Q x = Some q /\
            (inject_Z t <= Qabs q)%Q /\ (Qabs q < inject_Z t + 1)%Q.
Proof.
  unfold Double.to_unsigned_long. destruct x as [s | s | | s m e]; simpl; try discriminate.
  - intros [= <-]. exists 0%Q. split; [reflexivity |]. split; [discriminate | reflexivity].
  - set (a := Z.shiftl (Zpos m) e).
    assert (0 <= a) as Ha by (apply Z.shiftl_nonneg; lia).
    intros H.
    assert (t = a) as ->.
    { destruct s.
      - destruct (0 <=? - a) eqn:E1; [| discriminate].
        apply Z.leb_le in E1.
        destruct (- a <? ULONG_MOD); [| discriminate]. injection H as <-. lia.
      - destruct (0 <=? a); [| discriminate].
        destruct (a <? ULONG_MOD); [| discriminate]. injection H as <-. reflexivity. }
    clear H. eexists. split; [reflexivity |].
    assert (forall b : Q, (0 <= b)%Q ->
              Qabs (if s then (- b)%Q else b) == b)%Q as Habs.
    { intros b Hb. destruct s; [rewrite Qabs_opp |]; apply Qabs_pos, Hb. }
    destruct (Z.leb_spec 0 e) as [He | He].
    + rewrite Habs.
      * unfold a. rewrite Z.shiftl_mul_pow2 by exact He.
        split; [apply Qle_refl |].
        rewrite <- (inject_Z_plus _ 1), <- Zlt_Qlt. lia.
      * rewrite <- (Zle_Qle 0). apply Z.mul_nonneg_nonneg; [lia |].
        apply Z.pow_nonneg. lia.
    + rewrite Habs by (unfold Qle; simpl; lia).
      assert (Zpos (2 ^ Z.to_pos (- e)) = 2 ^ (- e)) as Hd.
      { rewrite Pos2Z.inj_pow, Z2Pos.id by lia. reflexivity. }
      assert (0 < 2 ^ (- e)) as Hpos by (apply Z.pow_pos_nonneg; lia).
      assert (a = Zpos m / 2 ^ (- e)) as Hdiv
        by (unfold a; apply Z.shiftl_div_pow2; lia).
      pose proof (Z.mul_div_le (Zpos m) (2 ^ (- e)) Hpos) as Hlo.
      pose proof (Z.mul_succ_div_gt (Zpos m) (2 ^ (- e)) Hpos) as Hhi.
      rewrite <- Hdiv in Hlo, Hhi.
      unfold Qle, Qlt. cbn [Qnum Qden inject_Z Qplus].
      rewrite Hd. split; lia.
Qed.

(** ** Reports *)

(** C6, against the claim: the throughput is cut off, not rounded.  A
    lap of 1000 messages in 600 microseconds is reported as 1666666
    messages per second where rounding gives 1666667, and the run of
    1002 messages in 500500 microseconds ends with 2001 where rounding
    gives 2002.  The megabits are computed from the product
    [throughput * message_size * 8] in [unsigned long], which is not 8
    times the megabytes once the product wraps (here with the size
    argument -1). *)
Lemma throughput_truncated_not_rounded :
  throughput_of 1000 600 = Some 1666666 /\
  spec_throughput 1000 600 = 1666667 /\
  exit_code (main 1100 Sample.env_lap Sample.argv_lap) = Some 0 /\
  Sample.figures (actions_of (main 1100 Sample.env_lap Sample.argv_lap)) =
    [(2000, "0.200", "1.600"); (2001, "0.200", "1.601")] /\
  spec_throughput 1002 500500 = 2002 /\
  megabits_of 2000 (to_ulong (-1)) <>
    Double.mul (Double.of_Z 8) (megabytes_of 2000 (to_ulong (-1))).
Proof.
  split; [vm_compute; reflexivity |]. split; [vm_compute; reflexivity |].
  split; [vm_compute; reflexivity |]. split; [vm_compute; reflexivity |].
  split; [vm_compute; reflexivity |]. vm_compute. discriminate.
Qed.

Lemma clamp_elapsed_not_zero elapsed : clamp_elapsed elapsed <> 0.
Proof. unfold clamp_elapsed. destruct (Z.eqb_spec elapsed 0); lia. Qed.

(** The end of [main] once [zmq_msg_close] has succeeded: the summary
    is printed with the throughput computed from the clamped reading of
    the stopwatch, whatever the last two calls return; when that
    throughput is undefined, so is the end of [main]. *)
Lemma finish_uses_clamp cfg env s :
  zmq_msg_close_rc env = 0 ->
  match Double.to_unsigned_long
          (Double.mul (Double.div (Double.of_Z (message_count cfg))
                                  (Double.of_Z (clamp_elapsed (lap_total env))))
                      (Double.of_Z 1000000)) with
  | Some t =>
      exists rc s' rest,
        finish cfg env s = Return rc s' /\
        trace s' = trace s ++
          Print (PSummary (to_int (message_size cfg)) (message_count cfg) (to_int t)
                          (megabytes_of t (message_size cfg))
                          (megabits_of t (message_size cfg))) :: rest
  | None => finish cfg env s = Undefined s
  end.
Proof.
  intros Hclose. unfold finish, throughput_of. rewrite Hclose.
  unfold bind, when, print, emit, return_, defined, ret, undefined. cbn.
  destruct (Double.to_unsigned_long _) as [t |]; [| reflexivity]. cbn.
  destruct (zmq_close_rc env =? 0); cbn;
    [destruct (zmq_term_rc env =? 0); cbn |];
    eexists _, _, _; (split; [reflexivity |]); cbn; rewrite <- ?app_assoc; reflexivity.
Qed.

(** The interval report, whole: nothing unless the index is a positive
    multiple of 1000; then one line with the throughput of the last
    1000 messages, or undefined behaviour when that is undefined. *)
Lemma interval_report_cases cfg env i s :
  if (i >? 0) && (Z.rem i 1000 =? 0) then
    match Double.to_unsigned_long
            (Double.mul (Double.div (Double.of_Z 1000) (Double.of_Z (lap_1000 env i)))
                        (Double.of_Z 1000000)) with
    | Some t =>
        exists s',
          interval_report cfg env i s = Next tt s' /\
          trace s' = trace s ++
            [Print (PInterval (to_int t) (megabytes_of t (message_size cfg))
                              (megabits_of t (message_size cfg)))]
    | None => interval_report cfg env i s = Undefined s
    end
  else interval_report cfg env i s = Next tt s.
Proof.
  unfold interval_report, throughput_of, when.
  destruct ((i >? 0) && (Z.rem i 1000 =? 0)); [| reflexivity].
  unfold bind, defined, print, emit, ret, undefined.
  destruct (Double.to_unsigned_long _) as [t |]; [| reflexivity].
  eexists. split; reflexivity.
Qed.

(** C6, as amended: in every report, the interval lines and the
    summary alike, the throughput is the [unsigned long] the double
    [count / elapsed * 1000000] is converted to, which is its integer
    part (the fraction is dropped), with 1000 and the reading of the
    interval stopwatch, or the message count and the clamped reading of
    the stopwatch of the run; the megabytes and the megabits are the
    products [throughput * message_size] and
    [throughput * message_size * 8], reduced modulo 2^64, divided by
    1000000 as doubles.  For 1000 messages in 500000 microseconds and a
    message size of 100 these are 2000, the double nearest to 0.2 and
    the double nearest to 1.6 (8 times the megabytes), printed as 0.200
    and 1.600, also in a whole run. *)
Theorem report_figures :
  (forall count elapsed t,
     Double.to_unsigned_long
       (Double.mul (Double.div (Double.of_Z count) (Double.of_Z elapsed))
                   (Double.of_Z 1000000)) = Some t ->
     exists q,
       Double.to_Q (Double.mul (Double.div (Double.of_Z count) (Double.of_Z elapsed))
                               (Double.of_Z 1000000)) = Some q /\
       (inject_Z t <= Qabs q)%Q /\ (Qabs q < inject_Z t + 1)%Q) /\
  (forall cfg env i s,
     if (i >? 0) && (Z.rem i 1000 =? 0) then
       match Double.to_unsigned_long
               (Double.mul (Double.div (Double.of_Z 1000) (Double.of_Z (lap_1000 env i)))
                           (Double.of_Z 1000000)) with
       | Some t =>
           exists s',
             interval_report cfg env i s = Next tt s' /\
             trace s' = trace s ++
               [Print (PInterval
                         (to_int t)
                         (Double.div (Double.of_Z ((t * message_size cfg) mod 2 ^ 64))
                                     (Double.of_Z 1000000))
                         (Double.div (Double.of_Z ((t * message_size cfg * 8) mod 2 ^ 64))
                                     (Double.of_Z 1000000)))]
       | None => interval_report cfg env i s = Undefined s
       end
     else interval_report cfg env i s = Next tt s) /\
  (forall cfg env s,
     zmq_msg_close_rc env = 0 ->
     match Double.to_unsigned_long
             (Double.mul (Double.div (Double.of_Z (message_count cfg))
                                     (Double.of_Z (clamp_elapsed (lap_total env))))
                         (Double.of_Z 1000000)) with
     | Some t =>
         exists rc s' rest,
           finish cfg env s = Return rc s' /\
           trace s' = trace s ++
             Print (PSummary
                      (to_int (message_size cfg)) (message_count cfg) (to_int t)
                      (Double.div (Double.of_Z ((t * message_size cfg) mod 2 ^ 64))
                                  (Double.of_Z 1000000))
                      (Double.div (Double.of_Z ((t * message_size cfg * 8) mod 2 ^ 64))
                                  (Double.of_Z 1000000))) :: rest
     | None => finish cfg env s = Undefined s
     end) /\
  throughput_of 1000 500000 = Some 2000 /\
  megabytes_of 2000 100 = Double.div (Double.of_Z 1) (Double.of_Z 5) /\
  megabits_of 2000 100 = Double.div (Double.of_Z 8) (Double.of_Z 5) /\
  megabits_of 2000 100 = Double.mul (Double.of_Z 8) (megabytes_of 2000 100) /\
  Double.fmt_3f (megabytes_of 2000 100) = "0.200" /\
  Double.fmt_3f (megabits_of 2000 100) = "1.600" /\
  Sample.figures (actions_of (main 1100 Sample.env_lap Sample.argv_lap)) !! 0%nat
    = Some (2000, "0.200", "1.600").
Proof.
  split.
  { intros count elapsed t H. apply to_unsigned_long_integer_part, H. }
  split; [exact interval_report_cases |].
  split; [exact finish_uses_clamp |].
  do 6 (split; [vm_compute; reflexivity |]).
  vm_compute. reflexivity.
Qed.

Lemma report_figures_witness :
  exists q,
    Double.to_Q (Double.mul (Double.div (Double.of_Z 1000) (Double.of_Z 600))
                            (Double.of_Z 1000000)) = Some q /\
    (inject_Z 1666666 <= Qabs q)%Q /\ (Qabs q < inject_Z 1666666 + 1)%Q.
Proof.
  apply (proj1 report_figures 1000 600 1666666). vm_compute. reflexivity.
Defined.

(** C8: the end of [main] divides the message count by the reading of
    the stopwatch of the whole run with 1 in the place of a reading of
    0 (and by the reading itself otherwise), so the double it divides
    by is never zero; with a reading of 0 the report is that of a run
    of 1 microsecond, as in the run of five messages, which then
    reports 5000000 messages per second and returns 0. *)
Theorem zero_elapsed_counts_as_one :
  clamp_elapsed 0 = 1 /\
  (forall elapsed, elapsed <> 0 -> clamp_elapsed elapsed = elapsed) /\
  (forall elapsed,
     Double.is_zero (Double.of_Z (clamp_elapsed elapsed)) = false) /\
  (forall cfg env s,
     zmq_msg_close_rc env = 0 ->
     match Double.to_unsigned_long
             (Double.mul (Double.div (Double.of_Z (message_count cfg))
                                     (Double.of_Z (clamp_elapsed (lap_total env))))
                         (Double.of_Z 1000000)) with
     | Some t =>
         exists rc s' rest,
           finish cfg env s = Return rc s' /\
           trace s' = trace s ++
             Print (PSummary (to_int (message_size cfg)) (message_count cfg) (to_int t)
                             (megabytes_of t (message_size cfg))
                             (megabits_of t (message_size cfg))) :: rest
     | None => finish cfg env s = Undefined s
     end) /\
  (forall cfg env s,
     finish cfg (with_lap_total env 0) s = finish cfg (with_lap_total env 1) s) /\
  throughput_of 5 (clamp_elapsed 0) = Some 5000000 /\
  exit_code (main 10 (Sample.env_of [0; 1; 2; 3; 4] 0) Sample.argv5) = Some 0 /\
  Sample.figures (actions_of (main 10 (Sample.env_of [0; 1; 2; 3; 4] 0) Sample.argv5))
    = [(5000000, "20.000", "160.000")].
Proof.
  split; [reflexivity |]. split.
  { intros elapsed He. unfold clamp_elapsed.
    destruct (Z.eqb_spec elapsed 0); [contradiction | reflexivity]. }
  split.
  { intros elapsed. apply of_Z_not_zero, clamp_elapsed_not_zero. }
  split; [apply finish_uses_clamp |].
  split; [reflexivity |].
  split; [vm_compute; reflexivity |].
  split; vm_compute; reflexivity.
Qed.

Lemma zero_elapsed_counts_as_one_witness :
  match Double.to_unsigned_long
          (Double.mul (Double.div (Double.of_Z (message_count Sample.cfg5))
                         (Double.of_Z
                            (clamp_elapsed (lap_total (Sample.env_of [0; 1; 2; 3; 4] 0)))))
                      (Double.of_Z 1000000)) with
  | Some t =>
      exists rc s' rest,
        finish Sample.cfg5 (Sample.env_of [0; 1; 2; 3; 4] 0) Sample.entry5
          = Return rc s' /\
        trace s' = trace Sample.entry5 ++
          Print (PSummary (to_int (message_size Sample.cfg5))
                          (message_count Sample.cfg5) (to_int t)
                          (megabytes_of t (message_size Sample.cfg5))
                          (megabits_of t (message_size Sample.cfg5))) :: rest
  | None =>
      finish Sample.cfg5 (Sample.env_of [0; 1; 2; 3; 4] 0) Sample.entry5
        = Undefined Sample.entry5
  end.
Proof.
  apply (proj1 (proj2 (proj2 (proj2 zero_elapsed_counts_as_one))) Sample.cfg5
           (Sample.env_of [0; 1; 2; 3; 4] 0) Sample.entry5).
  reflexivity.
Defined.

(** * Further properties *)

Import Tally.

(** ** How [main] ends *)

Lemma parse_usage argv : parse_args argv = Usage <-> (length argv < 5)%nat.
Proof.
  unfold parse_args.
  destruct argv as [| a0 [| a1 [| a2 [| a3 [| a4 rest]]]]]; simpl;
    try (split; [intros _; lia | reflexivity]).
  split; [| lia].
  destruct (atoi a2); [| discriminate].
  destruct (atoi a3); [| discriminate].
  destruct rest; [discriminate |]. destruct (atoi s); discriminate.
Qed.

Section Returns.
Context {Q : Z -> Main -> Prop}.

Lemma returns_bind {A B} (m : M A) (k : A -> M B) :
  returns Q m -> (forall a, returns Q (k a)) -> returns Q (bind m k).
Proof.
  intros Hm Hk s rc s' H. unfold bind in H.
  destruct (m s) as [a s1 | rc1 s1 | s1] eqn:E; try discriminate.
  - eapply Hk, H.
  - injection H as <- <-. eapply Hm, E.
Qed.

Lemma returns_never {A} (m : M A) :
  (forall s rc s', m s <> Return rc s') -> returns Q m.
Proof. intros H s rc s' E. destruct (H _ _ _ E). Qed.

Lemma returns_when b m : returns Q m -> returns Q (when b m).
Proof. destruct b; [auto | intros _ s rc s' H; discriminate]. Qed.

Lemma returns_defined {A} (o : option A) : returns Q (defined o).
Proof. destruct o; intros s rc s' H; discriminate. Qed.
End Returns.

Lemma fails_error {A} call :
  returns fails (bind (print (PError call)) (fun _ => @return_ A (-1))).
Proof.
  intros s rc s' H. injection H as <- <-. split; [reflexivity |].
  exists call. simpl. apply last_snoc.
Qed.

Ltac returns_steps :=
  repeat first
    [ apply fails_error
    | apply returns_defined
    | apply returns_when
    | apply returns_never; intros ? ? ?; discriminate
    | apply returns_bind; [| intros ? ] ].

Lemma fails_recvmsg cfg answer : returns fails (recvmsg cfg answer).
Proof. unfold recvmsg. destruct answer; returns_steps. Qed.

Lemma fails_setup argv cfg env : returns fails (setup argv cfg env).
Proof. unfold setup. returns_steps. apply fails_recvmsg. Qed.

Lemma fails_turn cfg env : returns fails (iteration cfg env ;; next_i)%main.
Proof.
  unfold iteration, next_i, receive, dispatch, count_thread, interval_report.
  returns_steps. apply fails_recvmsg.
Qed.

Lemma fails_recv_loop cfg env fuel : forall s rc s',
  recv_loop fuel cfg env s = Returned rc s' -> fails rc s'.
Proof.
  induction fuel as [| fuel IH]; intros s rc s' H; simpl in H;
    (destruct (int_sub (message_count cfg) 1); [| discriminate]);
    (destruct (i s =? z); [discriminate |]); [discriminate |].
  destruct ((iteration cfg env ;; next_i)%main s) as [u s1 | rc1 s1 | s1] eqn:E;
    try discriminate.
  - eapply IH, H.
  - injection H as <- <-. eapply fails_turn, E.
Qed.

(** The end of [main]: an error, or the summary and 0. *)
Lemma finish_cases cfg env s :
  match finish cfg env s with
  | Return rc s' =>
      fails rc s' \/
      (rc = 0 /\ thread_ctr s' = thread_ctr s /\
       exists size count t mb mbit,
         trace s' = trace s ++ [Print (PSummary size count t mb mbit)])
  | Next _ _ => False
  | Undefined _ =>
      zmq_msg_close_rc env = 0 /\
      throughput_of (message_count cfg) (clamp_elapsed (lap_total env)) = None
  end.
Proof.
  unfold finish, bind, when, print, emit, return_, defined, ret, undefined.
  assert (forall call tr, exists c, last (tr ++ [Print (PError c)]) =
                              Some (Print (PError call))) as Herr
    by (intros call tr; exists call; apply last_snoc).
  destruct (Z.eqb_spec (zmq_msg_close_rc env) 0) as [Hc |]; cbn;
    [| left; split; [reflexivity | exists "zmq_msg_close"; apply last_snoc]].
  destruct (throughput_of (message_count cfg) (clamp_elapsed (lap_total env)));
    cbn; [| auto].
  destruct (zmq_close_rc env =? 0); cbn;
    [| left; split; [reflexivity | exists "zmq_close"; apply last_snoc]].
  destruct (zmq_term_rc env =? 0); cbn;
    [| left; split; [reflexivity | exists "zmq_term"; apply last_snoc]].
  right. split; [reflexivity |]. split; [reflexivity |].
  do 5 eexists. reflexivity.
Qed.

(** X1: given fewer than four arguments, [main] prints the usage text
    and nothing else and returns 1, and it returns 1 in no other case;
    it returns 0 only after a loop that dispatched and counted
    [message_count - 1] threads, the summary being the last thing
    printed; every other return is -1, right after an error message. *)
Theorem exit_codes fuel env argv :
  ((length argv < 5)%nat ->
   exists s, main fuel env argv = Exit 1 s /\ trace s = [Print PUsage]) /\
  (forall rc s,
     main fuel env argv = Exit rc s ->
     (rc = 1 /\ (length argv < 5)%nat /\ trace s = [Print PUsage]) \/
     (rc = -1 /\ (5 <= length argv)%nat /\ ended_with_error s) \/
     (rc = 0 /\ (5 <= length argv)%nat /\
      exists cfg,
        parse_args argv = Configured cfg /\
        1 <= message_count cfg /\
        thread_ctr s = message_count cfg - 1 /\
        Z.of_nat (dispatches (trace s)) = message_count cfg - 1 /\
        exists size count t mb mbit,
          last (trace s) = Some (Print (PSummary size count t mb mbit)))).
Proof.
  split.
  { intros Hlen. apply parse_usage in Hlen. unfold main. rewrite Hlen.
    eexists. split; reflexivity. }
  intros rc s. unfold main. destruct (parse_args argv) as [| | cfg] eqn:Hp.
  - intros [= <- <-]. left. apply parse_usage in Hp. auto.
  - discriminate.
  - assert (5 <= length argv)%nat as Hlen.
    { destruct (Nat.lt_ge_cases (length argv) 5) as [H | H]; [| exact H].
      apply parse_usage in H. congruence. }
    destruct (setup argv cfg env start) as [u s0 | rc0 s0 | s0] eqn:Hs.
    + destruct (setup_entry _ _ _ _ _ Hs) as ((Hi & Hctr & _) & Hd & _).
      destruct (recv_loop fuel cfg env s0) as [s1 | rc1 s1 | s1 | s1] eqn:Hl;
        try discriminate.
      * pose proof (finish_cases cfg env s1) as Hf.
        destruct (finish cfg env s1) as [u2 s2 | rc2 s2 | s2]; try discriminate.
        intros [= <- <-].
        destruct Hf as [[-> He] | (-> & Hc2 & size & count & t & mb & mbit & Htr)];
          [auto |].
        right. right. split; [reflexivity |]. split; [exact Hlen |].
        exists cfg. split; [reflexivity |].
        apply loop_exit in Hl as (H1 & H2 & H3 & H4).
        rewrite Hc2, Htr, dispatches_app.
        assert (dispatches [Print (PSummary size count t mb mbit)] = 0%nat) as ->
          by reflexivity.
        split; [lia |]. split; [lia |]. split; [lia |].
        exists size, count, t, mb, mbit. apply last_snoc.
      * intros [= <- <-]. right. left.
        destruct (fails_recv_loop _ _ _ _ _ _ Hl) as [-> He]. auto.
    + intros [= <- <-]. right. left.
      destruct (fails_setup _ _ _ _ _ _ Hs) as [-> He]. auto.
    + discriminate.
Qed.

Lemma exit_codes_witness :
  (exists s, main 10 Sample.env5 ["local_thr"; "tcp://*:5555"; "4"; "5"] = Exit 1 s /\
             trace s = [Print PUsage]) /\
  ((0 = 1 /\ (length Sample.argv5 < 5)%nat /\
    trace (outcome_state (main 10 Sample.env5 Sample.argv5)) = [Print PUsage]) \/
   (0 = -1 /\ (5 <= length Sample.argv5)%nat /\
    ended_with_error (outcome_state (main 10 Sample.env5 Sample.argv5))) \/
   (0 = 0 /\ (5 <= length Sample.argv5)%nat /\
    exists cfg,
      parse_args Sample.argv5 = Configured cfg /\
      1 <= message_count cfg /\
      thread_ctr (outcome_state (main 10 Sample.env5 Sample.argv5))
        = message_count cfg - 1 /\
      Z.of_nat (dispatches (trace (outcome_state (main 10 Sample.env5 Sample.argv5))))
        = message_count cfg - 1 /\
      exists size count t mb mbit,
        last (trace (outcome_state (main 10 Sample.env5 Sample.argv5)))
          = Some (Print (PSummary size count t mb mbit)))).
Proof.
  split.
  - apply (proj1 (exit_codes 10 Sample.env5 ["local_thr"; "tcp://*:5555"; "4"; "5"])).
    simpl. lia.
  - apply (proj2 (exit_codes 10 Sample.env5 Sample.argv5) 0). vm_compute. reflexivity.
Defined.

(** ** Failures before the loop *)

Lemma without_dispatch_no_thread dn can_open program schedule :
  dispatches program = 0%nat ->
  threads (run dn can_open schedule (boot program)) = [] /\
  disk (run dn can_open schedule (boot program)) = ∅.
Proof.
  intros Hd.
  assert (dispatches (todo (run dn can_open schedule (boot program))) = 0%nat /\
          threads (run dn can_open schedule (boot program)) = [] /\
          disk (run dn can_open schedule (boot program)) = ∅) as (_ & H).
  { apply (run_invariant
             (fun s => dispatches (todo s) = 0%nat /\ threads s = [] /\ disk s = ∅)).
    - intros c s s' (Ht & Hth & Hdisk) Hstep. destruct c as [| k]; simpl in Hstep.
      + apply main_step_cases in Hstep
          as [(o & rest & E & ->) | [(v & rest & E & ->) |
              [(slot & tid & msg & rest & E & ->) |
               (slot & tid & rest & k & t & _ & _ & Hk & _)]]];
          rewrite ?E in Ht; simpl; auto.
        * discriminate Ht.
        * rewrite Hth in Hk. discriminate Hk.
      + apply writer_step_cases in Hstep as (t & _ & _ & _ & Hk & _).
        rewrite Hth in Hk. discriminate Hk.
    - auto. }
  exact H.
Qed.

Lemma setup_fails argv cfg env s :
  zmq_init_ok env = false \/ zmq_socket_ok env = false \/
  zmq_bind_rc env <> 0 \/ zmq_msg_init_rc env <> 0 \/ first_msg env = None ->
  exists s', setup argv cfg env s = Return (-1) s'.
Proof.
  intros H. unfold setup, bind, when, print, emit, return_, recvmsg. cbn.
  destruct (zmq_init_ok env); cbn; [| eauto].
  destruct (zmq_socket_ok env); cbn; [| eauto].
  destruct (Z.eqb_spec (zmq_bind_rc env) 0); cbn; [| eauto].
  destruct (Z.eqb_spec (zmq_msg_init_rc env) 0); cbn; [| eauto].
  destruct (first_msg env); cbn; [| eauto].
  destruct H as [H | [H | [H | [H | H]]]]; congruence.
Qed.

(** X2: when the context, the socket, the bind or the message cannot
    be set up, or the first message cannot be received, [main] returns
    -1 right after an error message; no thread is created and, under
    every schedule, the disk is left as it was. *)
Theorem setup_failure_is_fatal fuel env argv cfg :
  parse_args argv = Configured cfg ->
  zmq_init_ok env = false \/ zmq_socket_ok env = false \/
  zmq_bind_rc env <> 0 \/ zmq_msg_init_rc env <> 0 \/ first_msg env = None ->
  exists s,
    main fuel env argv = Exit (-1) s /\
    ended_with_error s /\
    dispatches (trace s) = 0%nat /\
    forall can_open schedule,
      threads (execute fuel env can_open argv schedule) = [] /\
      disk (execute fuel env can_open argv schedule) = ∅.
Proof.
  intros Hp Hfail. destruct (setup_fails argv cfg env start Hfail) as (s & Hs).
  assert (main fuel env argv = Exit (-1) s) as Hm
    by (unfold main; rewrite Hp, Hs; reflexivity).
  pose proof (fresh_setup argv cfg env start fresh_start) as (_ & Hd & _).
  rewrite Hs in Hd. simpl in Hd.
  exists s. split; [exact Hm |]. split; [| split; [exact Hd |]].
  - destruct (fails_setup _ _ _ _ _ _ Hs) as [_ He]. exact He.
  - intros can_open schedule. unfold execute. rewrite Hm. simpl.
    apply without_dispatch_no_thread, Hd.
Qed.

Lemma setup_failure_is_fatal_witness :
  exists s,
    main 10 (Sample.env_of [] 7) Sample.argv5 = Exit (-1) s /\
    ended_with_error s /\
    dispatches (trace s) = 0%nat /\
    forall can_open schedule,
      threads (execute 10 (Sample.env_of [] 7) can_open Sample.argv5 schedule) = [] /\
      disk (execute 10 (Sample.env_of [] 7) can_open Sample.argv5 schedule) = ∅.
Proof.
  apply (setup_failure_is_fatal 10 (Sample.env_of [] 7) Sample.argv5 Sample.cfg5).
  - reflexivity.
  - right. right. right. right. reflexivity.
Defined.

(** ** Round-robin dispatch *)

Lemma creations_app a b : creations (a ++ b) = creations a ++ creations b.
Proof. unfold creations. apply flat_map_app. Qed.

Lemma creations_length tr : length (creations tr) = dispatches tr.
Proof.
  unfold creations, dispatches. induction tr as [| a tr IH]; [reflexivity |].
  destruct a; simpl; rewrite ?IH; reflexivity.
Qed.

(** A turn of the loop, however it ends, has created no thread, or one
    thread in the slot of the turn with the message of the turn. *)
Lemma turn_creations cfg env s :
  let r := (iteration cfg env ;; next_i)%main s in
  creations (trace (state_of r)) = creations (trace s) \/
  exists slot msg,
    slot_of cfg (i s) = Some slot /\ loop_msg env (i s) = Some msg /\
    creations (trace (state_of r)) = creations (trace s) ++ [(slot, msg)].
Proof.
  unfold_main. cbn.
  repeat (match goal with
          | |- context [match ?x with _ => _ end] =>
              lazymatch x with
              | context [match _ with _ => _ end] => fail
              | _ => destruct x eqn:?
              end
          end; cbn).
  all: rewrite ?creations_app; cbn; rewrite ?app_nil_r, <- ?app_assoc; cbn.
  all: first [ left; reflexivity | right; eauto ].
Qed.

Lemma in_turn_order_snoc cfg env tr tr' slot msg :
  in_turn_order cfg env tr ->
  slot_of cfg (Z.of_nat (length (creations tr))) = Some slot ->
  loop_msg env (Z.of_nat (length (creations tr))) = Some msg ->
  creations tr' = creations tr ++ [(slot, msg)] ->
  in_turn_order cfg env tr'.
Proof.
  intros H Hs Hm E k slot' msg' Hk. rewrite E in Hk.
  apply lookup_snoc_Some in Hk as [[_ Hk] | [-> [= <- <-]]]; auto.
Qed.

Lemma in_turn_order_same cfg env tr tr' :
  in_turn_order cfg env tr -> creations tr' = creations tr ->
  in_turn_order cfg env tr'.
Proof. intros H E k slot msg Hk. rewrite E in Hk. auto. Qed.

Lemma loop_creations cfg env fuel : forall s,
  0 <= i s -> length (creations (trace s)) = Z.to_nat (i s) ->
  in_turn_order cfg env (trace s) ->
  in_turn_order cfg env (trace (loop_state (recv_loop fuel cfg env s))).
Proof.
  induction fuel as [| fuel IH]; intros s Hi Hlen Hord; simpl;
    (destruct (int_sub (message_count cfg) 1); [| exact Hord]);
    (destruct (i s =? z); [exact Hord |]); [exact Hord |].
  pose proof (turn_creations cfg env s) as Hc. simpl in Hc.
  assert (Z.of_nat (length (creations (trace s))) = i s) as Hk by lia.
  destruct ((iteration cfg env ;; next_i)%main s) as [u s' | rc s' | s'] eqn:Hrun;
    simpl in *.
  - destruct (turn_Next _ _ _ _ _ Hrun) as (Hi' & _ & _ & Hd & _).
    apply IH; [lia | |].
    + rewrite creations_length, Hd, <- creations_length. lia.
    + destruct Hc as [E | (slot & msg & H1 & H2 & E)].
      * eapply in_turn_order_same; eauto.
      * eapply in_turn_order_snoc; eauto; rewrite Hk; assumption.
  - destruct Hc as [E | (slot & msg & H1 & H2 & E)].
    + eapply in_turn_order_same; eauto.
    + eapply in_turn_order_snoc; eauto; rewrite Hk; assumption.
  - destruct Hc as [E | (slot & msg & H1 & H2 & E)].
    + eapply in_turn_order_same; eauto.
    + eapply in_turn_order_snoc; eauto; rewrite Hk; assumption.
Qed.

Lemma fresh_no_creation s : fresh s -> creations (trace s) = [].
Proof.
  intros (_ & Hd & _). apply nil_length_inv. rewrite creations_length. exact Hd.
Qed.

Lemma main_in_turn_order fuel env argv cfg :
  parse_args argv = Configured cfg ->
  in_turn_order cfg env (actions_of (main fuel env argv)).
Proof.
  intros Hp. unfold main. rewrite Hp.
  pose proof (fresh_setup argv cfg env start fresh_start) as Hf.
  assert (forall s, fresh s -> in_turn_order cfg env (trace s)) as Hnil.
  { intros s Hs k slot msg Hk. rewrite (fresh_no_creation s Hs) in Hk. discriminate. }
  destruct (setup argv cfg env start) as [u s0 | rc s0 | s0]; simpl in *; auto.
  pose proof (loop_creations cfg env fuel s0) as Hl.
  pose proof Hf as ((Hi & _) & Hd & Hns).
  assert (in_turn_order cfg env (trace (loop_state (recv_loop fuel cfg env s0)))) as Ho.
  { apply Hl; [lia | rewrite creations_length, Hd, Hi; reflexivity |].
    apply Hnil, Hf. }
  destruct (recv_loop fuel cfg env s0) as [s1 | rc s1 | s1 | s1]; simpl in *; auto.
  assert (creations (trace (state_of (finish cfg env s1))) = creations (trace s1)) as E.
  { unfold finish, bind, when, print, emit, return_, defined, ret, undefined.
    repeat (match goal with
            | |- context [match ?x with _ => _ end] =>
                lazymatch x with
                | context [match _ with _ => _ end] => fail
                | _ => destruct x eqn:?
                end
            end; cbn);
      rewrite ?creations_app; cbn; rewrite ?app_nil_r; reflexivity. }
  destruct (finish cfg env s1) as [u2 s2 | rc2 s2 | s2]; simpl in *;
    eapply in_turn_order_same; eauto.
Qed.

Lemma follows_step program dn can_open c s s' :
  follows program s -> step dn can_open c s = Some s' -> follows program s'.
Proof.
  unfold follows. intros Hs Hstep.
  assert (forall k t t', threads s !! k = Some t ->
            t_slot t' = t_slot t -> t_msg t' = t_msg t ->
            (fun t => (t_slot t, t_msg t)) <$> <[k := t']> (threads s) =
            (fun t => (t_slot t, t_msg t)) <$> threads s) as Hsame.
  { intros k t t' Hk E1 E2. rewrite list_fmap_insert, E1, E2.
    apply list_insert_id. rewrite list_lookup_fmap, Hk. reflexivity. }
  destruct c as [| k]; simpl in Hstep.
  - apply main_step_cases in Hstep
      as [(o & rest & E & ->) | [(v & rest & E & ->) |
          [(slot & tid & msg & rest & E & ->) |
           (slot & tid & rest & k & t & E & _ & Hk & _ & _ & ->)]]];
      rewrite E in Hs; simpl in *; try exact Hs.
    + rewrite fmap_app, <- app_assoc. exact Hs.
    + rewrite (Hsame k t); auto.
  - apply writer_step_cases in Hstep as (t & pc' & disk' & effects & Hk & _ & ->).
    simpl. rewrite (Hsame k t); auto.
Qed.

Lemma threads_follow_program dn can_open program schedule :
  follows program (run dn can_open schedule (boot program)).
Proof.
  apply run_invariant; [apply follows_step | reflexivity].
Qed.

Lemma thread_of_turn fuel env can_open argv schedule cfg k t :
  parse_args argv = Configured cfg ->
  threads (execute fuel env can_open argv schedule) !! k = Some t ->
  slot_of cfg (Z.of_nat k) = Some (t_slot t) /\
  loop_msg env (Z.of_nat k) = Some (t_msg t) /\
  (1 <= no_threads cfg ->
   Z.of_nat (t_slot t) = Z.of_nat k mod no_threads cfg).
Proof.
  intros Hp Hk.
  pose proof (threads_follow_program (disk_of argv) can_open
                (actions_of (main fuel env argv)) schedule) as Hf.
  unfold follows in Hf. fold (execute fuel env can_open argv schedule) in Hf.
  destruct (main_in_turn_order fuel env argv cfg Hp k (t_slot t) (t_msg t))
    as [Hslot Hmsg].
  { rewrite <- Hf. apply lookup_app_l_Some.
    rewrite list_lookup_fmap, Hk. reflexivity. }
  split; [exact Hslot |]. split; [exact Hmsg |].
  intros HN. unfold slot_of, int_rem in Hslot.
  destruct (Z.eqb_spec (no_threads cfg) 0); [lia |].
  destruct ((0 <=? Z.rem (Z.of_nat k) (no_threads cfg)) &&
            (Z.rem (Z.of_nat k) (no_threads cfg) <? MAX_THREADS)) eqn:Eb;
    [| discriminate].
  injection Hslot as <-. apply andb_true_iff in Eb as [E1 _].
  apply Z.leb_le in E1. rewrite Z2Nat.id by exact E1.
  apply Z.rem_mod_nonneg; lia.
Qed.

(** X3: under every schedule, the k-th writer thread ever created (k
    from 0) sits in slot [k % no_threads] and owns the message received
    in turn k of the loop, byte for byte: threads are handed the
    messages in arrival order, round robin over the slots. *)
Theorem round_robin_handoff fuel env can_open argv schedule cfg k t :
  parse_args argv = Configured cfg ->
  threads (execute fuel env can_open argv schedule) !! k = Some t ->
  slot_of cfg (Z.of_nat k) = Some (t_slot t) /\
  loop_msg env (Z.of_nat k) = Some (t_msg t) /\
  (1 <= no_threads cfg ->
   Z.of_nat (t_slot t) = Z.of_nat k mod no_threads cfg).
Proof. apply thread_of_turn. Qed.

Lemma round_robin_handoff_witness :
  exists t,
    threads (execute 10 (Sample.env_of [0; 1; 2] 7) (fun _ => true)
               (Sample.argv_of "3" "/mnt" []) Sample.late_writers) !! 1%nat = Some t /\
    loop_msg (Sample.env_of [0; 1; 2] 7) 1 = Some (t_msg t) /\
    (1 <= 1 -> Z.of_nat (t_slot t) = 1 mod 1).
Proof.
  eexists. split; [vm_compute; reflexivity |].
  refine (proj2 (round_robin_handoff 10 (Sample.env_of [0; 1; 2] 7) (fun _ => true)
                   (Sample.argv_of "3" "/mnt" []) Sample.late_writers
                   {| bind_to := "tcp://*:5555"; message_size := 4;
                      message_count := 3; disk_name := "/mnt"; no_threads := 1 |}
                   1%nat _ eq_refl _)).
  vm_compute. reflexivity.
Defined.

(** ** Bounded concurrency *)

(** Distinct elements below [n] are at most [n]. *)
Lemma distinct_below (l : list nat) n :
  NoDup l -> (forall x, x ∈ l -> (x < n)%nat) -> (length l <= n)%nat.
Proof.
  intros Hnd Hlt.
  assert (l ⊆+ seq 0 n) as Hsub.
  { apply NoDup_submseteq; [exact Hnd |].
    intros x Hx. apply elem_of_seq. specialize (Hlt x Hx). lia. }
  apply submseteq_length in Hsub. rewrite length_seq in Hsub. exact Hsub.
Qed.

Lemma NoDup_filter_fmap {A B} (P : A -> Prop) `{forall x, Decision (P x)}
    (f : A -> B) (l : list A) :
  (forall i j x y, l !! i = Some x -> l !! j = Some y -> P x -> P y ->
                   f x = f y -> i = j) ->
  NoDup (f <$> filter P l).
Proof.
  induction l as [| a l IH]; intros Hinj; [constructor |].
  assert (NoDup (f <$> filter P l)) as Hrest.
  { apply IH. intros i j x y Hi Hj Px Py E.
    specialize (Hinj (S i) (S j) x y Hi Hj Px Py E). lia. }
  rewrite filter_cons. destruct (decide (P a)) as [Pa | _]; [| exact Hrest].
  rewrite fmap_cons. constructor; [| exact Hrest].
  intros Hin. apply list_elem_of_fmap in Hin as (y & E & Hy).
  apply list_elem_of_filter in Hy as [Py Hy].
  apply list_elem_of_lookup in Hy as (j & Hj).
  specialize (Hinj 0%nat (S j) a y eq_refl Hj Pa Py E). lia.
Qed.

Lemma filter_length_mono {A} (P Q : A -> Prop) `{forall x, Decision (P x)}
    `{forall x, Decision (Q x)} (l : list A) :
  (forall x, x ∈ l -> P x -> Q x) ->
  (length (filter P l) <= length (filter Q l))%nat.
Proof.
  induction l as [| a l IH]; intros Himp; [reflexivity |].
  assert (length (filter P l) <= length (filter Q l))%nat as Hrest.
  { apply IH. intros x Hx. apply Himp. right. exact Hx. }
  rewrite !filter_cons.
  destruct (decide (P a)) as [Pa | _].
  - rewrite decide_True by (apply Himp; [left | exact Pa]). simpl. lia.
  - destruct (decide (Q a)); simpl; lia.
Qed.

(** X4: with [no_threads] between 1 and 10, under every schedule and at
    every moment, at most [no_threads] writer threads are created and
    not yet joined, so at most [no_threads] are running and at most
    that many messages are held by threads.  (Thread ids are taken to
    be non-zero.) *)
Theorem at_most_no_threads_in_flight fuel env can_open argv schedule cfg :
  parse_args argv = Configured cfg ->
  1 <= no_threads cfg ->
  (forall i, new_thread env i <> 0) ->
  let s := execute fuel env can_open argv schedule in
  Z.of_nat (length (unjoined_threads s)) <= no_threads cfg /\
  Z.of_nat (length (running_threads s)) <= no_threads cfg.
Proof.
  intros Hp HN Hid s.
  destruct (execute_coherent fuel env can_open argv schedule Hid)
    as [_ _ Hslot Hjoin _ _ _]. fold s in Hslot, Hjoin.
  assert (Z.of_nat (length (unjoined_threads s)) <= no_threads cfg) as Hun.
  { unfold unjoined_threads.
    rewrite <- (length_fmap t_slot).
    assert (length (t_slot <$> filter (fun t => t_joined t = false) (threads s))
            <= Z.to_nat (no_threads cfg))%nat; [| lia].
    apply distinct_below.
    - apply NoDup_filter_fmap. intros a b x y Ha Hb Hx Hy E.
      destruct (Hslot _ _ Ha) as [Ho | Hj]; [| congruence].
      destruct (Hslot _ _ Hb) as [Ho' | Hj]; [| congruence].
      rewrite E in Ho. congruence.
    - intros x Hx. apply list_elem_of_fmap in Hx as (t & -> & Ht).
      apply list_elem_of_filter in Ht as [_ Ht].
      apply list_elem_of_lookup in Ht as (k & Hk).
      destruct (thread_of_turn fuel env can_open argv schedule cfg k t Hp Hk)
        as (_ & _ & Hmod).
      specialize (Hmod HN).
      pose proof (Z.mod_pos_bound (Z.of_nat k) (no_threads cfg) ltac:(lia)). lia. }
  split; [exact Hun |].
  etransitivity; [| exact Hun]. apply inj_le.
  unfold running_threads, unjoined_threads. apply filter_length_mono.
  intros t Ht Hrun. apply list_elem_of_lookup in Ht as (k & Hk).
  destruct (t_joined t) eqn:Ej; [| reflexivity].
  rewrite (Hjoin _ _ Hk Ej) in Hrun. discriminate.
Qed.

Lemma at_most_no_threads_in_flight_witness :
  let s := execute 10 Sample.env5 (fun _ => true) Sample.argv5 Sample.late_writers in
  Z.of_nat (length (unjoined_threads s)) <= 2 /\
  Z.of_nat (length (running_threads s)) <= 2.
Proof.
  apply (at_most_no_threads_in_flight 10 Sample.env5 (fun _ => true) Sample.argv5
           Sample.late_writers Sample.cfg5 eq_refl).
  - simpl. lia.
  - intros i. simpl. lia.
Defined.

(** ** The writer thread on its own *)

(** X5: in disk mode, when the name fits the buffer and the file can be
    opened, [file_writer] run without interruption leaves exactly the
    payload in the file named after the counter it reads (whatever the
    file held before), touches no other file, and closes and frees the
    message. *)
Theorem file_writer_writes_payload dn can_open ctr msg fs :
  dn <> "/network" ->
  (String.length (Writer.file_name dn ctr) < 1024)%nat ->
  can_open (Writer.file_name dn ctr) = true ->
  exists fs',
    Writer.file_writer dn can_open ctr msg fs =
      (Writer.Finished true, fs',
       [Writer.Fopen (Writer.file_name dn ctr);
        Writer.Fwrite (Writer.file_name dn ctr) msg;
        Writer.Fclose (Writer.file_name dn ctr);
        Writer.MsgClose; Writer.Free]) /\
    fs' !! Writer.file_name dn ctr = Some msg /\
    forall other, other <> Writer.file_name dn ctr -> fs' !! other = fs !! other.
Proof.
  intros Hdn Hlen Hopen.
  exists (<[Writer.file_name dn ctr := msg]> (<[Writer.file_name dn ctr := []]> fs)).
  split; [| split].
  - unfold Writer.file_writer, Writer.run, Writer.step.
    apply String.eqb_neq in Hdn. rewrite Hdn. simpl negb. cbv iota.
    destruct (Nat.leb_spec 1024 (String.length (Writer.file_name dn ctr))); [lia |].
    rewrite Hopen, lookup_insert_eq. unfold Writer.write_at_start. simpl default.
    rewrite drop_nil, app_nil_r. reflexivity.
  - apply lookup_insert_eq.
  - intros other Hne. rewrite !lookup_insert_ne by congruence. reflexivity.
Qed.

Lemma file_writer_writes_payload_witness :
  exists fs',
    Writer.file_writer "/mnt" (fun _ => true) 7 (Sample.payload 7) ∅ =
      (Writer.Finished true, fs',
       [Writer.Fopen (Writer.file_name "/mnt" 7);
        Writer.Fwrite (Writer.file_name "/mnt" 7) (Sample.payload 7);
        Writer.Fclose (Writer.file_name "/mnt" 7);
        Writer.MsgClose; Writer.Free]) /\
    fs' !! Writer.file_name "/mnt" 7 = Some (Sample.payload 7) /\
    forall other, other <> Writer.file_name "/mnt" 7 ->
                  fs' !! other = (∅ : gmap string bytes) !! other.
Proof.
  apply (file_writer_writes_payload "/mnt" (fun _ => true) 7 (Sample.payload 7) ∅).
  - discriminate.
  - vm_compute. lia.
  - reflexivity.
Defined.

(** ** File names *)

Lemma digit_of_digit_char d : digit_of (digit_char d) = Some (d mod 10).
Proof.
  unfold digit_of, digit_char.
  pose proof (Z.mod_pos_bound d 10 ltac:(lia)) as Hb.
  rewrite nat_ascii_embedding by lia.
  rewrite Z2Nat.id by lia.
  destruct (Z.leb_spec 48 (48 + d mod 10)); [| lia].
  destruct (Z.leb_spec (48 + d mod 10) 57); [| lia].
  simpl. f_equal. lia.
Qed.

Lemma dec_go_app fuel : forall n acc tail,
  (dec_go fuel n acc ++ tail)%string = dec_go fuel n (acc ++ tail)%string.
Proof.
  induction fuel as [| fuel IH]; intros n acc tail; simpl; [reflexivity |].
  destruct (n / 10 =? 0); [reflexivity |]. apply IH.
Qed.

Lemma dec_go_S fuel n acc :
  dec_go (S fuel) n acc =
    if n / 10 =? 0 then String (digit_char n) acc
    else dec_go fuel (n / 10) (String (digit_char n) acc).
Proof. reflexivity. Qed.

(** The digits printed for [n] read back as [n], whatever was read
    before and whatever follows. *)
Lemma dec_go_value fuel : forall n acc a,
  0 <= n < 10 ^ Z.of_nat (S fuel) ->
  exists k,
    (1 <= k <= S fuel)%nat /\
    (k = 1%nat \/ 10 ^ Z.of_nat (k - 1) <= n) /\
    n < 10 ^ Z.of_nat k /\
    String.length (dec_go (S fuel) n acc) = (k + String.length acc)%nat /\
    digits_value a (dec_go (S fuel) n acc) =
      digits_value (a * 10 ^ Z.of_nat k + n) acc.
Proof.
  induction fuel as [| fuel IH]; intros n acc a Hn.
  - exists 1%nat. change (10 ^ Z.of_nat 1) with 10 in *.
    assert (n / 10 = 0) as E by (apply Z.div_small; lia).
    rewrite dec_go_S, E. simpl. rewrite digit_of_digit_char.
    rewrite Z.mod_small by lia.
    repeat split; try lia. f_equal. lia.
  - rewrite (dec_go_S (S fuel)). destruct (Z.eqb_spec (n / 10) 0) as [E | E].
    + assert (n < 10) by (apply Z.div_small_iff in E; lia).
      exists 1%nat. change (10 ^ Z.of_nat 1) with 10.
      simpl. rewrite digit_of_digit_char, Z.mod_small by lia.
      repeat split; try lia. f_equal. lia.
    + assert (0 <= n / 10 < 10 ^ Z.of_nat (S fuel)) as Hq.
      { rewrite (Nat2Z.inj_succ (S fuel)), Z.pow_succ_r in Hn by lia.
        split; [apply Z.div_pos; lia | apply Z.div_lt_upper_bound; lia]. }
      assert (1 <= n / 10) as Hq1 by lia.
      destruct (IH (n / 10) (String (digit_char n) acc) a Hq)
        as (k & Hk & Hlow & Hup & Hlen & Hval).
      exists (S k).
      assert (10 ^ Z.of_nat (S k) = 10 * 10 ^ Z.of_nat k) as Hpow
        by (rewrite Nat2Z.inj_succ, Z.pow_succ_r by lia; reflexivity).
      pose proof (Z.div_mod n 10 ltac:(lia)) as Hdm.
      pose proof (Z.mod_pos_bound n 10 ltac:(lia)) as Hmb.
      split; [lia |]. split; [| split; [| split]].
      * right. replace (S k - 1)%nat with k by lia.
        destruct Hlow as [-> | Hlow].
        -- change (10 ^ Z.of_nat 1) with 10. lia.
        -- replace k with (S (k - 1)) by lia.
           rewrite Nat2Z.inj_succ, Z.pow_succ_r by lia. lia.
      * rewrite Hpow. lia.
      * rewrite Hlen. simpl. lia.
      * rewrite Hval. simpl. rewrite digit_of_digit_char. f_equal.
        rewrite Hpow. lia.
Qed.

Lemma digits_value_zeros k : forall s, digits_value 0 (zeros k ++ s) = digits_value 0 s.
Proof. induction k as [| k IH]; intros s; simpl; [reflexivity | apply IH]. Qed.

Lemma zeros_length k : String.length (zeros k) = k.
Proof. induction k as [| k IH]; simpl; [reflexivity | rewrite IH; reflexivity]. Qed.

Lemma string_app_assoc (a b c : string) : ((a ++ b) ++ c = a ++ (b ++ c))%string.
Proof.
  induction a as [| x a IH]; [reflexivity |].
  change (String x ((a ++ b) ++ c) = String x (a ++ (b ++ c)))%string.
  rewrite IH. reflexivity.
Qed.

Lemma string_app_length (a b : string) :
  String.length (a ++ b) = (String.length a + String.length b)%nat.
Proof.
  induction a as [| x a IH]; [reflexivity |].
  change (S (String.length (a ++ b)) = S (String.length a + String.length b)).
  rewrite IH. reflexivity.
Qed.

Lemma string_app_inv_head (a b c : string) : (a ++ b = a ++ c)%string -> b = c.
Proof.
  induction a as [| x a IH]; [auto |]. intros H.
  change (String x (a ++ b) = String x (a ++ c))%string in H.
  injection H as H. auto.
Qed.

(** The counter can be read back from the [%06d] field followed by
    ".dat". *)
Lemma fmt_06d_value n :
  0 <= n <= INT_MAX -> digits_value 0 (fmt_06d n ++ ".dat") = n.
Proof.
  intros Hn. unfold fmt_06d. destruct (Z.ltb_spec n 0); [lia |].
  unfold dec. rewrite string_app_assoc, digits_value_zeros, dec_go_app.
  destruct (dec_go_value 19 n (EmptyString ++ ".dat")%string 0) as (k & _ & _ & _ & _ & Hv).
  { unfold INT_MAX in Hn. simpl. lia. }
  rewrite Hv. simpl. lia.
Qed.

(** X6: the file names made for two different values of the counter
    are different, and below one million the counter field is exactly
    six characters wide. *)
Theorem file_names_distinct dn a b :
  0 <= a <= INT_MAX -> 0 <= b <= INT_MAX ->
  (Writer.file_name dn a = Writer.file_name dn b -> a = b) /\
  (a < 1000000 -> String.length (fmt_06d a) = 6%nat).
Proof.
  intros Ha Hb. split.
  - unfold Writer.file_name. intros E.
    apply string_app_inv_head in E. apply string_app_inv_head in E.
    rewrite <- (fmt_06d_value a Ha), <- (fmt_06d_value b Hb), E. reflexivity.
  - intros Hlt. unfold fmt_06d. destruct (Z.ltb_spec a 0); [lia |].
    unfold dec.
    destruct (dec_go_value 19 a EmptyString 0) as (k & Hk & Hlow & _ & Hlen & _).
    { unfold INT_MAX in Ha. simpl. lia. }
    assert (k <= 6)%nat as Hk6.
    { destruct Hlow as [-> | Hlow]; [lia |].
      destruct (Nat.le_gt_cases k 6) as [H6 | H6]; [exact H6 |].
      assert (10 ^ 6 <= 10 ^ Z.of_nat (k - 1)) by (apply Z.pow_le_mono_r; lia).
      change (10 ^ 6) with 1000000 in *. lia. }
    rewrite string_app_length, zeros_length, Hlen. simpl. lia.
Qed.

Lemma file_names_distinct_witness :
  (Writer.file_name "/mnt" 7 = Writer.file_name "/mnt" 7 -> 7 = 7) /\
  (7 < 1000000 -> String.length (fmt_06d 7) = 6%nat).
Proof.
  apply (file_names_distinct "/mnt" 7 7); unfold INT_MAX; lia.
Defined.

(** ** Counting joins and interval lines *)

Lemma joins_app a b : joins (a ++ b) = (joins a + joins b)%nat.
Proof. unfold joins. rewrite List.filter_app, length_app. reflexivity. Qed.

Lemma lap_lines_app a b : lap_lines (a ++ b) = (lap_lines a + lap_lines b)%nat.
Proof. unfold lap_lines. rewrite List.filter_app, length_app. reflexivity. Qed.

(** A turn that completes at a multiple of 1000 had a defined interval
    throughput. *)
Lemma turn_lap_defined cfg env s u s' :
  (iteration cfg env ;; next_i)%main s = Next u s' ->
  is_lap (i s) = true -> is_Some (throughput_of 1000 (lap_1000 env (i s))).
Proof.
  intros H Hlap.
  destruct (throughput_of 1000 (lap_1000 env (i s))) as [t |] eqn:Et; [eauto |].
  exfalso. revert H. unfold is_lap in Hlap. unfold_main. cbn.
  repeat (match goal with
          | |- context [match ?x with _ => _ end] =>
              lazymatch x with
              | context [match _ with _ => _ end] => fail
              | _ => destruct x eqn:?
              end
          end; cbn); congruence.
Qed.

(** What a completed turn adds to the two counts. *)
Lemma turn_tally cfg env s u s' :
  (iteration cfg env ;; next_i)%main s = Next u s' ->
  exists (slot : nat) (tid : Z),
    slot_of cfg (i s) = Some slot /\
    file_writer_thread s !! slot = Some tid /\
    i s' = i s + 1 /\
    file_writer_thread s' = <[slot := new_thread env (i s)]> (file_writer_thread s) /\
    joins (trace s') = (joins (trace s) + if (tid =? 0)%Z then 0 else 1)%nat /\
    lap_lines (trace s') =
      (lap_lines (trace s) + if is_lap (i s) then 1 else 0)%nat.
Proof.
  intros H. pose proof (turn_lap_defined _ _ _ _ _ H) as Hlap.
  pose proof (turn_cases cfg env s) as Hc. rewrite H in Hc.
  destruct Hc as (msg & c & ok & slot & tid & _ & _ & _ & Hslot & Htid & Hi & _ & _ &
                  _ & _ & Hf & Htr).
  exists slot, tid. split; [exact Hslot |]. split; [exact Htid |].
  split; [exact Hi |]. split; [exact Hf |]. rewrite Htr. split.
  - rewrite !joins_app. unfold size_report, corrupt_report, join_action, lap_report.
    destruct (negb (Z.of_nat (length msg) =? message_size cfg)), (negb ok),
      (tid =? 0), (is_lap (i s));
      try destruct (throughput_of 1000 (lap_1000 env (i s))); reflexivity.
  - rewrite !lap_lines_app. unfold size_report, corrupt_report, join_action, lap_report.
    destruct (is_lap (i s)).
    + destruct (Hlap eq_refl) as (t & ->).
      destruct (negb (Z.of_nat (length msg) =? message_size cfg)), (negb ok),
        (negb (tid =? 0)); reflexivity.
    + destruct (negb (Z.of_nat (length msg) =? message_size cfg)), (negb ok),
        (negb (tid =? 0)); reflexivity.
Qed.

Lemma slot_of_mod cfg i slot :
  1 <= no_threads cfg -> 0 <= i -> slot_of cfg i = Some slot ->
  Z.of_nat slot = i mod no_threads cfg.
Proof.
  intros HN Hi. unfold slot_of, int_rem.
  destruct (Z.eqb_spec (no_threads cfg) 0); [lia |].
  destruct ((0 <=? Z.rem i (no_threads cfg)) &&
            (Z.rem i (no_threads cfg) <? MAX_THREADS)) eqn:Eb; [| discriminate].
  intros [= <-]. apply andb_true_iff in Eb as [E1 _]. apply Z.leb_le in E1.
  rewrite Z2Nat.id by exact E1. apply Z.rem_mod_nonneg; lia.
Qed.

Lemma laps_step i :
  0 <= i ->
  (if i + 1 =? 0 then 0 else (i + 1 - 1) / 1000) =
  (if i =? 0 then 0 else (i - 1) / 1000) + Z.of_nat (if is_lap i then 1 else 0).
Proof.
  intros Hi. unfold is_lap.
  destruct (Z.eqb_spec (i + 1) 0); [lia |].
  destruct (Z.eqb_spec i 0) as [-> | Hne]; [reflexivity |].
  destruct (Z.gtb_spec i 0); [| lia]. simpl.
  rewrite Z.rem_mod_nonneg by lia.
  replace (i + 1 - 1) with i by lia.
  destruct (Z.eqb_spec (i mod 1000) 0) as [E | E]; simpl Z.of_nat;
    Z.div_mod_to_equations; lia.
Qed.

Lemma at_laps_next cfg env s u s' :
  (iteration cfg env ;; next_i)%main s = Next u s' -> at_laps s -> at_laps s'.
Proof.
  intros Hrun (Hi & Hlaps).
  destruct (turn_tally _ _ _ _ _ Hrun) as (_ & _ & _ & _ & Hi' & _ & _ & Hl).
  split; [lia |]. rewrite Hl, Nat2Z.inj_add, Hlaps, Hi'. symmetry. apply laps_step, Hi.
Qed.

Lemma at_tally_next cfg env s u s' :
  1 <= no_threads cfg ->
  (forall i, new_thread env i <> 0) ->
  (iteration cfg env ;; next_i)%main s = Next u s' -> at_tally cfg s -> at_tally cfg s'.
Proof.
  intros HN Hid Hrun (Hi & Hslots & Hjoins).
  destruct (turn_tally _ _ _ _ _ Hrun) as (slot & tid & Hslot & Htid & Hi' & Hf & Hj & _).
  pose proof (slot_of_mod cfg (i s) slot HN Hi Hslot) as Hmod.
  pose proof (Z.mod_pos_bound (i s) (no_threads cfg) ltac:(lia)) as Hmb.
  assert (tid <> 0 <-> no_threads cfg <= i s) as Htid0.
  { rewrite (Hslots _ _ Htid), Hmod. split.
    - intros [H1 _]. destruct (Z.lt_ge_cases (i s) (no_threads cfg)); [| lia].
      rewrite Z.mod_small in H1 by lia. lia.
    - intros H. split; [| lia]. lia. }
  split; [lia |]. split.
  - intros j v Hv. rewrite Hf in Hv. rewrite Hi'.
    destruct (decide (j = slot)) as [-> | Hne].
    + rewrite list_lookup_insert_eq in Hv by (eapply lookup_lt_Some; eauto).
      injection Hv as <-. split; [intros _ | intros _; apply Hid].
      split; [| lia]. rewrite Hmod.
      pose proof (Z.mod_le (i s) (no_threads cfg) Hi ltac:(lia)). lia.
    + rewrite list_lookup_insert_ne in Hv by congruence.
      rewrite (Hslots _ _ Hv). split; [lia |].
      intros [H1 H2]. split; [| exact H2].
      destruct (Z.eq_dec (Z.of_nat j) (i s)) as [E | E]; [| lia].
      rewrite Z.mod_small in Hmod by lia. lia.
  - rewrite Hj, Nat2Z.inj_add, Hjoins, Hi'.
    destruct (Z.eqb_spec tid 0) as [E | E]; simpl Z.of_nat.
    + assert (~ no_threads cfg <= i s) by (intros H; apply Htid0 in H; lia). lia.
    + apply Htid0 in E. lia.
Qed.

(** An invariant of the turns holds when the loop is left. *)
Lemma loop_invariant (P : Main -> Prop) cfg env :
  (forall s u s', (iteration cfg env ;; next_i)%main s = Next u s' -> P s -> P s') ->
  forall fuel s s', recv_loop fuel cfg env s = Exited s' -> P s -> P s'.
Proof.
  intros Hturn fuel. induction fuel as [| fuel IH]; intros s s' H Hs; simpl in H;
    (destruct (int_sub (message_count cfg) 1); [| discriminate]);
    (destruct (i s =? z); [injection H as <-; exact Hs |]); [discriminate |].
  destruct ((iteration cfg env ;; next_i)%main s) as [u s1 | rc1 s1 | s1] eqn:E;
    try discriminate.
  eapply IH; [exact H |]. eapply Hturn; eauto.
Qed.

Lemma pristine_emit a :
  is_join a = false -> is_lap_line a = false -> preserves pristine (emit a).
Proof.
  intros Hj Hl s (Hi & Hf & Hjs & Hls). split; [exact Hi |]. split; [exact Hf |].
  simpl. rewrite joins_app, lap_lines_app, Hjs, Hls. unfold joins, lap_lines. simpl.
  rewrite Hj, Hl. split; reflexivity.
Qed.

Lemma pristine_set_msg_counter v : preserves pristine (set_msg_counter v).
Proof. intros s Hs. exact Hs. Qed.

Ltac pristine_steps :=
  repeat first
    [ apply pristine_emit; reflexivity
    | apply pristine_set_msg_counter
    | apply preserves_ret | apply preserves_get | apply preserves_return
    | apply preserves_undefined | apply preserves_defined
    | apply preserves_when
    | apply preserves_bind; [| intros ? ] ].

Lemma pristine_setup argv cfg env : preserves pristine (setup argv cfg env).
Proof.
  unfold setup. pristine_steps. unfold recvmsg. destruct (first_msg env); pristine_steps.
Qed.

Lemma pristine_start : pristine start.
Proof. repeat split. Qed.

Lemma pristine_tally cfg s : 0 <= no_threads cfg -> pristine s -> at_tally cfg s.
Proof.
  intros HN (Hi & Hf & Hj & _). unfold at_tally. rewrite Hi, Hj.
  split; [lia |]. split; [| lia].
  intros j v Hv. rewrite Hf in Hv. apply lookup_replicate in Hv as [-> _]. lia.
Qed.

Lemma pristine_laps s : pristine s -> at_laps s.
Proof.
  intros (Hi & _ & _ & Hl). unfold at_laps. rewrite Hi, Hl. split; [lia | reflexivity].
Qed.

(** A run of [main] that returns 0 went through the whole loop and the
    summary. *)
Lemma main_returns_0 fuel env argv cfg s :
  parse_args argv = Configured cfg ->
  main fuel env argv = Exit 0 s ->
  exists s0 s1 size count t mb mbit,
    setup argv cfg env start = Next tt s0 /\
    recv_loop fuel cfg env s0 = Exited s1 /\
    trace s = trace s1 ++ [Print (PSummary size count t mb mbit)].
Proof.
  intros Hp. unfold main. rewrite Hp.
  destruct (setup argv cfg env start) as [[] s0 | rc0 s0 | s0] eqn:Hs;
    [| intros [= -> <-]; destruct (fails_setup _ _ _ _ _ _ Hs); lia | discriminate].
  destruct (recv_loop fuel cfg env s0) as [s1 | rc1 s1 | s1 | s1] eqn:Hl;
    [| intros [= -> <-]; destruct (fails_recv_loop _ _ _ _ _ _ Hl); lia
     | discriminate | discriminate].
  pose proof (finish_cases cfg env s1) as Hf.
  destruct (finish cfg env s1) as [u2 s2 | rc2 s2 | s2]; try discriminate.
  intros [= -> <-].
  destruct Hf as [[Hrc _] | (_ & _ & size & count & t & mb & mbit & Htr)]; [lia |].
  exists s0, s1, size, count, t, mb, mbit. auto.
Qed.

(** X7: a run that returns 0 has called [pthread_join]
    [message_count - 1 - no_threads] times, or never when that is
    negative: no thread is joined after the loop, so the threads of the
    last [no_threads] turns (all of them, when there were fewer turns)
    are never joined before [main] returns. *)
Theorem last_threads_never_joined fuel env argv cfg s :
  parse_args argv = Configured cfg ->
  1 <= no_threads cfg ->
  (forall i, new_thread env i <> 0) ->
  main fuel env argv = Exit 0 s ->
  Z.of_nat (joins (trace s)) = Z.max 0 (message_count cfg - 1 - no_threads cfg) /\
  Z.of_nat (dispatches (trace s)) - Z.of_nat (joins (trace s)) =
    Z.min (no_threads cfg) (message_count cfg - 1).
Proof.
  intros Hp HN Hid Hmain.
  destruct (main_returns_0 _ _ _ _ _ Hp Hmain)
    as (s0 & s1 & size & count & t & mb & mbit & Hs & Hl & Htr).
  pose proof (pristine_setup argv cfg env start pristine_start) as Hpr.
  rewrite Hs in Hpr. assert (0 <= no_threads cfg) as HN0 by lia.
  apply (pristine_tally cfg _ HN0) in Hpr as Ht.
  destruct (setup_entry _ _ _ _ _ Hs) as ((Hi & _ & _) & Hd & _).
  simpl in Ht.
  apply (loop_invariant (at_tally cfg) cfg env
           (fun a u b => at_tally_next cfg env a u b HN Hid) _ _ _ Hl)
    in Ht as (_ & _ & Hj).
  apply loop_exit in Hl as (Hlast & _ & _ & Hds).
  rewrite Htr, joins_app, dispatches_app.
  assert (joins [Print (PSummary size count t mb mbit)] = 0%nat) as -> by reflexivity.
  assert (dispatches [Print (PSummary size count t mb mbit)] = 0%nat) as ->
    by reflexivity.
  lia.
Qed.

Lemma last_threads_never_joined_witness :
  Z.of_nat (joins (trace (outcome_state (main 10 Sample.env5 Sample.argv5)))) =
    Z.max 0 (message_count Sample.cfg5 - 1 - no_threads Sample.cfg5) /\
  Z.of_nat (dispatches (trace (outcome_state (main 10 Sample.env5 Sample.argv5)))) -
  Z.of_nat (joins (trace (outcome_state (main 10 Sample.env5 Sample.argv5)))) =
    Z.min (no_threads Sample.cfg5) (message_count Sample.cfg5 - 1).
Proof.
  apply (last_threads_never_joined 10 Sample.env5 Sample.argv5 Sample.cfg5).
  - reflexivity.
  - simpl. lia.
  - intros i. simpl. lia.
  - vm_compute. reflexivity.
Defined.

(** X8: a run that returns 0 has printed one interval line for every
    turn whose index is a positive multiple of 1000:
    [(message_count - 2) / 1000] lines, none for fewer than 1002
    messages. *)
Theorem interval_lines_count fuel env argv cfg s :
  parse_args argv = Configured cfg ->
  main fuel env argv = Exit 0 s ->
  Z.of_nat (lap_lines (trace s)) = Z.max 0 (message_count cfg - 2) / 1000.
Proof.
  intros Hp Hmain.
  destruct (main_returns_0 _ _ _ _ _ Hp Hmain)
    as (s0 & s1 & size & count & t & mb & mbit & Hs & Hl & Htr).
  pose proof (pristine_setup argv cfg env start pristine_start) as Hpr.
  rewrite Hs in Hpr. apply pristine_laps in Hpr as Ht.
  simpl in Ht.
  apply (loop_invariant at_laps cfg env (at_laps_next cfg env) _ _ _ Hl)
    in Ht as (Hi & Hlaps).
  apply loop_exit in Hl as (Hlast & _).
  rewrite Htr, lap_lines_app.
  assert (lap_lines [Print (PSummary size count t mb mbit)] = 0%nat) as ->
    by reflexivity.
  rewrite Nat.add_0_r, Hlaps, Hlast.
  destruct (Z.eqb_spec (message_count cfg - 1) 0) as [E | E].
  - replace (message_count cfg - 2) with (-1) by lia. reflexivity.
  - rewrite Z.max_r by lia. f_equal. lia.
Qed.

Lemma interval_lines_count_witness :
  Z.of_nat (lap_lines (trace (outcome_state (main 10 Sample.env5 Sample.argv5)))) =
    Z.max 0 (message_count Sample.cfg5 - 2) / 1000.
Proof.
  apply (interval_lines_count 10 Sample.env5 Sample.argv5 Sample.cfg5).
  - reflexivity.
  - vm_compute. reflexivity.
Defined.

(** ** The counter a writer thread reads *)











Section Prints.
Variable s0 : Main.


End Prints.














(** ** What is on the disk *)






(** ** The buffer of the file name *)

Lemma fmt_06d_length n :
  0 <= n <= INT_MAX -> (6 <= String.length (fmt_06d n) <= 10)%nat.
Proof.
  intros Hn. unfold fmt_06d. destruct (Z.ltb_spec n 0); [lia |]. unfold dec.
  destruct (dec_go_value 19 n EmptyString 0) as (k & Hk & Hlow & _ & Hlen & _).
  { unfold INT_MAX in Hn. simpl. lia. }
  assert (k <= 10)%nat as Hk10.
  { destruct Hlow as [-> | Hlow]; [lia |].
    destruct (Nat.le_gt_cases k 10) as [H10 | H10]; [exact H10 |].
    assert (10 ^ 10 <= 10 ^ Z.of_nat (k - 1)) by (apply Z.pow_le_mono_r; lia).
    change (10 ^ 10) with 10000000000 in *. unfold INT_MAX in Hn. lia. }
  rewrite string_app_length, zeros_length, Hlen. simpl. lia.
Qed.

Lemma file_name_length dn c :
  0 <= c <= INT_MAX ->
  (String.length dn + 20 <= String.length (Writer.file_name dn c)
     <= String.length dn + 24)%nat.
Proof.
  intros Hc. unfold Writer.file_name. rewrite !string_app_length.
  pose proof (fmt_06d_length c Hc).
  change (String.length "/data/test") with 10%nat.
  change (String.length ".dat") with 4%nat. lia.
Qed.

(** X11: [fn] has room for 1024 bytes.  With a counter that is a
    non-negative [int], the name written into it is 20 to 24 characters
    longer than [disk_name]; so a [disk_name] of at most 999 characters
    never overruns the buffer, and one of 1004 characters or more
    always does. *)
Theorem file_name_buffer dn can_open c msg fs :
  0 <= c <= INT_MAX ->
  ((String.length dn <= 999)%nat ->
   exists pc fs' out,
     Writer.step dn can_open c msg Writer.AtEntry fs = Some (pc, fs', out) /\
     pc <> Writer.Overrun) /\
  ((1004 <= String.length dn)%nat ->
   Writer.step dn can_open c msg Writer.AtEntry fs = Some (Writer.Overrun, fs, [])).
Proof.
  intros Hc. pose proof (file_name_length dn c Hc) as Hlen.
  cbn [Writer.step]. cbv zeta. split; intros Hdn.
  - destruct (negb (String.eqb dn "/network")); [| eexists _, _, _; split; eauto; discriminate].
    destruct (Nat.leb_spec 1024 (String.length (Writer.file_name dn c))); [lia |].
    destruct (can_open (Writer.file_name dn c));
      eexists _, _, _; (split; [reflexivity | discriminate]).
  - destruct (String.eqb_spec dn "/network") as [-> | _]; [simpl in Hdn; lia |].
    simpl negb. cbv iota.
    destruct (Nat.leb_spec 1024 (String.length (Writer.file_name dn c))); [| lia].
    reflexivity.
Qed.

Lemma file_name_buffer_witness :
  ((String.length "/mnt" <= 999)%nat ->
   exists pc fs' out,
     Writer.step "/mnt" (fun _ => true) 7 [] Writer.AtEntry ∅ = Some (pc, fs', out) /\
     pc <> Writer.Overrun) /\
  ((1004 <= String.length "/mnt")%nat ->
   Writer.step "/mnt" (fun _ => true) 7 [] Writer.AtEntry ∅ =
     Some (Writer.Overrun, ∅, [])).
Proof.
  apply (file_name_buffer "/mnt" (fun _ => true) 7 [] ∅). unfold INT_MAX. lia.
Defined.

(** ** Edges of a turn *)

(** X12: the interval report has no guard against a stopwatch that
    reads 0, unlike the aggregate report: 1000.0 / 0.0 is infinite and
    its conversion to [unsigned long] undefined.  A turn at a positive
    multiple of 1000 whose message arrives is then undefined. *)
Theorem interval_report_unguarded cfg env s :
  is_lap (i s) = true ->
  lap_1000 env (i s) = 0 ->
  loop_msg env (i s) <> None ->
  throughput_of 1000 (lap_1000 env (i s)) = None /\
  exists s', (iteration cfg env ;; next_i)%main s = Undefined s'.
Proof.
  intros Hlap Hz Hmsg.
  assert (throughput_of 1000 (lap_1000 env (i s)) = None) as Hnone
    by (rewrite Hz; vm_compute; reflexivity).
  split; [exact Hnone |].
  pose proof (turn_cases cfg env s) as Hc.
  destruct ((iteration cfg env ;; next_i)%main s) as [u s' | rc s' | s'] eqn:Hrun.
  - destruct (turn_lap_defined _ _ _ _ _ Hrun Hlap) as (t & Ht). congruence.
  - destruct Hc as [Hc _]. contradiction.
  - eauto.
Qed.

Lemma interval_report_unguarded_witness :
  throughput_of 1000 (lap_1000 Sample.env_still (i Sample.turn_1000)) = None /\
  exists s', (iteration Sample.cfg5 Sample.env_still ;; next_i)%main Sample.turn_1000
               = Undefined s'.
Proof.
  apply (interval_report_unguarded Sample.cfg5 Sample.env_still Sample.turn_1000).
  - reflexivity.
  - reflexivity.
  - discriminate.
Defined.

(** X13: a message of another size than asked for is reported and
    then handled like any other: the turn never returns -1 for it, and
    when the turn completes the message has been handed, whole, to a
    new writer thread. *)
Theorem wrong_size_is_not_fatal cfg env s msg :
  loop_msg env (i s) = Some msg ->
  Z.of_nat (length msg) <> message_size cfg ->
  match (iteration cfg env ;; next_i)%main s with
  | Next _ s' =>
      exists rest slot tid,
        trace s' = trace s ++
                   Print (PBadSize (to_int (Z.of_nat (length msg)))) :: rest /\
        Create slot tid msg ∈ rest
  | Return _ _ => False
  | Undefined _ => True
  end.
Proof.
  intros Hmsg Hsize. pose proof (turn_cases cfg env s) as Hc.
  destruct ((iteration cfg env ;; next_i)%main s) as [u s' | rc s' | s'].
  - destruct Hc as (msg' & c & ok & slot & tid & Hm & _ & _ & _ & _ & _ & _ & _ & _ &
                    _ & _ & Htr).
    rewrite Hmsg in Hm. injection Hm as <-.
    unfold size_report in Htr.
    destruct (Z.eqb_spec (Z.of_nat (length msg)) (message_size cfg)); [contradiction |].
    eexists _, slot, (new_thread env (i s)). split; [exact Htr |].
    rewrite !elem_of_app. right. right. left. left.
  - destruct Hc as [Hc _]. congruence.
  - exact I.
Qed.

Lemma wrong_size_is_not_fatal_witness :
  match (iteration Sample.cfg5 Sample.env_lap ;; next_i)%main Sample.entry5 with
  | Next _ s' =>
      exists rest slot tid,
        trace s' = trace Sample.entry5 ++
                   Print (PBadSize (to_int (Z.of_nat (length (Sample.payload 1))))) :: rest /\
        Create slot tid (Sample.payload 1) ∈ rest
  | Return _ _ => False
  | Undefined _ => True
  end.
Proof.
  apply (wrong_size_is_not_fatal Sample.cfg5 Sample.env_lap Sample.entry5
           (Sample.payload 1)).
  - reflexivity.
  - vm_compute. discriminate.
Defined.
